(** * audiocutter: the sample pipeline of [AudioProcessor] (src/audio-processor.js)

    A shallow embedding of the trimming, fading, gain, normalisation, WAV
    encoding and timecode parsing and printing code, and of the export path
    of the page that calls it (src/app.js), with the properties of it that
    the specification states and further properties of the code.

    Conventions of the embedding.
    - A JavaScript number is a [num]: an exact rational, one of the two
      infinities, or NaN.  Arithmetic on finite values is exact (no rounding,
      no overflow, no signed zero; the literal [0.95] is 19/20); the special
      values follow IEEE-754 as JavaScript exposes them.
    - The times and durations handed to the processor are finite ([Qc]); the
      sample rate of a buffer is an integer.  [buffer.duration] is the
      quotient of the frame count by the sample rate rounded to the nearest
      double ([round64]), so the end index of the range [0, duration) is
      computed from the rounded value.
    - A [Float32Array] is a list of [num] living in a store ([gmap] from
      locations to arrays), so that the in-place transforms and the aliasing
      between buffers are explicit.  Reads out of range give [undefined],
      writes out of range are dropped, as typed arrays do.
    - An [AudioBuffer] is the record of its fields and of the locations of its
      channel arrays.  [createBuffer], [DataView], [parseFloat] and
      [split] belong to the platform; they are modelled from the Web Audio
      and ECMAScript specifications, strings being ASCII. *)

From Stdlib Require Import ZArith QArith Qcanon Qround Lia Lqa String Ascii.
From stdpp Require Import base numbers list gmap strings.

Local Open Scope Z_scope.

(** ** JavaScript numbers *)

Module JS.

Inductive num : Type :=
  | Fin (q : Qc)
  | PInf
  | NInf
  | NaN.

#[global] Instance num_eq_dec : EqDecision num.
Proof. solve_decision. Defined.

#[global] Instance num_inhabited : Inhabited num := populate NaN.

Definition ofQ (q : Q) : num := Fin (Q2Qc q).
Definition ofZ (z : Z) : num := Fin (Qc_of_Z z).

Definition isNaN (x : num) : bool :=
  match x with NaN => true | _ => false end.

(** The sign of a number that is not NaN: -1, 0 or 1. *)
Definition sign (x : num) : Z :=
  match x with
  | Fin q => if bool_decide (0 < q)%Qc then 1
             else if bool_decide (q < 0)%Qc then -1 else 0
  | PInf => 1
  | NInf => -1
  | NaN => 0
  end.

Definition inf_of_sign (s : Z) : num :=
  if 0 <? s then PInf else if s <? 0 then NInf else NaN.

Definition neg (x : num) : num :=
  match x with
  | Fin q => Fin (- q)%Qc
  | PInf => NInf
  | NInf => PInf
  | NaN => NaN
  end.

Definition add (x y : num) : num :=
  match x, y with
  | NaN, _ | _, NaN => NaN
  | Fin a, Fin b => Fin (a + b)%Qc
  | PInf, NInf | NInf, PInf => NaN
  | PInf, _ | _, PInf => PInf
  | NInf, _ | _, NInf => NInf
  end.

Definition sub (x y : num) : num := add x (neg y).

Definition mul (x y : num) : num :=
  match x, y with
  | NaN, _ | _, NaN => NaN
  | Fin a, Fin b => Fin (a * b)%Qc
  | _, _ => inf_of_sign (sign x * sign y)
  end.

Definition div (x y : num) : num :=
  match x, y with
  | NaN, _ | _, NaN => NaN
  | Fin a, Fin b =>
      if bool_decide (b = 0%Qc) then inf_of_sign (sign x) else Fin (a / b)%Qc
  | Fin _, _ => Fin 0%Qc
  | _, Fin _ => inf_of_sign (sign x * (if sign y <? 0 then -1 else 1))
  | _, _ => NaN
  end.

(** [x < y] and [x >= y] as JavaScript evaluates them: false as soon as one
    side is NaN. *)
Definition lt (x y : num) : bool :=
  match x, y with
  | NaN, _ | _, NaN => false
  | Fin a, Fin b => bool_decide (a < b)%Qc
  | NInf, NInf | PInf, _ | _, NInf => false
  | NInf, _ | _, PInf => true
  end.

Definition gt (x y : num) : bool := lt y x.

Definition ge (x y : num) : bool :=
  match x, y with
  | NaN, _ | _, NaN => false
  | _, _ => negb (lt x y)
  end.

Definition le (x y : num) : bool :=
  match x, y with
  | NaN, _ | _, NaN => false
  | _, _ => negb (lt y x)
  end.

(** [Math.abs], [Math.max] and [Math.min] (two arguments). *)
Definition abs (x : num) : num :=
  match x with
  | Fin q => Fin (if bool_decide (q < 0)%Qc then - q else q)%Qc
  | PInf | NInf => PInf
  | NaN => NaN
  end.

Definition max (x y : num) : num :=
  match x, y with
  | NaN, _ | _, NaN => NaN
  | _, _ => if lt x y then y else x
  end.

Definition min (x y : num) : num :=
  match x, y with
  | NaN, _ | _, NaN => NaN
  | _, _ => if lt y x then y else x
  end.

(** [Math.floor] of a finite number, and truncation toward zero. *)
Definition floor (q : Qc) : Z := Qfloor q.

Definition trunc (q : Qc) : Z :=
  if bool_decide (q < 0)%Qc then Qceiling q else Qfloor q.

(** [x % y] on finite numbers, [y] not 0: the remainder has the sign of
    [x]. *)
Definition rem (x y : Qc) : Qc := (x - y * Qc_of_Z (trunc (x / y)))%Qc.

(** *** Double precision

    [buffer.duration] is a quotient the platform stores as a double; the
    rounding is IEEE 754 binary64, to nearest, ties to even. *)

(** [2^e], for any integer [e]. *)
Definition pow2 (e : Z) : Qc :=
  if e <? 0 then (/ Qc_of_Z (2 ^ (- e)))%Qc else Qc_of_Z (2 ^ e).

(** The binary exponent of a positive number: the [e] with
    [2^e <= a < 2^(e+1)]. *)
Definition ilog2 (a : Qc) : Z :=
  let e := Z.log2 (Qnum a) - Z.log2 (Zpos (Qden a)) in
  if bool_decide (pow2 e ≤ a)%Qc then e else e - 1.

(** The integer nearest to [m], the even one on a tie. *)
Definition roundEven (m : Qc) : Z :=
  let f := floor m in
  let r := (m - Qc_of_Z f)%Qc in
  if bool_decide (r < Q2Qc (1 # 2))%Qc then f
  else if bool_decide (Q2Qc (1 # 2) < r)%Qc then f + 1
  else if Z.even f then f else f + 1.

(** The double nearest to [q]: 53 significant bits, the spacing of the
    subnormal numbers below 2^-1022.  (No overflow to Infinity: the
    quotients rounded here are below 2^1024.) *)
Definition round64 (q : Qc) : Qc :=
  if bool_decide (q = 0)%Qc then 0%Qc
  else
    let negative := bool_decide (q < 0)%Qc in
    let a := if negative then (- q)%Qc else q in
    let ulp := pow2 (Z.max (ilog2 a) (-1022) - 52) in
    let n := Qc_of_Z (roundEven (a / ulp)) in
    if negative then (- (n * ulp))%Qc else (n * ulp)%Qc.

(** A value read from an array is a number or [undefined]; [ToNumber] turns
    [undefined] into NaN. *)
Definition ToNumber (v : option num) : num := default NaN v.

(** [ToInt16], the conversion an [Int16Array] applies to a stored value:
    NaN and the infinities become 0, a finite value is truncated toward zero
    and reduced modulo 2^16 into [-2^15, 2^15). *)
Definition ToInt16 (x : num) : Z :=
  match x with
  | Fin q =>
      let k := trunc q mod 65536 in
      if 32768 <=? k then k - 65536 else k
  | _ => 0
  end.

(** [ToUint32], [ToUint16] and [ToUint8] on integers, as the [DataView]
    setters apply them. *)
Definition ToUint32 (z : Z) : Z := z mod 4294967296.
Definition ToUint16 (z : Z) : Z := z mod 65536.
Definition ToUint8 (z : Z) : Z := z mod 256.

End JS.

Import JS.

(** ** Typed arrays, the store and counted loops *)

Abbreviation loc := positive.

(** The store: every live [Float32Array], by location. *)
Abbreviation store := (gmap positive (list num)).

(** [a[k]] for an integer index: [undefined] (here [None]) out of range. *)
Definition read {A : Type} (a : list A) (k : Z) : option A :=
  if k <? 0 then None else a !! Z.to_nat k.

(** [a[k] = v] on a typed array: dropped when [k] is out of range; the length
    never changes. *)
Definition write {A : Type} (a : list A) (k : Z) (v : A) : list A :=
  if k <? 0 then a else <[Z.to_nat k := v]> a.

(** [for (let i = 0; i < n; i++) body(i)] on a state [S]. *)
Definition for_loop {S : Type} (n : nat) (body : nat → S → S) (s : S) : S :=
  foldl (λ s i, body i s) s (seq 0 n).

(** Exceptions of the platform calls, and results of calls that may throw
    (for an [async] function: the promise resolved or rejected). *)
Inductive exn : Type :=
  | NotSupportedError.

Inductive result (A : Type) : Type :=
  | Ok (a : A)
  | Throw (e : exn).
Arguments Ok {A} a.
Arguments Throw {A} e.

(** ** AudioBuffer (the platform object the code works on) *)

Module AudioBuffer.

Record t : Type := mk {
  sampleRate : Z;
  length : nat;
  channels : list loc
}.

Definition numberOfChannels (b : t) : nat := List.length (channels b).

(** [buffer.getChannelData(c)]: the same array object at every call. *)
Definition getChannelData (b : t) (c : nat) : loc := channels b !!! c.

(** [buffer.duration], in seconds: [length / sampleRate] as a double. *)
Definition duration (b : t) : Qc :=
  round64 (Qc_of_Z (Z.of_nat (length b)) / Qc_of_Z (sampleRate b)).

End AudioBuffer.

Abbreviation AudioBuffer := AudioBuffer.t.

(** A new array, at a location that was not live. *)
Definition alloc (h : store) (a : list num) : store * loc :=
  let l := fresh (dom h) in (<[l := a]> h, l).

Fixpoint alloc_channels (h : store) (n len : nat) : store * list loc :=
  match n with
  | O => (h, [])
  | S n' =>
      let '(h1, l) := alloc h (replicate len (Fin 0%Qc)) in
      let '(h2, ls) := alloc_channels h1 n' len in
      (h2, l :: ls)
  end.

(** [audioContext.createBuffer(numberOfChannels, length, sampleRate)]:
    [NotSupportedError] when an argument is zero or negative (Web Audio API),
    otherwise fresh zero-filled channel arrays.  Allocation itself never
    fails: no upper limit on the sizes is modelled. *)
Definition createBuffer (h : store) (numberOfChannels : nat) (length : Z)
    (sampleRate : Z) : result (store * AudioBuffer) :=
  if bool_decide (numberOfChannels = 0%nat) || (length <=? 0) || (sampleRate <=? 0)
  then Throw NotSupportedError
  else
    let '(h', ls) := alloc_channels h numberOfChannels (Z.to_nat length) in
    Ok (h', AudioBuffer.mk sampleRate (Z.to_nat length) ls).

(** ** Byte buffers: [DataView] setters and [Uint8Array] *)

(** Byte [i] of an unsigned integer, from the least significant. *)
Definition byteOf (u : Z) (i : Z) : Z := Z.land (Z.shiftr u (8 * i)) 255.

(** [view.setUint8(off, v)]. *)
Definition setUint8 (view : list Z) (off : nat) (v : Z) : list Z :=
  <[off := ToUint8 v]> view.

(** [view.setUint16(off, v, true)]: little-endian. *)
Definition setUint16 (view : list Z) (off : nat) (v : Z) : list Z :=
  let u := ToUint16 v in
  <[S off := byteOf u 1]> (<[off := byteOf u 0]> view).

(** [view.setUint32(off, v, true)]: little-endian. *)
Definition setUint32 (view : list Z) (off : nat) (v : Z) : list Z :=
  let u := ToUint32 v in
  <[S (S (S off)) := byteOf u 3]>
    (<[S (S off) := byteOf u 2]>
      (<[S off := byteOf u 1]>
        (<[off := byteOf u 0]> view))).

(** [string.charCodeAt(i)] for [i] below the length (ASCII strings). *)
Definition charCodeAt (s : string) (i : nat) : Z :=
  match String.get i s with
  | Some c => Z.of_nat (nat_of_ascii c)
  | None => 0
  end.

(** [dst.set(src, off)] on [Uint8Array]s, for a source that fits. *)
Definition set_bytes (dst src : list Z) (off : nat) : list Z :=
  take off dst ++ src ++ drop (off + List.length src) dst.

(** The bytes of an [Int16Array] seen through [new Uint8Array(a.buffer)]:
    two's complement, low byte first (little-endian platform). *)
Definition int16_bytes (v : Z) : list Z :=
  let u := v mod 65536 in [byteOf u 0; byteOf u 1].

Definition Uint8Array_of_Int16Array (a : list Z) : list Z :=
  mjoin (int16_bytes <$> a).

Record Blob : Type := mkBlob {
  blob_bytes : list Z;
  blob_type : string
}.

(** ** Strings: [split(':')] and [parseFloat] *)

(** [s.split(':')]: never empty; an empty piece between, before or after
    separators is kept. *)
Fixpoint split_colon (s : string) : list string :=
  match s with
  | EmptyString => [EmptyString]
  | String c rest =>
      if bool_decide (c = ":"%char) then EmptyString :: split_colon rest
      else match split_colon rest with
           | p :: ps => String c p :: ps
           | [] => [String c EmptyString]
           end
  end.

Definition is_space (c : ascii) : bool :=
  let n := nat_of_ascii c in
  bool_decide (n = 32 ∨ 9 ≤ n ≤ 13)%nat.

Fixpoint trim_start (s : string) : string :=
  match s with
  | String c rest => if is_space c then trim_start rest else s
  | EmptyString => s
  end.

Definition digit_val (c : ascii) : option Z :=
  let n := nat_of_ascii c in
  if bool_decide (48 ≤ n ≤ 57)%nat then Some (Z.of_nat n - 48) else None.

(** The longest run of decimal digits at the head of [s]: its value on top of
    [acc], how many digits there were, and what follows. *)
Fixpoint take_digits (s : string) (acc : Z) (cnt : nat) : Z * nat * string :=
  match s with
  | String c rest =>
      match digit_val c with
      | Some d => take_digits rest (10 * acc + d) (S cnt)
      | None => (acc, cnt, s)
      end
  | EmptyString => (acc, cnt, s)
  end.

Definition take_sign (s : string) : Z * string :=
  match s with
  | String c rest =>
      if bool_decide (c = "-"%char) then (-1, rest)
      else if bool_decide (c = "+"%char) then (1, rest)
      else (1, s)
  | EmptyString => (1, s)
  end.

Definition pow10 (e : Z) : Qc :=
  if e <? 0 then (/ Qc_of_Z (10 ^ (- e)))%Qc else Qc_of_Z (10 ^ e).

(** The exponent part [e±ddd] at the head of [s], 0 when there is none or it
    has no digit. *)
Definition take_exponent (s : string) : Z :=
  match s with
  | String c rest =>
      if bool_decide (c = "e"%char ∨ c = "E"%char) then
        let '(es, r1) := take_sign rest in
        let '(ev, ne, _) := take_digits r1 0 0 in
        if bool_decide (ne = 0%nat) then 0 else es * ev
      else 0
  | EmptyString => 0
  end.

(** [parseFloat(s)] (ECMAScript): leading white space (here the ASCII one)
    is skipped, the longest prefix that is a decimal literal (or a signed
    [Infinity]) is read, what follows is ignored, and NaN is the answer when
    no prefix is one.  The value is the exact decimal. *)
Definition parseFloat (s : string) : num :=
  let '(sgn, s0) := take_sign (trim_start s) in
  if String.prefix "Infinity" s0 then (if sgn <? 0 then NInf else PInf)
  else
    let '(ip, ni, s1) := take_digits s0 0 0 in
    let '(fp, nf, s2) :=
      match s1 with
      | String c rest =>
          if bool_decide (c = "."%char) then take_digits rest 0 0 else (0, 0%nat, s1)
      | EmptyString => (0, 0%nat, s1)
      end in
    if bool_decide (ni = 0%nat) && bool_decide (nf = 0%nat) then NaN
    else
      Fin (Qc_of_Z sgn
           * (Qc_of_Z ip + Qc_of_Z fp / Qc_of_Z (10 ^ Z.of_nat nf))
           * pow10 (take_exponent s2))%Qc.

(** ** Numbers to strings: [toString], [padStart], [toFixed] *)

(** The decimal digits of a non-negative integer, most significant first,
    on top of [acc]. *)
Fixpoint decimal_digits (fuel : nat) (n : Z) (acc : list Z) : list Z :=
  match fuel with
  | O => acc
  | S fuel' =>
      if n <? 10 then n :: acc
      else decimal_digits fuel' (n / 10) (n mod 10 :: acc)
  end.

Definition digitsOf (n : Z) : list Z :=
  decimal_digits (S (Z.to_nat (Z.log2 n))) n [].

Definition digitChar (d : Z) : ascii := ascii_of_nat (48 + Z.to_nat d).

Definition string_of_digits (ds : list Z) : string :=
  string_of_list_ascii (digitChar <$> ds).

(** [n.toString()] for an integer below 10^21 in absolute value (above, the
    platform switches to the exponent form). *)
Definition intToString (n : Z) : string :=
  if n <? 0 then String "-" (string_of_digits (digitsOf (- n)))
  else string_of_digits (digitsOf n).

(** [s.padStart(n, c)]. *)
Definition padStart (n : nat) (c : ascii) (s : string) : string :=
  string_of_list_ascii (replicate (n - String.length s) c) +:+ s.

(** [x.toFixed(f)] for a finite [x] below 10^21 in absolute value
    (ECMAScript): the sign apart, the integer [n] nearest to [x * 10^f], the
    larger one on a tie, written with at least [f + 1] digits and a point
    before the last [f]. *)
Definition toFixed (x : Qc) (f : nat) : string :=
  let negative := bool_decide (x < 0)%Qc in
  let x := if negative then (- x)%Qc else x in
  let n := floor (x * Qc_of_Z (10 ^ Z.of_nat f) + Q2Qc (1 # 2)) in
  let m := digitsOf n in
  let m :=
    if bool_decide (f = 0%nat) then string_of_digits m
    else
      let m := replicate (S f - List.length m) 0 ++ m in
      let k := List.length m in
      string_of_digits (take (k - f) m) +:+ "." +:+ string_of_digits (drop (k - f) m) in
  if negative then String "-" m else m.

(** ** AudioProcessor *)

Module AudioProcessor.

(** [trimAudio(buffer, startTime, endTime)] (lines 61-87), on an initialised
    audio context.  The function is [async]: [Throw] is the rejected
    promise. *)
Definition trimAudio (h : store) (buffer : AudioBuffer) (startTime endTime : Qc)
    : result (store * AudioBuffer) :=
  let sampleRate := AudioBuffer.sampleRate buffer in
  let startSample := floor (startTime * Qc_of_Z sampleRate) in
  let endSample := floor (endTime * Qc_of_Z sampleRate) in
  let frameCount := endSample - startSample in
  match createBuffer h (AudioBuffer.numberOfChannels buffer) frameCount sampleRate with
  | Throw e => Throw e
  | Ok (h1, newBuffer) =>
      Ok (for_loop (AudioBuffer.numberOfChannels buffer) (λ channel h,
            let channelData := h !!! AudioBuffer.getChannelData buffer channel in
            let newLoc := AudioBuffer.getChannelData newBuffer channel in
            let newChannelData :=
              for_loop (Z.to_nat frameCount) (λ i a,
                write a (Z.of_nat i)
                  (ToNumber (read channelData (startSample + Z.of_nat i))))
                (h !!! newLoc) in
            <[newLoc := newChannelData]> h) h1,
          newBuffer)
  end.

(** [writeString(view, offset, string)] (lines 161-165). *)
Definition writeString (view : list Z) (offset : nat) (s : string) : list Z :=
  for_loop (String.length s) (λ i view,
    setUint8 view (offset + i) (charCodeAt s i)) view.

(** [createWavHeader(numChannels, sampleRate, length)] (lines 119-156). *)
Definition createWavHeader (numChannels sampleRate length : Z) : list Z :=
  let bitsPerSample := 16 in
  let byteRate := sampleRate * numChannels * bitsPerSample / 8 in
  let blockAlign := numChannels * bitsPerSample / 8 in
  let dataSize := length * numChannels * bitsPerSample / 8 in
  let view := replicate 44 0 in
  let view := writeString view 0 "RIFF" in
  let view := setUint32 view 4 (36 + dataSize) in
  let view := writeString view 8 "WAVE" in
  let view := writeString view 12 "fmt " in
  let view := setUint32 view 16 16 in
  let view := setUint16 view 20 1 in
  let view := setUint16 view 22 numChannels in
  let view := setUint32 view 24 sampleRate in
  let view := setUint32 view 28 byteRate in
  let view := setUint16 view 32 blockAlign in
  let view := setUint16 view 34 bitsPerSample in
  let view := writeString view 36 "data" in
  let view := setUint32 view 40 dataSize in
  view.

(** [interleave(buffer)] (lines 170-183). *)
Definition interleave (h : store) (buffer : AudioBuffer) : list num :=
  let numChannels := AudioBuffer.numberOfChannels buffer in
  let length := AudioBuffer.length buffer in
  let result := replicate (length * numChannels) (Fin 0%Qc) in
  for_loop numChannels (λ channel result,
    let channelData := h !!! AudioBuffer.getChannelData buffer channel in
    for_loop length (λ i result,
      write result (Z.of_nat (i * numChannels + channel))
        (ToNumber (read channelData (Z.of_nat i)))) result) result.

(** The value stored by one turn of the loop of [floatTo16BitPCM]. *)
Definition quantize (x : num) : Z :=
  let s := max (Fin (-1)%Qc) (min (Fin 1%Qc) x) in
  ToInt16 (if lt s (Fin 0%Qc) then mul s (ofZ 32768) else mul s (ofZ 32767)).

(** [floatTo16BitPCM(floatArray)] (lines 188-198). *)
Definition floatTo16BitPCM (floatArray : list num) : list Z :=
  let length := List.length floatArray in
  let int16Array := replicate length 0 in
  let int16Array :=
    for_loop length (λ i int16Array,
      write int16Array (Z.of_nat i)
        (quantize (ToNumber (read floatArray (Z.of_nat i)))))
      int16Array in
  Uint8Array_of_Int16Array int16Array.

(** [bufferToWav(buffer)] (lines 94-114). *)
Definition bufferToWav (h : store) (buffer : AudioBuffer) : Blob :=
  let numChannels := AudioBuffer.numberOfChannels buffer in
  let sampleRate := AudioBuffer.sampleRate buffer in
  let length := AudioBuffer.length buffer in
  let wavHeader :=
    createWavHeader (Z.of_nat numChannels) sampleRate (Z.of_nat length) in
  let interleaved := interleave h buffer in
  let pcmData := floatTo16BitPCM interleaved in
  let wavData := replicate (List.length wavHeader + List.length pcmData) 0 in
  let wavData := set_bytes wavData wavHeader 0 in
  let wavData := set_bytes wavData pcmData (List.length wavHeader) in
  mkBlob wavData "audio/wav".

(** [applyFade(buffer, fadeInDuration, fadeOutDuration)] (lines 207-229);
    a duration left out by the caller is 0. *)
Definition applyFade (h : store) (buffer : AudioBuffer)
    (fadeInDuration fadeOutDuration : Qc) : store * AudioBuffer :=
  let sampleRate := AudioBuffer.sampleRate buffer in
  let fadeInSamples := floor (fadeInDuration * Qc_of_Z sampleRate) in
  let fadeOutSamples := floor (fadeOutDuration * Qc_of_Z sampleRate) in
  (for_loop (AudioBuffer.numberOfChannels buffer) (λ channel h,
     let l := AudioBuffer.getChannelData buffer channel in
     let channelData := h !!! l in
     let channelData :=
       for_loop (Z.to_nat fadeInSamples) (λ i a,
         write a (Z.of_nat i)
           (mul (ToNumber (read a (Z.of_nat i)))
              (div (ofZ (Z.of_nat i)) (ofZ fadeInSamples)))) channelData in
     let startFadeOut := Z.of_nat (AudioBuffer.length buffer) - fadeOutSamples in
     let channelData :=
       for_loop (Z.to_nat fadeOutSamples) (λ i a,
         let index := startFadeOut + Z.of_nat i in
         write a index
           (mul (ToNumber (read a index))
              (sub (Fin 1%Qc) (div (ofZ (Z.of_nat i)) (ofZ fadeOutSamples)))))
         channelData in
     <[l := channelData]> h) h,
   buffer).

(** [applyGain(buffer, gain)] (lines 237-245). *)
Definition applyGain (h : store) (buffer : AudioBuffer) (gain : num)
    : store * AudioBuffer :=
  (for_loop (AudioBuffer.numberOfChannels buffer) (λ channel h,
     let l := AudioBuffer.getChannelData buffer channel in
     let channelData :=
       for_loop (AudioBuffer.length buffer) (λ i a,
         write a (Z.of_nat i) (mul (ToNumber (read a (Z.of_nat i))) gain))
         (h !!! l) in
     <[l := channelData]> h) h,
   buffer).

(** The peak scan of [normalize] (lines 253-261). *)
Definition maxAmplitude (h : store) (buffer : AudioBuffer) : num :=
  for_loop (AudioBuffer.numberOfChannels buffer) (λ channel maxAmplitude,
    let channelData := h !!! AudioBuffer.getChannelData buffer channel in
    for_loop (AudioBuffer.length buffer) (λ i maxAmplitude,
      max maxAmplitude (abs (ToNumber (read channelData (Z.of_nat i)))))
      maxAmplitude) (Fin 0%Qc).

(** [normalize(buffer)] (lines 252-270). *)
Definition normalize (h : store) (buffer : AudioBuffer) : store * AudioBuffer :=
  let maxAmplitude := maxAmplitude h buffer in
  if gt maxAmplitude (Fin 0%Qc) && lt maxAmplitude (Fin 1%Qc) then
    let gain := div (ofQ (95 # 100)) maxAmplitude in
    applyGain h buffer gain
  else (h, buffer).

(** [timeToSeconds(timeStr)] (lines 277-296). *)
Definition timeToSeconds (timeStr : string) : num :=
  let parts := split_colon timeStr in
  let seconds := Fin 0%Qc in
  let seconds :=
    match parts with
    | [p0; p1; p2] =>
        let seconds := add seconds (mul (parseFloat p0) (ofZ 3600)) in
        let seconds := add seconds (mul (parseFloat p1) (ofZ 60)) in
        add seconds (parseFloat p2)
    | [p0; p1] =>
        let seconds := add seconds (mul (parseFloat p0) (ofZ 60)) in
        add seconds (parseFloat p1)
    | [p0] => add seconds (parseFloat p0)
    | _ => seconds
    end in
  if isNaN seconds then Fin 0%Qc else seconds.

(** [secondsToTime(seconds)] (lines 303-307), on a finite number. *)
Definition secondsToTime (seconds : Qc) : string :=
  let mins := floor (seconds / Qc_of_Z 60) in
  let secs := rem seconds (Qc_of_Z 60) in
  padStart 2 "0" (intToString mins) +:+ ":"
  +:+ padStart 6 "0" (toFixed secs 3).

End AudioProcessor.

Import AudioProcessor.

(** * Specification-side definitions *)

(** ** Valid buffers *)

(** A valid buffer: positive sample rate, at least one channel, and the
    channels are pairwise different live arrays of [length] samples. *)
Record wf_buffer (h : store) (b : AudioBuffer) : Prop := mk_wf {
  wf_rate : 0 < AudioBuffer.sampleRate b;
  wf_channels : (0 < AudioBuffer.numberOfChannels b)%nat;
  wf_nodup : NoDup (AudioBuffer.channels b);
  wf_arrays : ∀ l, l ∈ AudioBuffer.channels b →
    ∃ a, h !! l = Some a ∧ List.length a = AudioBuffer.length b
}.

(** The samples of channel [c], as [getChannelData(c)] shows them. *)
Definition channelSamples (h : store) (b : AudioBuffer) (c : nat) : list num :=
  h !!! AudioBuffer.getChannelData b c.

(** [wf_buffer], as a test that computes. *)
Definition wf_bufferb (h : store) (b : AudioBuffer) : bool :=
  (0 <? AudioBuffer.sampleRate b)
  && bool_decide (0 < AudioBuffer.numberOfChannels b)%nat
  && bool_decide (NoDup (AudioBuffer.channels b))
  && forallb (λ l,
       match h !! l with
       | Some a => bool_decide (List.length a = AudioBuffer.length b)
       | None => false
       end) (AudioBuffer.channels b).

(** ** The loops of one channel, and what the specification says of them *)

(** The loop of [applyGain] on one channel. *)
Definition gainLoop (n : nat) (gain : num) (a : list num) : list num :=
  for_loop n (λ i a,
    write a (Z.of_nat i) (mul (ToNumber (read a (Z.of_nat i))) gain)) a.

(** The running maximum of the absolute values of a list of samples. *)
Definition peak (m : num) (xs : list num) : num :=
  foldl (λ m x, max m (abs x)) m xs.

(** The headroom constant [0.95] of [normalize]. *)
Definition headroom : Qc := Q2Qc (95 # 100).

(** The two ramps of [applyFade], as the loops of one channel. *)
Definition fadeInLoop (fadeInSamples : Z) (a : list num) : list num :=
  for_loop (Z.to_nat fadeInSamples) (λ i a,
    write a (Z.of_nat i)
      (mul (ToNumber (read a (Z.of_nat i)))
         (div (ofZ (Z.of_nat i)) (ofZ fadeInSamples)))) a.

Definition fadeOutLoop (length : nat) (fadeOutSamples : Z) (a : list num)
    : list num :=
  for_loop (Z.to_nat fadeOutSamples) (λ i a,
    write a (Z.of_nat length - fadeOutSamples + Z.of_nat i)
      (mul (ToNumber (read a (Z.of_nat length - fadeOutSamples + Z.of_nat i)))
         (sub (Fin 1%Qc) (div (ofZ (Z.of_nat i)) (ofZ fadeOutSamples))))) a.

(** What the specification says of sample [j] of a channel: scaled by
    [j / fadeInSamples] inside the fade-in ramp, and by
    [1 - i / fadeOutSamples] at position [frameCount - fadeOutSamples + i]
    of the fade-out ramp. *)
Definition fadeInScale (fadeInSamples j : Z) (x : num) : num :=
  if j <? fadeInSamples
  then mul x (Fin (Qc_of_Z j / Qc_of_Z fadeInSamples)%Qc)
  else x.

Definition fadeOutScale (frameCount fadeOutSamples j : Z) (x : num) : num :=
  if frameCount - fadeOutSamples <=? j
  then mul x (Fin (1 - Qc_of_Z (j - (frameCount - fadeOutSamples))
                       / Qc_of_Z fadeOutSamples)%Qc)
  else x.

(** ** Quantisation *)

(** The specification's quantisation, on a finite sample: clamp to [-1, 1],
    scale by 32768 below zero and by 32767 otherwise, truncate toward zero. *)
Definition clamp (x : Qc) : Qc :=
  if bool_decide (x < -1)%Qc then (-1)%Qc
  else if bool_decide (1 < x)%Qc then 1%Qc else x.

Definition scaled (x : Qc) : Qc :=
  let c := clamp x in
  if bool_decide (c < 0)%Qc then (c * Qc_of_Z 32768)%Qc
  else (c * Qc_of_Z 32767)%Qc.

Definition quantize_spec (x : Qc) : Z := trunc (scaled x).

(** ** The WAV container *)

(** The specification's header: little-endian fields of 2 and 4 bytes (a field
    holds its value modulo 2^16 or 2^32) and 4-character tags. *)
Definition le16 (v : Z) : list Z := [v mod 256; (v / 256) mod 256].

Definition le32 (v : Z) : list Z :=
  [v mod 256; (v / 256) mod 256; (v / 65536) mod 256; (v / 16777216) mod 256].

Definition tag (s : string) : list Z :=
  (λ c, Z.of_nat (nat_of_ascii c)) <$> list_ascii_of_string s.

Definition wavHeader_spec (channelCount sampleRate frameCount : Z) : list Z :=
  let dataSize := frameCount * channelCount * 2 in
  tag "RIFF" ++ le32 (36 + dataSize) ++ tag "WAVE"
  ++ tag "fmt " ++ le32 16 ++ le16 1 ++ le16 channelCount ++ le32 sampleRate
  ++ le32 (sampleRate * channelCount * 2) ++ le16 (channelCount * 2) ++ le16 16
  ++ tag "data" ++ le32 dataSize.

(** The number a little-endian field denotes. *)
Definition le_value (bs : list Z) : Z := foldr (λ b acc, b + 256 * acc) 0 bs.

(** Reading a header field back. *)
Definition field16 (bytes : list Z) (off : nat) : Z :=
  le_value (take 2 (drop off bytes)).

Definition field32 (bytes : list Z) (off : nat) : Z :=
  le_value (take 4 (drop off bytes)).

(** The signed 16-bit number a low and a high byte denote. *)
Definition int16_of_bytes (lo hi : Z) : Z :=
  let u := lo + 256 * hi in
  if 32768 <=? u then u - 65536 else u.

(** ** Decimal digits and rounding *)




(** ** The caller's range check *)

Module App.

(** The test [App.trimAudio] makes before it calls the processor
    (src/app.js, lines 696-704): the slice is attempted only when
    [start < 0 || end > totalDuration || start >= end] is false. *)
Definition rangeAccepted (start end_ totalDuration : num) : bool :=
  negb (lt start (Fin 0%Qc) || gt end_ totalDuration || ge start end_).

(** [formatTime(seconds)] (lines 871-875), on a finite number. *)
Definition formatTime (seconds : Qc) : string :=
  let mins := floor (seconds / Qc_of_Z 60) in
  let secs := toFixed (rem seconds (Qc_of_Z 60)) 2 in
  intToString mins +:+ ":" +:+ padStart 5 "0" secs.


(** The test of [updateSelectionFromInput] (line 603):
    [start >= 0 && end > start && end <= duration]. *)
Definition selectionAccepted (start end_ duration : num) : bool :=
  ge start (Fin 0%Qc) && gt end_ start && le end_ duration.

(** The two tests of [batchTrim]: the range is refused for all files when
    [start < 0 || start >= end] (line 905), and a file is skipped when
    [end > buffer.duration] (line 938). *)
Definition batchRangeRefused (start end_ : num) : bool :=
  lt start (Fin 0%Qc) || ge start end_.

Definition fileSkipped (end_ duration : num) : bool := gt end_ duration.

(** What the page holds when [trimAudio] runs: the fade box and its two
    durations ([parseFloat(...) || 0], finite here), the volume slider
    ([parseInt], an integer here) and the normalize box. *)
Record options : Type := mkOptions {
  enableFade : bool;
  fadeIn : Qc;
  fadeOut : Qc;
  volumePercent : Z;
  normalizeAudio : bool
}.

(** How [App.trimAudio] ends: the range alert, the error alert of its
    [catch], or a result made of the processed buffer and its WAV blob. *)
Inductive outcome : Type :=
  | Alerted
  | Failed (e : exn)
  | Exported (h : store) (trimmedBuffer : AudioBuffer) (audioBlob : Blob).

(** The effects of [App.trimAudio] on the slice (lines 717-734). *)
Definition applyEffects (h : store) (trimmedBuffer : AudioBuffer) (o : options)
    : store * AudioBuffer :=
  let '(h, trimmedBuffer) :=
    if enableFade o
    then applyFade h trimmedBuffer (fadeIn o) (fadeOut o)
    else (h, trimmedBuffer) in
  let '(h, trimmedBuffer) :=
    if bool_decide (volumePercent o ≠ 100)
    then applyGain h trimmedBuffer (div (ofZ (volumePercent o)) (ofZ 100))
    else (h, trimmedBuffer) in
  if normalizeAudio o then normalize h trimmedBuffer else (h, trimmedBuffer).

(** [App.trimAudio] (lines 689-775) with a file loaded, from the two time
    fields to the blob; what it does to the page is left out.  A range that
    passes the test is finite, so the last case of the [match] is never
    reached. *)
Definition trimAudio (h : store) (currentBuffer : AudioBuffer)
    (startField endField : string) (o : options) : outcome :=
  let start := timeToSeconds startField in
  let end_ := timeToSeconds endField in
  let totalDuration := Fin (AudioBuffer.duration currentBuffer) in
  if lt start (Fin 0%Qc) || gt end_ totalDuration || ge start end_
  then Alerted
  else
    match start, end_ with
    | Fin s, Fin e =>
        match AudioProcessor.trimAudio h currentBuffer s e with
        | Throw err => Failed err
        | Ok (h1, trimmedBuffer) =>
            let '(h2, trimmedBuffer) := applyEffects h1 trimmedBuffer o in
            Exported h2 trimmedBuffer (bufferToWav h2 trimmedBuffer)
        end
    | _, _ => Alerted
    end.

End App.

(** ** Concrete buffers *)

Module Examples.

Definition eighths (n : Z) : num := ofQ (n # 8).

(** A stereo buffer of four frames at 8192 samples per second. *)
Definition store0 : store :=
  {[ 1%positive := [eighths 1; eighths 2; eighths 3; eighths 4];
     2%positive := [eighths (-1); eighths (-2); eighths (-3); eighths (-4)] ]}.

Definition buffer0 : AudioBuffer :=
  AudioBuffer.mk 8192 4 [1%positive; 2%positive].

(** The time, in seconds, at which frame [k] of [buffer0] starts. *)
Definition atFrame (k : Z) : Qc := Q2Qc (k # 8192).

(** A mono buffer of fifteen frames at 44100 samples per second. *)
Definition fifteenStore : store :=
  {[ 1%positive :=
       (λ k, ofQ (k # 16)) <$> [1; 2; 3; 4; 5; 6; 7; 8; 9; 10; 11; 12; 13; 14; 15]
  ]}.

Definition fifteenBuffer : AudioBuffer :=
  AudioBuffer.mk 44100 15 [1%positive].

(** A mono buffer of two frames whose first sample is NaN. *)
Definition nanStore : store := {[ 1%positive := [NaN; eighths 1] ]}.

Definition nanBuffer : AudioBuffer := AudioBuffer.mk 8192 2 [1%positive].

(** The form as the page loads it: no fade, volume 100, no normalization. *)
Definition plainOptions : App.options := App.mkOptions false 0 0 100 false.

End Examples.

Import Examples.

(** * Properties *)

(** ** Loops *)

Section loops.
Context {S : Type}.
Implicit Types (body : nat → S → S) (s : S).

Lemma for_loop_O body s : for_loop 0 body s = s.
Proof. reflexivity. Qed.

Lemma for_loop_S n body s :
  for_loop (Datatypes.S n) body s = body n (for_loop n body s).
Proof. unfold for_loop. by rewrite seq_S, foldl_app. Qed.

(** The invariant rule of a counted loop. *)
Lemma for_loop_inv (P : nat → S → Prop) n body s :
  P 0%nat s →
  (∀ i s', (i < n)%nat → P i s' → P (Datatypes.S i) (body i s')) →
  P n (for_loop n body s).
Proof.
  intros H0 Hstep. induction n as [|n IH]; [done|].
  rewrite for_loop_S. apply Hstep; [lia|].
  apply IH. intros i s' Hi. apply Hstep. lia.
Qed.
End loops.

(** ** Typed-array reads and writes *)

Section typed_arrays.
  Context {A : Type}.
  Implicit Types (a : list A) (k : Z) (v x : A).

Lemma length_write a k v : List.length (write a k v) = List.length a.
Proof. unfold write. case_match; [done|]. by rewrite length_insert. Qed.

Lemma read_Some a k x :
  read a k = Some x → 0 ≤ k < Z.of_nat (List.length a).
Proof.
  unfold read. destruct (Z.ltb_spec k 0); [done|].
  intros Hx%lookup_lt_Some. lia.
Qed.

Lemma read_is_Some a k :
  is_Some (read a k) ↔ 0 ≤ k < Z.of_nat (List.length a).
Proof.
  split.
  - intros [x Hx]. by eapply read_Some.
  - intros [H0 Hk]. unfold read. destruct (Z.ltb_spec k 0); [lia|].
    apply lookup_lt_is_Some. lia.
Qed.

Lemma read_nat a (i : nat) : read a (Z.of_nat i) = a !! i.
Proof.
  unfold read. destruct (Z.ltb_spec (Z.of_nat i) 0); [lia|].
  by rewrite Nat2Z.id.
Qed.

Lemma read_None a k :
  k < 0 ∨ Z.of_nat (List.length a) ≤ k → read a k = None.
Proof.
  intros Hk. destruct (read a k) as [x|] eqn:Hx; [|done].
  apply read_Some in Hx. lia.
Qed.

Lemma read_write_eq a k v :
  is_Some (read a k) → read (write a k v) k = Some v.
Proof.
  rewrite read_is_Some. intros [H0 Hk]. unfold read, write.
  destruct (Z.ltb_spec k 0); [lia|].
  apply list_lookup_insert_eq. lia.
Qed.

Lemma read_write_ne a k k' v :
  k ≠ k' → read (write a k v) k' = read a k'.
Proof.
  intros Hne. unfold read, write.
  destruct (Z.ltb_spec k' 0); [done|].
  destruct (Z.ltb_spec k 0); [done|].
  apply list_lookup_insert_ne. lia.
Qed.

(** A loop that rewrites one cell per turn, at pairwise different indices
    [idx i], each from the cell's own old value. *)
Lemma array_loop (idx : nat → Z) (g : nat → option A → A) a n :
  (∀ i j, (i < n)%nat → (j < n)%nat → idx i = idx j → i = j) →
  let a' := for_loop n (λ i a, write a (idx i) (g i (read a (idx i)))) a in
  List.length a' = List.length a
  ∧ (∀ k, (∀ i, (i < n)%nat → idx i ≠ k) → read a' k = read a k)
  ∧ (∀ i, (i < n)%nat → is_Some (read a (idx i)) →
       read a' (idx i) = Some (g i (read a (idx i)))).
Proof.
  intros Hinj a'. subst a'.
  apply (for_loop_inv (λ m a',
    (m ≤ n)%nat →
    List.length a' = List.length a
    ∧ (∀ k, (∀ i, (i < m)%nat → idx i ≠ k) → read a' k = read a k)
    ∧ (∀ i, (i < m)%nat → is_Some (read a (idx i)) →
         read a' (idx i) = Some (g i (read a (idx i)))))); [| |lia].
  - intros _. split; [done|]. split; [done|]. intros i Hi. lia.
  - intros m a' Hm IH Hle. destruct IH as (Hlen & Hout & Hin); [lia|].
    assert (Hold : read a' (idx m) = read a (idx m)).
    { apply Hout. intros i Hi Heq. apply Hinj in Heq; lia. }
    split; [by rewrite length_write|]. split.
    + intros k Hk. rewrite read_write_ne; [|apply Hk; lia].
      apply Hout. intros i Hi. apply Hk. lia.
    + intros i Hi Hsome. destruct (decide (i = m)) as [->|Hne].
      * rewrite read_write_eq, Hold; [done|]. by rewrite Hold.
      * rewrite read_write_ne; [apply Hin; [lia|done]|].
        intros Heq. apply Hinj in Heq; lia.
Qed.

End typed_arrays.

(** ** The store *)

(** A loop over the channels that replaces the array at [dst !!! c] by a value
    [G c h] computed from the store, where [G c] does not look at the arrays
    the earlier turns have replaced. *)
Lemma store_loop (dst : list loc) (G : nat → store → list num) (h0 : store) :
  NoDup dst →
  (∀ c l h, dst !! c = Some l →
     (∀ l', l' ∉ take c dst → h !! l' = h0 !! l') → G c h = G c h0) →
  let h' := for_loop (List.length dst) (λ c h, <[dst !!! c := G c h]> h) h0 in
  (∀ c l, dst !! c = Some l → h' !! l = Some (G c h0))
  ∧ (∀ l, l ∉ dst → h' !! l = h0 !! l).
Proof.
  intros Hnd HG h'. subst h'.
  cut ((∀ c l, (c < List.length dst)%nat → dst !! c = Some l →
          for_loop (List.length dst) (λ c h, <[dst !!! c := G c h]> h) h0 !! l
          = Some (G c h0))
       ∧ (∀ l, l ∉ take (List.length dst) dst →
          for_loop (List.length dst) (λ c h, <[dst !!! c := G c h]> h) h0 !! l
          = h0 !! l)).
  { intros [H1 H2]. split.
    - intros c l Hc. apply H1; [|done]. by eapply lookup_lt_Some.
    - intros l Hl. apply H2. by rewrite firstn_all. }
  apply (for_loop_inv (λ m h,
    (∀ c l, (c < m)%nat → dst !! c = Some l → h !! l = Some (G c h0))
    ∧ (∀ l, l ∉ take m dst → h !! l = h0 !! l))).
  - split; [intros; lia|done].
  - intros m h Hm [Hdone Hrest].
    destruct (lookup_lt_is_Some_2 dst m Hm) as [lm Hlm].
    rewrite (list_lookup_total_correct _ _ _ Hlm).
    rewrite (HG m lm h Hlm Hrest). split.
    + intros c l Hc Hl. destruct (decide (c = m)) as [->|Hne].
      * assert (l = lm) as -> by congruence. apply lookup_insert_eq.
      * rewrite lookup_insert_ne; [apply Hdone; [lia|done]|].
        intros ->. apply Hne. symmetry. by eapply NoDup_lookup.
    + intros l Hl. rewrite (take_S_r _ _ _ Hlm) in Hl.
      rewrite lookup_insert_ne; [apply Hrest|]; set_solver.
Qed.

Lemma getChannelData_lookup b c :
  (c < AudioBuffer.numberOfChannels b)%nat →
  AudioBuffer.channels b !! c = Some (AudioBuffer.getChannelData b c).
Proof.
  intros Hc. unfold AudioBuffer.getChannelData.
  destruct (lookup_lt_is_Some_2 _ _ Hc) as [l Hl].
  by rewrite (list_lookup_total_correct _ _ _ Hl).
Qed.

Lemma wf_channel_length h b c :
  wf_buffer h b → (c < AudioBuffer.numberOfChannels b)%nat →
  h !! AudioBuffer.getChannelData b c = Some (channelSamples h b c)
  ∧ List.length (channelSamples h b c) = AudioBuffer.length b.
Proof.
  intros Hwf Hc. pose proof (getChannelData_lookup b c Hc) as Hl.
  apply list_elem_of_lookup_2 in Hl.
  destruct (wf_arrays _ _ Hwf _ Hl) as (a & Ha & Hlen).
  unfold channelSamples. by rewrite (lookup_total_correct _ _ _ Ha).
Qed.

Lemma alloc_channels_spec h n len h' ls :
  alloc_channels h n len = (h', ls) →
  List.length ls = n ∧ NoDup ls
  ∧ (∀ l, l ∈ ls → (l ∉ dom h) ∧ h' !! l = Some (replicate len (Fin 0%Qc)))
  ∧ (∀ l, l ∉ ls → h' !! l = h !! l).
Proof.
  revert h h' ls. induction n as [|n IH]; intros h h' ls; simpl.
  - intros [= <- <-]. split; [done|]. split; [apply NoDup_nil_2|].
    split; [set_solver|done].
  - destruct (alloc_channels _ n len) as [h2 ls'] eqn:Hrec.
    intros [= <- <-].
    destruct (IH _ _ _ Hrec) as (Hlen & Hnd & Hnew & Hold).
    pose proof (is_fresh (dom h)) as Hfresh.
    set (l0 := fresh (dom h)) in *.
    assert (Hl0 : l0 ∉ ls').
    { intros Hin. destruct (Hnew _ Hin) as [Hdom _].
      apply Hdom. rewrite dom_insert. set_solver. }
    split; [simpl; by rewrite Hlen|]. split; [by constructor|]. split.
    + intros l [->|Hl]%elem_of_cons.
      * split; [done|]. rewrite Hold; [|done]. apply lookup_insert_eq.
      * destruct (Hnew _ Hl) as [Hdom Hval]. split; [|done].
        intros Hin. apply Hdom. rewrite dom_insert. set_solver.
    + intros l Hl. rewrite Hold; [|set_solver].
      apply lookup_insert_ne. set_solver.
Qed.

Lemma array_loop_nat {A : Type} (g : nat → option A → A) (a : list A) n :
  let a' := for_loop n (λ i a,
              write a (Z.of_nat i) (g i (read a (Z.of_nat i)))) a in
  List.length a' = List.length a
  ∧ (∀ j x, a !! j = Some x →
       a' !! j = Some (if decide (j < n)%nat then g j (Some x) else x)).
Proof.
  intros a'.
  destruct (array_loop (λ i, Z.of_nat i) g a n) as (Hlen & Hout & Hin).
  { intros i j _ _. lia. }
  fold a' in Hlen, Hout, Hin. split; [done|].
  intros j x Hj. rewrite <- !read_nat in *. case_decide as Hlt.
  - rewrite Hin; [by rewrite Hj|done|by rewrite Hj].
  - rewrite Hout; [done|]. intros i Hi. lia.
Qed.

Lemma not_elem_of_take_NoDup (ls : list loc) c l :
  NoDup ls → ls !! c = Some l → l ∉ take c ls.
Proof.
  intros Hnd Hc (j & Hj & Hlt)%elem_of_take.
  assert (j = c) by (by eapply NoDup_lookup). lia.
Qed.

Lemma lookup_total_agree (h1 h2 : store) l :
  h1 !! l = h2 !! l → h1 !!! l = h2 !!! l.
Proof. intros H. by rewrite !lookup_total_alt, H. Qed.

Lemma createBuffer_ok h n len sr :
  (0 < n)%nat → 0 < len → 0 < sr →
  ∃ h1 ls, alloc_channels h n (Z.to_nat len) = (h1, ls)
    ∧ createBuffer h n len sr = Ok (h1, AudioBuffer.mk sr (Z.to_nat len) ls).
Proof.
  intros Hn Hlen Hsr. unfold createBuffer.
  rewrite bool_decide_eq_false_2 by lia.
  destruct (Z.leb_spec len 0); [lia|]. destruct (Z.leb_spec sr 0); [lia|].
  simpl. destruct (alloc_channels h n (Z.to_nat len)) as [h1 ls]. eauto.
Qed.

Lemma createBuffer_throw h n len sr :
  len ≤ 0 → createBuffer h n len sr = Throw NotSupportedError.
Proof.
  intros Hlen. unfold createBuffer.
  destruct (Z.leb_spec len 0); [|lia]. by rewrite orb_true_r.
Qed.

(** What [trimAudio] returns whenever the frame count it computes is
    positive: nothing else is checked. *)
Lemma trimAudio_ok h b startTime endTime :
  wf_buffer h b →
  let startSample := floor (startTime * Qc_of_Z (AudioBuffer.sampleRate b)) in
  let endSample := floor (endTime * Qc_of_Z (AudioBuffer.sampleRate b)) in
  startSample < endSample →
  ∃ h' b',
    trimAudio h b startTime endTime = Ok (h', b')
    ∧ AudioBuffer.sampleRate b' = AudioBuffer.sampleRate b
    ∧ Z.of_nat (AudioBuffer.length b') = endSample - startSample
    ∧ AudioBuffer.numberOfChannels b' = AudioBuffer.numberOfChannels b
    ∧ NoDup (AudioBuffer.channels b')
    ∧ (∀ l, l ∈ AudioBuffer.channels b' → l ∉ dom h)
    ∧ (∀ l, l ∉ AudioBuffer.channels b' → h' !! l = h !! l)
    ∧ (∀ c, (c < AudioBuffer.numberOfChannels b)%nat →
         h' !! AudioBuffer.getChannelData b' c = Some (channelSamples h' b' c)
         ∧ List.length (channelSamples h' b' c) = AudioBuffer.length b'
         ∧ ∀ i, (i < AudioBuffer.length b')%nat →
             channelSamples h' b' c !! i
             = Some (ToNumber (read (channelSamples h b c)
                                 (startSample + Z.of_nat i)))).
Proof.
  intros Hwf startSample endSample Hlt. unfold trimAudio.
  fold startSample endSample.
  destruct (createBuffer_ok h (AudioBuffer.numberOfChannels b)
              (endSample - startSample) (AudioBuffer.sampleRate b))
    as (h1 & ls & Halloc & ->);
    [apply Hwf|lia|apply Hwf|].
  destruct (alloc_channels_spec _ _ _ _ _ Halloc) as (Hlen & Hnd & Hnew & Hold).
  set (n := Z.to_nat (endSample - startSample)) in *.
  set (G := λ (c : nat) (h : store),
    for_loop n (λ i a,
      write a (Z.of_nat i)
        (ToNumber (read (h !!! AudioBuffer.getChannelData b c)
                     (startSample + Z.of_nat i))))
      (h !!! (ls !!! c))).
  destruct (store_loop ls G h1 Hnd) as [Hdst Hother].
  { intros c l h2 Hc Hagree. unfold G.
    assert (Hcb : (c < AudioBuffer.numberOfChannels b)%nat).
    { rewrite <- Hlen. by eapply lookup_lt_Some. }
    rewrite (list_lookup_total_correct _ _ _ Hc).
    rewrite (lookup_total_agree h2 h1 l)
      by (apply Hagree; by apply not_elem_of_take_NoDup).
    rewrite (lookup_total_agree h2 h1 (AudioBuffer.getChannelData b c)); [done|].
    apply Hagree. intros Hin%subseteq_take.
    destruct (Hnew _ Hin) as [Hdom _]. apply Hdom.
    destruct (wf_channel_length h b c Hwf Hcb) as [Hsrc _].
    by eapply elem_of_dom_2. }
  cbv zeta in Hdst, Hother. rewrite Hlen in Hdst, Hother.
  eexists _, _. split; [reflexivity|]. simpl.
  split; [done|]. split; [subst n; lia|]. split; [done|]. split; [done|].
  split; [intros l Hl; by apply Hnew|].
  split; [intros l Hl; etrans; [by apply Hother|by apply Hold]|].
  intros c Hc.
  assert (Hl : ls !! c = Some (ls !!! c)).
  { apply list_lookup_lookup_total_lt. lia. }
  pose proof (Hdst _ _ Hl) as Hc'.
  destruct (Hnew (ls !!! c)) as [_ Hzero]; [by eapply list_elem_of_lookup_2|].
  unfold channelSamples, AudioBuffer.getChannelData. simpl.
  rewrite (lookup_total_correct _ _ _ Hc'). split; [exact Hc'|].
  unfold G. rewrite (lookup_total_correct _ _ _ Hzero).
  rewrite (lookup_total_agree h1 h (AudioBuffer.getChannelData b c)).
  2:{ apply Hold. intros Hin. destruct (Hnew _ Hin) as [Hdom _]. apply Hdom.
      destruct (wf_channel_length h b c Hwf Hc) as [Hsrc _].
      by eapply elem_of_dom_2. }
  match goal with |- context [for_loop n ?body ?a] =>
    destruct (array_loop_nat
      (λ i _, ToNumber (read (h !!! AudioBuffer.getChannelData b c)
                          (startSample + Z.of_nat i))) a n) as [Hlen' Hval]
  end.
  split; [by rewrite Hlen', length_replicate|].
  intros i Hi. rewrite (Hval i (Fin 0%Qc)); [|by apply lookup_replicate_2].
  by rewrite decide_True.
Qed.

(** ** In-place transforms *)

(** The loop of an in-place transform: every channel array is replaced by
    [F] of itself, nothing else in the store moves, the buffer stays valid. *)
Lemma inplace_loop h b (F : list num → list num) :
  wf_buffer h b →
  (∀ a, List.length (F a) = List.length a) →
  let h' := for_loop (AudioBuffer.numberOfChannels b) (λ channel h,
              <[AudioBuffer.getChannelData b channel
                  := F (h !!! AudioBuffer.getChannelData b channel)]> h) h in
  wf_buffer h' b
  ∧ (∀ l, l ∉ AudioBuffer.channels b → h' !! l = h !! l)
  ∧ (∀ l, l ∈ AudioBuffer.channels b → h' !! l = Some (F (h !!! l)))
  ∧ (∀ c, (c < AudioBuffer.numberOfChannels b)%nat →
       channelSamples h' b c = F (channelSamples h b c)).
Proof.
  intros Hwf HF h'.
  destruct (store_loop (AudioBuffer.channels b)
              (λ c h, F (h !!! AudioBuffer.getChannelData b c)) h
              (wf_nodup _ _ Hwf)) as [Hdst Hother].
  { intros c l h2 Hc Hagree. f_equal. apply lookup_total_agree, Hagree.
    unfold AudioBuffer.getChannelData.
    rewrite (list_lookup_total_correct _ _ _ Hc).
    apply not_elem_of_take_NoDup; [apply Hwf|done]. }
  cbv zeta in Hdst, Hother.
  change (for_loop _ _ h) with h' in Hdst, Hother.
  assert (Hin : ∀ l, l ∈ AudioBuffer.channels b → h' !! l = Some (F (h !!! l))).
  { intros l [c Hc]%list_elem_of_lookup_1. rewrite (Hdst c l Hc).
    unfold AudioBuffer.getChannelData.
    by rewrite (list_lookup_total_correct _ _ _ Hc). }
  split; [|split; [done|split; [done|]]].
  - destruct Hwf as [Hr Hc Hnd Harr]. split; [done..|].
    intros l Hl. destruct (Harr l Hl) as (a & Ha & Hlen).
    exists (F a). rewrite (Hin l Hl), (lookup_total_correct _ _ _ Ha).
    by rewrite HF.
  - intros c Hc. unfold channelSamples.
    pose proof (getChannelData_lookup b c Hc) as Hl.
    apply list_elem_of_lookup_2 in Hl.
    by rewrite (lookup_total_correct _ _ _ (Hin _ Hl)).
Qed.

(** [mul] by 1 changes no number, and the gain loop is a [map]. *)
Lemma mul_one x : mul x (Fin 1%Qc) = x.
Proof. destruct x as [a| | |]; [|done..]. simpl. by rewrite Qcmult_1_r. Qed.

Lemma length_gainLoop n gain a : List.length (gainLoop n gain a) = List.length a.
Proof.
  unfold gainLoop.
  by destruct (array_loop_nat (λ _ v, mul (ToNumber v) gain) a n) as [-> _].
Qed.

Lemma gainLoop_map gain a :
  gainLoop (List.length a) gain a = (λ x, mul x gain) <$> a.
Proof.
  destruct (array_loop_nat (λ _ v, mul (ToNumber v) gain) a (List.length a))
    as [Hlen Hval].
  apply list_eq. intros j. rewrite list_lookup_fmap.
  destruct (a !! j) as [x|] eqn:Hj.
  - unfold gainLoop. rewrite (Hval j x Hj), decide_True; [done|].
    by eapply lookup_lt_Some.
  - simpl. apply lookup_ge_None. unfold gainLoop. rewrite Hlen.
    by apply lookup_ge_None.
Qed.

Lemma applyGain_spec h b gain :
  wf_buffer h b →
  let h' := (applyGain h b gain).1 in
  (applyGain h b gain).2 = b
  ∧ wf_buffer h' b
  ∧ (∀ l, l ∉ AudioBuffer.channels b → h' !! l = h !! l)
  ∧ (∀ l a, l ∈ AudioBuffer.channels b → h !! l = Some a →
       h' !! l = Some ((λ x, mul x gain) <$> a))
  ∧ (∀ c, (c < AudioBuffer.numberOfChannels b)%nat →
       channelSamples h' b c = (λ x, mul x gain) <$> channelSamples h b c).
Proof.
  intros Hwf h'. split; [done|].
  destruct (inplace_loop h b (gainLoop (AudioBuffer.length b) gain) Hwf)
    as (Hwf' & Hother & Hin & Hch); [apply length_gainLoop|].
  cbv zeta in Hwf', Hother, Hin, Hch.
  change (for_loop _ _ h) with h' in Hwf', Hother, Hin, Hch.
  split; [done|]. split; [done|]. split.
  - intros l a Hl Ha. rewrite (Hin l Hl), (lookup_total_correct _ _ _ Ha).
    destruct (wf_arrays _ _ Hwf l Hl) as (a' & Ha' & Hlen).
    assert (a' = a) as -> by congruence.
    by rewrite <- Hlen, gainLoop_map.
  - intros c Hc. rewrite (Hch c Hc).
    destruct (wf_channel_length h b c Hwf Hc) as [_ Hlen].
    by rewrite <- Hlen, gainLoop_map.
Qed.

(** ** The peak scan *)

Lemma for_loop_ext {S : Type} n (body1 body2 : nat → S → S) s :
  (∀ i s', (i < n)%nat → body1 i s' = body2 i s') →
  for_loop n body1 s = for_loop n body2 s.
Proof.
  intros Hext. induction n as [|n IH]; [done|].
  rewrite !for_loop_S, IH; [apply Hext; lia|].
  intros i s' Hi. apply Hext. lia.
Qed.

Lemma peak_loop a m :
  for_loop (List.length a) (λ i m,
    max m (abs (ToNumber (read a (Z.of_nat i))))) m = peak m a.
Proof.
  cut (∀ n, (n ≤ List.length a)%nat →
         for_loop n (λ i m, max m (abs (ToNumber (read a (Z.of_nat i))))) m
         = peak m (take n a)).
  { intros H. by rewrite H, firstn_all. }
  induction n as [|n IH]; intros Hn; [done|].
  destruct (lookup_lt_is_Some_2 a n) as [x Hx]; [lia|].
  rewrite for_loop_S, IH by lia.
  rewrite (take_S_r _ _ _ Hx). unfold peak. rewrite foldl_app. simpl.
  by rewrite read_nat, Hx.
Qed.

Lemma maxAmplitude_peak h b :
  wf_buffer h b →
  maxAmplitude h b
  = for_loop (AudioBuffer.numberOfChannels b)
      (λ c m, peak m (channelSamples h b c)) (Fin 0%Qc).
Proof.
  intros Hwf. unfold maxAmplitude. apply for_loop_ext. intros c m Hc.
  destruct (wf_channel_length h b c Hwf Hc) as [_ Hlen].
  rewrite <- Hlen. apply peak_loop.
Qed.

Lemma sign_pos g : (0 < g)%Qc → sign (Fin g) = 1.
Proof. intros Hg. simpl. by rewrite bool_decide_eq_true_2. Qed.

Lemma abs_mul_pos x g : (0 < g)%Qc → abs (mul x (Fin g)) = mul (abs x) (Fin g).
Proof.
  intros Hg. pose proof (sign_pos g Hg) as Hs.
  destruct x as [a| | |]; [|unfold mul; simpl sign in *; by rewrite Hs..|done].
  simpl. f_equal. assert (a * g < 0 ↔ a < 0)%Qc as Hiff.
  { rewrite <- (Qcmult_0_l g) at 1. symmetry. by apply Qcmult_lt_mono_pos_r. }
  destruct (decide (a < 0)%Qc) as [Ha|Ha].
  - rewrite !bool_decide_eq_true_2 by tauto. ring.
  - by rewrite !bool_decide_eq_false_2 by tauto.
Qed.

Lemma lt_mul_pos x y g :
  (0 < g)%Qc → lt (mul x (Fin g)) (mul y (Fin g)) = lt x y.
Proof.
  intros Hg. pose proof (sign_pos g Hg) as Hs.
  destruct x as [a| | |], y as [b| | |];
    try (unfold mul; simpl sign in *; rewrite ?Hs; done).
  simpl. apply bool_decide_ext. symmetry. by apply Qcmult_lt_mono_pos_r.
Qed.

Lemma max_mul_pos x y g :
  (0 < g)%Qc → max (mul x (Fin g)) (mul y (Fin g)) = mul (max x y) (Fin g).
Proof.
  intros Hg. pose proof (lt_mul_pos x y g Hg) as Hlt.
  pose proof (sign_pos g Hg) as Hs.
  destruct x as [a| | |], y as [b| | |];
    try (unfold mul; simpl sign in *; rewrite ?Hs; done).
  unfold max. change (mul (Fin a) (Fin g)) with (Fin (a * g)) in *.
  change (mul (Fin b) (Fin g)) with (Fin (b * g)) in *.
  rewrite Hlt. by destruct (lt (Fin a) (Fin b)).
Qed.

Lemma peak_scale m xs g :
  (0 < g)%Qc →
  peak (mul m (Fin g)) ((λ x, mul x (Fin g)) <$> xs) = mul (peak m xs) (Fin g).
Proof.
  intros Hg. revert m. induction xs as [|x xs IH]; intros m; [done|].
  unfold peak in *. simpl. rewrite abs_mul_pos, max_mul_pos by done. apply IH.
Qed.

Lemma maxAmplitude_applyGain h b g :
  wf_buffer h b → (0 < g)%Qc →
  maxAmplitude (applyGain h b (Fin g)).1 b = mul (maxAmplitude h b) (Fin g).
Proof.
  intros Hwf Hg.
  destruct (applyGain_spec h b (Fin g) Hwf) as (_ & Hwf' & _ & _ & Hch).
  cbv zeta in Hwf', Hch. rewrite !maxAmplitude_peak by done.
  cut (∀ n, (n ≤ AudioBuffer.numberOfChannels b)%nat →
    for_loop n (λ c m, peak m (channelSamples (applyGain h b (Fin g)).1 b c))
      (Fin 0%Qc)
    = mul (for_loop n (λ c m, peak m (channelSamples h b c)) (Fin 0%Qc))
        (Fin g)).
  { intros H. by apply H. }
  induction n as [|n IH]; intros Hn.
  - simpl. by rewrite Qcmult_0_l.
  - rewrite !for_loop_S, IH, Hch by lia. by apply peak_scale.
Qed.

Lemma applyGain_one h b : wf_buffer h b → applyGain h b (Fin 1%Qc) = (h, b).
Proof.
  intros Hwf.
  destruct (applyGain_spec h b (Fin 1%Qc) Hwf) as (_ & _ & Hother & Hin & _).
  cbv zeta in Hother, Hin.
  rewrite (surjective_pairing (applyGain h b (Fin 1%Qc))). f_equal.
  apply map_eq. intros l.
  destruct (decide (l ∈ AudioBuffer.channels b)) as [Hl|Hl]; [|by apply Hother].
  destruct (wf_arrays _ _ Hwf l Hl) as (a & Ha & _).
  rewrite (Hin l a Hl Ha), Ha. f_equal.
  rewrite <- (list_fmap_id a) at 2. apply list_fmap_ext. intros _ x _.
  apply mul_one.
Qed.

Lemma Qclt_irrefl (x : Qc) : ¬ (x < x)%Qc.
Proof. intros H. by apply Qclt_not_eq in H. Qed.

Lemma normalize_scaled h b p :
  maxAmplitude h b = Fin p → (0 < p)%Qc → (p < 1)%Qc →
  normalize h b = applyGain h b (Fin (headroom / p)%Qc).
Proof.
  intros Hm H0 H1. unfold normalize, gt. rewrite Hm. simpl.
  rewrite (bool_decide_eq_true_2 _ H0), (bool_decide_eq_true_2 _ H1). simpl.
  case_bool_decide as Hp; [|done]. subst p. by apply Qclt_irrefl in H0.
Qed.

Lemma normalize_unchanged h b :
  maxAmplitude h b = Fin 0%Qc ∨ lt (maxAmplitude h b) (Fin 1%Qc) = false →
  normalize h b = (h, b).
Proof.
  intros [Hm|Hm]; unfold normalize, gt; rewrite Hm; [|by rewrite andb_false_r].
  done.
Qed.

(** C6 - [normalize] is idempotent (exact arithmetic): on every valid buffer a
    second application returns the store and the buffer the first one
    returned.  When the peak is strictly between 0 and 1 the first
    application leaves the peak at exactly 0.95, so the second one multiplies
    by 0.95 / 0.95 = 1; when the peak is 0, or is not below 1, every
    application returns the buffer unchanged. *)
Theorem normalize_idempotent h b :
  wf_buffer h b →
  normalize (normalize h b).1 (normalize h b).2 = normalize h b
  ∧ (∀ p, maxAmplitude h b = Fin p → (0 < p)%Qc → (p < 1)%Qc →
       maxAmplitude (normalize h b).1 (normalize h b).2 = Fin headroom
       ∧ div (Fin headroom) (maxAmplitude (normalize h b).1 (normalize h b).2)
         = Fin 1%Qc)
  ∧ (maxAmplitude h b = Fin 0%Qc ∨ lt (maxAmplitude h b) (Fin 1%Qc) = false →
       normalize h b = (h, b)).
Proof.
  intros Hwf.
  assert (Hscaled : ∀ p, maxAmplitude h b = Fin p → (0 < p)%Qc → (p < 1)%Qc →
    maxAmplitude (normalize h b).1 (normalize h b).2 = Fin headroom).
  { intros p Hm H0 H1. rewrite (normalize_scaled h b p Hm H0 H1).
    assert (Hp : p ≠ 0%Qc) by (intros ->; by apply Qclt_not_eq in H0).
    assert (Hg : (0 < headroom / p)%Qc).
    { apply Qcmult_pos_pos; [done|]. by apply Qcinv_pos. }
    change ((applyGain h b (Fin (headroom / p)%Qc)).2) with b.
    rewrite maxAmplitude_applyGain, Hm by done. simpl. f_equal.
    by apply Qcmult_div_r. }
  split; [|split; [|apply normalize_unchanged]].
  - assert (Hfix : normalize h b = (h, b) →
      normalize (normalize h b).1 (normalize h b).2 = normalize h b).
    { intros Hn. by rewrite !Hn. }
    destruct (maxAmplitude h b) as [p| | |] eqn:Hm;
      try (apply Hfix; unfold normalize, gt; by rewrite Hm).
    destruct (decide (0 < p)%Qc) as [H0|H0].
    2:{ apply Hfix. unfold normalize, gt. rewrite Hm. simpl.
        by rewrite (bool_decide_eq_false_2 _ H0). }
    destruct (decide (p < 1)%Qc) as [H1|H1].
    2:{ apply Hfix, normalize_unchanged. right. rewrite Hm. simpl.
        by rewrite (bool_decide_eq_false_2 _ H1). }
    pose proof (Hscaled p eq_refl H0 H1) as Hpeak.
    pose proof (normalize_scaled h b p Hm H0 H1) as Hn.
    destruct (applyGain_spec h b (Fin (headroom / p)%Qc) Hwf)
      as (Hb & Hwf' & _).
    rewrite <- Hn in Hb, Hwf'. cbv zeta in Hwf'. rewrite Hb in Hpeak |- *.
    rewrite (normalize_scaled _ b headroom Hpeak); [|done..].
    replace (headroom / headroom)%Qc with 1%Qc
      by (symmetry; by apply Qcmult_inv_r).
    rewrite applyGain_one by done.
    destruct (normalize h b) as [h1 b1]. simpl in *. by subst.
  - intros p Hm H0 H1. rewrite (Hscaled p Hm H0 H1). split; [done|].
    simpl. f_equal. by apply Qcmult_inv_r.
Qed.

(** ** Fades *)

Lemma div_ofZ i n : n ≠ 0 → div (ofZ i) (ofZ n) = Fin (Qc_of_Z i / Qc_of_Z n)%Qc.
Proof.
  intros Hn. unfold div, ofZ. case_bool_decide as H0; [|done].
  rewrite <- Z2Qc_inj_0 in H0. by apply Z2Qc_inj in H0.
Qed.

Lemma fadeInLoop_spec fadeInSamples a :
  List.length (fadeInLoop fadeInSamples a) = List.length a
  ∧ ∀ j x, a !! j = Some x →
      fadeInLoop fadeInSamples a !! j
      = Some (fadeInScale fadeInSamples (Z.of_nat j) x).
Proof.
  destruct (array_loop_nat
    (λ i v, mul (ToNumber v) (div (ofZ (Z.of_nat i)) (ofZ fadeInSamples)))
    a (Z.to_nat fadeInSamples)) as [Hlen Hval].
  split; [done|]. intros j x Hj. unfold fadeInLoop, fadeInScale.
  rewrite (Hval j x Hj). f_equal.
  destruct (Z.ltb_spec (Z.of_nat j) fadeInSamples).
  - rewrite decide_True by lia. by rewrite div_ofZ by lia.
  - by rewrite decide_False by lia.
Qed.

Lemma fadeOutLoop_spec fadeOutSamples a :
  List.length (fadeOutLoop (List.length a) fadeOutSamples a) = List.length a
  ∧ ∀ j x, a !! j = Some x →
      fadeOutLoop (List.length a) fadeOutSamples a !! j
      = Some (fadeOutScale (Z.of_nat (List.length a)) fadeOutSamples
                (Z.of_nat j) x).
Proof.
  set (start := Z.of_nat (List.length a) - fadeOutSamples).
  destruct (array_loop (λ i, start + Z.of_nat i)
    (λ i v, mul (ToNumber v)
              (sub (Fin 1%Qc) (div (ofZ (Z.of_nat i)) (ofZ fadeOutSamples))))
    a (Z.to_nat fadeOutSamples)) as (Hlen & Hout & Hin).
  { intros i j _ _. lia. }
  split; [done|]. intros j x Hj.
  pose proof (lookup_lt_Some _ _ _ Hj) as Hlt.
  unfold fadeOutLoop, fadeOutScale. fold start.
  rewrite <- !read_nat in *.
  destruct (Z.leb_spec start (Z.of_nat j)) as [Hramp|Hramp].
  - replace (Z.of_nat j) with (start + Z.of_nat (Z.to_nat (Z.of_nat j - start)))
      at 1 by lia.
    rewrite Hin.
    + replace (start + Z.of_nat (Z.to_nat (Z.of_nat j - start)))
        with (Z.of_nat j) by lia.
      rewrite Hj, div_ofZ by lia. simpl.
      by rewrite Z2Nat.id by lia.
    + subst start. lia.
    + replace (start + Z.of_nat (Z.to_nat (Z.of_nat j - start)))
        with (Z.of_nat j) by lia. by rewrite Hj.
  - rewrite Hout; [done|]. intros i Hi. lia.
Qed.

Lemma applyFade_inplace h b fadeInDuration fadeOutDuration :
  wf_buffer h b →
  let fadeInSamples :=
    floor (fadeInDuration * Qc_of_Z (AudioBuffer.sampleRate b)) in
  let fadeOutSamples :=
    floor (fadeOutDuration * Qc_of_Z (AudioBuffer.sampleRate b)) in
  let F := λ a, fadeOutLoop (AudioBuffer.length b) fadeOutSamples
                  (fadeInLoop fadeInSamples a) in
  let h' := (applyFade h b fadeInDuration fadeOutDuration).1 in
  (applyFade h b fadeInDuration fadeOutDuration).2 = b
  ∧ wf_buffer h' b
  ∧ (∀ l, l ∉ AudioBuffer.channels b → h' !! l = h !! l)
  ∧ (∀ l, l ∈ AudioBuffer.channels b → h' !! l = Some (F (h !!! l)))
  ∧ (∀ c, (c < AudioBuffer.numberOfChannels b)%nat →
       channelSamples h' b c = F (channelSamples h b c)).
Proof.
  intros Hwf fadeInSamples fadeOutSamples F h'. split; [done|].
  apply (inplace_loop h b F Hwf). intros a. unfold F, fadeOutLoop.
  match goal with |- context [for_loop ?n (λ i a, write a (@?idx i) (@?g i a)) ?a0] =>
    apply (for_loop_inv (λ _ a', List.length a' = List.length a) n)
  end.
  - by destruct (fadeInLoop_spec fadeInSamples a) as [-> _].
  - intros i a' _ Ha'. by rewrite length_write.
Qed.

Lemma floor_0_l (x : Qc) : floor (0 * x) = 0.
Proof. by rewrite Qcmult_0_l. Qed.

(** C5 - [applyFade] works in place and returns the buffer it was given;
    in every channel, sample [j] is first scaled by [j / fadeInSamples] when
    [j < fadeInSamples] and then by [1 - i / fadeOutSamples] when
    [j = frameCount - fadeOutSamples + i] with [0 <= i < fadeOutSamples]
    (so where the ramps overlap, both factors are applied, one after the
    other); a ramp of zero samples scales nothing, and with both durations 0
    the store is left exactly as it was. *)
Theorem applyFade_ramps h b fadeInSeconds fadeOutSeconds :
  wf_buffer h b →
  let fadeInSamples :=
    floor (fadeInSeconds * Qc_of_Z (AudioBuffer.sampleRate b)) in
  let fadeOutSamples :=
    floor (fadeOutSeconds * Qc_of_Z (AudioBuffer.sampleRate b)) in
  let frameCount := Z.of_nat (AudioBuffer.length b) in
  let r := applyFade h b fadeInSeconds fadeOutSeconds in
  r.2 = b
  ∧ wf_buffer r.1 b
  ∧ (∀ l, l ∉ AudioBuffer.channels b → r.1 !! l = h !! l)
  ∧ (∀ c j x, (c < AudioBuffer.numberOfChannels b)%nat →
       channelSamples h b c !! j = Some x →
       channelSamples r.1 b c !! j
       = Some (fadeOutScale frameCount fadeOutSamples (Z.of_nat j)
                 (fadeInScale fadeInSamples (Z.of_nat j) x)))
  ∧ (fadeInSamples = 0 → ∀ j x, 0 ≤ j → fadeInScale fadeInSamples j x = x)
  ∧ (fadeOutSamples = 0 →
       ∀ j x, j < frameCount → fadeOutScale frameCount fadeOutSamples j x = x)
  ∧ (fadeInSeconds = 0%Qc → fadeOutSeconds = 0%Qc → r = (h, b)).
Proof.
  intros Hwf fadeInSamples fadeOutSamples frameCount r.
  destruct (applyFade_inplace h b fadeInSeconds fadeOutSeconds Hwf)
    as (Hb & Hwf' & Hother & Hin & Hch).
  cbv zeta in Hwf', Hother, Hin, Hch.
  fold fadeInSamples fadeOutSamples r in Hb, Hwf', Hother, Hin, Hch.
  split; [done|]. split; [done|]. split; [done|]. split; [|split; [|split]].
  - intros c j x Hc Hj. rewrite (Hch c Hc).
    destruct (wf_channel_length h b c Hwf Hc) as [_ Hlen].
    destruct (fadeInLoop_spec fadeInSamples (channelSamples h b c))
      as [Hlen1 Hval1].
    destruct (fadeOutLoop_spec fadeOutSamples
                (fadeInLoop fadeInSamples (channelSamples h b c)))
      as [_ Hval2].
    rewrite Hlen1, Hlen in Hval2. apply Hval2, Hval1, Hj.
  - intros H0 j x Hj. unfold fadeInScale. rewrite H0.
    by destruct (Z.ltb_spec j 0); [lia|].
  - intros H0 j x Hj. unfold fadeOutScale. rewrite H0.
    by destruct (Z.leb_spec (frameCount - 0) j); [lia|].
  - intros Hi Ho.
    assert (fadeInSamples = 0) as Hi0
      by (subst fadeInSamples; rewrite Hi; apply floor_0_l).
    assert (fadeOutSamples = 0) as Ho0
      by (subst fadeOutSamples; rewrite Ho; apply floor_0_l).
    rewrite (surjective_pairing r), Hb. f_equal.
    apply map_eq. intros l.
    destruct (decide (l ∈ AudioBuffer.channels b)) as [Hl|Hl]; [|by apply Hother].
    destruct (wf_arrays _ _ Hwf l Hl) as (a & Ha & _).
    rewrite (Hin l Hl), Ha, (lookup_total_correct _ _ _ Ha).
    by rewrite Hi0, Ho0.
Qed.

(** ** Quantisation *)

(** Goals on the order of [Qc] are sent to [Q], where [lra] decides them. *)
Ltac qc_to_q :=
  unfold Qclt, Qcle in *; simpl in *; rewrite ?Qred_correct in *;
  unfold inject_Z in *.

Lemma clamp_range x : (-1 ≤ clamp x)%Qc ∧ (clamp x ≤ 1)%Qc.
Proof.
  unfold clamp. repeat case_bool_decide; qc_to_q; split; lra.
Qed.

Lemma clamp_minmax x : max (Fin (-1)%Qc) (min (Fin 1%Qc) (Fin x)) = Fin (clamp x).
Proof.
  unfold clamp, min, lt.
  case_bool_decide as H1; unfold max, lt;
    repeat case_bool_decide; try done;
    try (exfalso; qc_to_q; lra);
    f_equal; apply Qcle_antisym; qc_to_q; lra.
Qed.

Lemma scaled_range x :
  (Qc_of_Z (-32768) ≤ scaled x)%Qc ∧ (scaled x ≤ Qc_of_Z 32767)%Qc.
Proof.
  destruct (clamp_range x) as [Hlo Hhi]. unfold scaled.
  case_bool_decide; qc_to_q; split; lra.
Qed.

(** [trunc] rounds toward zero: it stays on the side of zero of its argument
    and is less than 1 away from it. *)
Lemma trunc_toward_zero (v : Qc) :
  ((0 ≤ v)%Qc → (Qc_of_Z (trunc v) ≤ v)%Qc ∧ (v < Qc_of_Z (trunc v + 1))%Qc)
  ∧ ((v < 0)%Qc → (Qc_of_Z (trunc v - 1) < v)%Qc ∧ (v ≤ Qc_of_Z (trunc v))%Qc).
Proof.
  unfold trunc. split; intros Hv; case_bool_decide as Hneg.
  - exfalso. qc_to_q. lra.
  - unfold Qclt, Qcle. simpl. split; [apply Qfloor_le|apply Qlt_floor].
  - unfold Qclt, Qcle. simpl. split; [apply Qceiling_lt|apply Qle_ceiling].
  - done.
Qed.

Lemma trunc_range (v : Qc) lo hi :
  lo ≤ 0 ≤ hi → (Qc_of_Z lo ≤ v)%Qc → (v ≤ Qc_of_Z hi)%Qc →
  lo ≤ trunc v ≤ hi.
Proof.
  intros Hz Hlo Hhi. unfold trunc, Qcle in *. simpl in *.
  case_bool_decide as Hneg.
  - pose proof (Qceiling_resp_le _ _ Hlo) as H1.
    assert (H2 : (Qceiling v ≤ Qceiling (inject_Z 0))%Z).
    { apply Qceiling_resp_le. unfold Qclt in Hneg. simpl in Hneg.
      rewrite Qred_correct in Hneg. unfold inject_Z. lra. }
    rewrite Qceiling_Z in H1, H2. lia.
  - pose proof (Qfloor_resp_le _ _ Hhi) as H1.
    assert (H2 : (Qfloor (inject_Z 0) ≤ Qfloor v)%Z).
    { apply Qfloor_resp_le. unfold Qclt in Hneg. simpl in Hneg.
      rewrite Qred_correct in Hneg. unfold inject_Z. lra. }
    rewrite Qfloor_Z in H1, H2. lia.
Qed.

Lemma ToInt16_in_range (v : Qc) :
  -32768 ≤ trunc v ≤ 32767 → ToInt16 (Fin v) = trunc v.
Proof.
  intros Hr. unfold ToInt16. cbv zeta.
  destruct (Z.leb_spec 32768 (trunc v mod 65536));
    Z.div_mod_to_equations; lia.
Qed.

(** C3 - on every finite sample the stored 16-bit value is the clamp of the
    sample to [-1, 1], multiplied by 32768 when negative and by 32767
    otherwise, truncated toward zero (never rounded to nearest: the result
    stays on the side of zero of the scaled value, less than 1 away from
    it), and it lies in [-32768, 32767]. *)
Theorem quantize_truncates (x : Qc) :
  quantize (Fin x) = quantize_spec x
  ∧ -32768 ≤ quantize (Fin x) ≤ 32767
  ∧ ((0 ≤ scaled x)%Qc →
       (Qc_of_Z (quantize (Fin x)) ≤ scaled x)%Qc
       ∧ (scaled x < Qc_of_Z (quantize (Fin x) + 1))%Qc)
  ∧ ((scaled x < 0)%Qc →
       (Qc_of_Z (quantize (Fin x) - 1) < scaled x)%Qc
       ∧ (scaled x ≤ Qc_of_Z (quantize (Fin x)))%Qc).
Proof.
  destruct (scaled_range x) as [Hlo Hhi].
  pose proof (trunc_range (scaled x) (-32768) 32767 ltac:(lia) Hlo Hhi) as Hr.
  assert (Hq : quantize (Fin x) = quantize_spec x).
  { unfold quantize, quantize_spec. rewrite clamp_minmax.
    rewrite <- ToInt16_in_range by done. f_equal.
    unfold scaled, lt, mul, ofZ. by case_bool_decide. }
  rewrite Hq. unfold quantize_spec.
  split; [done|]. split; [done|]. apply trunc_toward_zero.
Qed.

(** ** The WAV container *)

Lemma le16_value v : 0 ≤ v < 65536 → le_value (le16 v) = v.
Proof. intros Hv. unfold le_value, le16. simpl. Z.div_mod_to_equations. lia. Qed.

Lemma le32_value v : 0 ≤ v < 4294967296 → le_value (le32 v) = v.
Proof. intros Hv. unfold le_value, le32. simpl. Z.div_mod_to_equations. lia. Qed.

Lemma byteOf_div u i : 0 ≤ i → byteOf u i = (u / 2 ^ (8 * i)) mod 256.
Proof.
  intros Hi. unfold byteOf. rewrite Z.shiftr_div_pow2 by lia.
  change 255 with (Z.ones 8). by rewrite Z.land_ones by lia.
Qed.

Lemma byteOf_ToUint32 v :
  byteOf (ToUint32 v) 0 = v mod 256
  ∧ byteOf (ToUint32 v) 1 = (v / 256) mod 256
  ∧ byteOf (ToUint32 v) 2 = (v / 65536) mod 256
  ∧ byteOf (ToUint32 v) 3 = (v / 16777216) mod 256.
Proof.
  rewrite !byteOf_div by lia. unfold ToUint32.
  change (2 ^ (8 * 0)) with 1. change (2 ^ (8 * 1)) with 256.
  change (2 ^ (8 * 2)) with 65536. change (2 ^ (8 * 3)) with 16777216.
  repeat split; Z.div_mod_to_equations; lia.
Qed.

Lemma byteOf_ToUint16 v :
  byteOf (ToUint16 v) 0 = v mod 256
  ∧ byteOf (ToUint16 v) 1 = (v / 256) mod 256.
Proof.
  rewrite !byteOf_div by lia. unfold ToUint16.
  change (2 ^ (8 * 0)) with 1. change (2 ^ (8 * 1)) with 256.
  repeat split; Z.div_mod_to_equations; lia.
Qed.

Lemma int16_bytes_le16 v : int16_bytes v = le16 v.
Proof.
  unfold int16_bytes, le16. cbv zeta. fold (ToUint16 v).
  by destruct (byteOf_ToUint16 v) as [-> ->].
Qed.

Lemma createWavHeader_spec numChannels sampleRate length :
  createWavHeader numChannels sampleRate length
  = wavHeader_spec numChannels sampleRate length.
Proof.
  unfold createWavHeader, wavHeader_spec. cbv zeta.
  replace (sampleRate * numChannels * 16 / 8)
    with (sampleRate * numChannels * 2) by (Z.div_mod_to_equations; lia).
  replace (numChannels * 16 / 8)
    with (numChannels * 2) by (Z.div_mod_to_equations; lia).
  replace (length * numChannels * 16 / 8)
    with (length * numChannels * 2) by (Z.div_mod_to_equations; lia).
  generalize (sampleRate * numChannels * 2) (numChannels * 2)
    (length * numChannels * 2). intros byteRate blockAlign dataSize.
  generalize (36 + dataSize). intros riffSize.
  cbv -[byteOf ToUint32 ToUint16 Z.modulo Z.div].
  destruct (byteOf_ToUint32 riffSize) as (-> & -> & -> & ->).
  destruct (byteOf_ToUint32 16) as (-> & -> & -> & ->).
  destruct (byteOf_ToUint32 sampleRate) as (-> & -> & -> & ->).
  destruct (byteOf_ToUint32 byteRate) as (-> & -> & -> & ->).
  destruct (byteOf_ToUint32 dataSize) as (-> & -> & -> & ->).
  destruct (byteOf_ToUint16 1) as (-> & ->).
  destruct (byteOf_ToUint16 16) as (-> & ->).
  destruct (byteOf_ToUint16 numChannels) as (-> & ->).
  destruct (byteOf_ToUint16 blockAlign) as (-> & ->).
  reflexivity.
Qed.

Lemma length_wavHeader_spec channelCount sampleRate frameCount :
  List.length (wavHeader_spec channelCount sampleRate frameCount) = 44%nat.
Proof. reflexivity. Qed.

Lemma interleave_spec h b :
  wf_buffer h b →
  List.length (interleave h b)
  = (AudioBuffer.length b * AudioBuffer.numberOfChannels b)%nat
  ∧ ∀ c i x, (c < AudioBuffer.numberOfChannels b)%nat →
      channelSamples h b c !! i = Some x →
      interleave h b !! (i * AudioBuffer.numberOfChannels b + c)%nat = Some x.
Proof.
  intros Hwf. unfold interleave. cbv zeta.
  set (nch := AudioBuffer.numberOfChannels b).
  set (len := AudioBuffer.length b).
  cut ((nch ≤ nch)%nat →
    let r := for_loop nch (λ channel result,
      for_loop len (λ i result,
        write result (Z.of_nat (i * nch + channel))
          (ToNumber (read (h !!! AudioBuffer.getChannelData b channel)
                       (Z.of_nat i)))) result)
      (replicate (len * nch) (Fin 0%Qc)) in
    List.length r = (len * nch)%nat
    ∧ ∀ c i x, (c < nch)%nat → channelSamples h b c !! i = Some x →
        r !! (i * nch + c)%nat = Some x).
  { intros H. by apply H. }
  apply (for_loop_inv (λ m r,
    (m ≤ nch)%nat →
    List.length r = (len * nch)%nat
    ∧ ∀ c i x, (c < m)%nat → channelSamples h b c !! i = Some x →
        r !! (i * nch + c)%nat = Some x)).
  - intros _. split; [by rewrite length_replicate|]. intros c i x Hc. lia.
  - intros m r Hm IH Hle. destruct IH as [Hlen Hval]; [lia|].
    destruct (array_loop (λ i, Z.of_nat (i * nch + m))
      (λ i _, ToNumber (read (h !!! AudioBuffer.getChannelData b m)
                          (Z.of_nat i))) r len) as (Hlen' & Hout & Hin).
    { intros i j _ _ Heq. nia. }
    split; [by rewrite Hlen'|].
    intros c i x Hc Hx.
    assert (Hi : (i < len)%nat).
    { destruct (wf_channel_length h b c Hwf) as [_ Hl]; [unfold nch in *; lia|].
      unfold len. rewrite <- Hl. by eapply lookup_lt_Some. }
    rewrite <- read_nat. destruct (decide (c = m)) as [->|Hne].
    + rewrite Hin; [|done|].
      * fold (channelSamples h b m). by rewrite read_nat, Hx.
      * apply read_is_Some. rewrite Hlen. nia.
    + rewrite Hout; [rewrite read_nat; apply (Hval c i x); [lia|done]|].
      intros i' Hi' Heq. apply Hne.
      assert ((i' * nch + m) mod nch = (i * nch + c) mod nch)%nat as Hmod
        by (f_equal; lia).
      rewrite !(Nat.add_comm (_ * nch)%nat) in Hmod.
      rewrite !Nat.Div0.mod_add, !Nat.mod_small in Hmod by lia. lia.
Qed.

Lemma int16_loop (floatArray : list num) :
  for_loop (List.length floatArray) (λ i int16Array,
    write int16Array (Z.of_nat i)
      (quantize (ToNumber (read floatArray (Z.of_nat i)))))
    (replicate (List.length floatArray) 0)
  = quantize <$> floatArray.
Proof.
  destruct (array_loop_nat
    (λ i (_ : option Z), quantize (ToNumber (read floatArray (Z.of_nat i))))
    (replicate (List.length floatArray) 0) (List.length floatArray))
    as [Hlen Hval].
  apply list_eq. intros j. rewrite list_lookup_fmap.
  destruct (floatArray !! j) as [x|] eqn:Hj; simpl.
  - pose proof (lookup_lt_Some _ _ _ Hj) as Hlt.
    rewrite (Hval j 0) by (by apply lookup_replicate_2).
    by rewrite decide_True, read_nat, Hj by done.
  - apply lookup_ge_None. rewrite Hlen, length_replicate.
    by apply lookup_ge_None.
Qed.

Lemma floatTo16BitPCM_spec (floatArray : list num) :
  floatTo16BitPCM floatArray
  = mjoin ((λ x, le16 (quantize x)) <$> floatArray).
Proof.
  unfold floatTo16BitPCM, Uint8Array_of_Int16Array. cbv zeta.
  rewrite int16_loop, <- list_fmap_compose. f_equal.
  apply list_fmap_ext. intros _ x _. apply int16_bytes_le16.
Qed.

Lemma pcm_lookup (xs : list num) k x :
  xs !! k = Some x →
  mjoin ((λ x, le16 (quantize x)) <$> xs) !! (2 * k)%nat
  = Some (quantize x mod 256)
  ∧ mjoin ((λ x, le16 (quantize x)) <$> xs) !! (2 * k + 1)%nat
    = Some ((quantize x / 256) mod 256).
Proof.
  revert k. induction xs as [|y xs IH]; intros k Hk; [done|].
  destruct k as [|k].
  - injection Hk as ->. done.
  - replace (2 * S k)%nat with (S (S (2 * k))) by lia. apply (IH k Hk).
Qed.

Lemma length_pcm (xs : list num) :
  List.length (mjoin ((λ x, le16 (quantize x)) <$> xs))
  = (2 * List.length xs)%nat.
Proof.
  induction xs as [|y xs IH]; [done|].
  change (mjoin ((λ x, le16 (quantize x)) <$> y :: xs))
    with (le16 (quantize y) ++ mjoin ((λ x, le16 (quantize x)) <$> xs)).
  rewrite length_app, IH. simpl. lia.
Qed.

Lemma set_bytes_header_payload (hdr pcm : list Z) :
  set_bytes
    (set_bytes (replicate (List.length hdr + List.length pcm) 0) hdr 0)
    pcm (List.length hdr)
  = hdr ++ pcm.
Proof.
  unfold set_bytes. simpl.
  rewrite take_app_length, drop_replicate.
  rewrite drop_ge; [by rewrite app_nil_r|].
  rewrite length_app, length_replicate. lia.
Qed.

Lemma bufferToWav_bytes h b :
  blob_bytes (bufferToWav h b)
  = wavHeader_spec (Z.of_nat (AudioBuffer.numberOfChannels b))
      (AudioBuffer.sampleRate b) (Z.of_nat (AudioBuffer.length b))
    ++ mjoin ((λ x, le16 (quantize x)) <$> interleave h b).
Proof.
  unfold bufferToWav. cbv zeta. cbn [blob_bytes].
  by rewrite set_bytes_header_payload, createWavHeader_spec,
    floatTo16BitPCM_spec.
Qed.

(** C4 - on a valid buffer (so with at least one channel) the encoder
    returns the 44-byte little-endian header of the specification ("RIFF",
    36 + dataSize, "WAVE", "fmt ", 16, format 1, channel count, sample rate,
    byte rate = sampleRate * channelCount * 2, block align = channelCount * 2,
    16 bits, "data", dataSize = frameCount * channelCount * 2) followed by
    exactly 2 * frameCount * channelCount payload bytes, in which the sample
    of channel [channel] at frame [frame] is stored quantized at interleaved
    position [frame * channelCount + channel], low byte first. *)
Theorem bufferToWav_layout h b :
  wf_buffer h b →
  let channelCount := AudioBuffer.numberOfChannels b in
  let frameCount := AudioBuffer.length b in
  let bytes := blob_bytes (bufferToWav h b) in
  take 44 bytes
  = wavHeader_spec (Z.of_nat channelCount) (AudioBuffer.sampleRate b)
      (Z.of_nat frameCount)
  ∧ List.length bytes = (44 + 2 * (frameCount * channelCount))%nat
  ∧ ∀ frame channel x,
      (channel < channelCount)%nat →
      channelSamples h b channel !! frame = Some x →
      bytes !! (44 + 2 * (frame * channelCount + channel))%nat
      = Some (quantize x mod 256)
      ∧ bytes !! (44 + 2 * (frame * channelCount + channel) + 1)%nat
        = Some ((quantize x / 256) mod 256).
Proof.
  intros Hwf channelCount frameCount bytes. subst bytes.
  rewrite bufferToWav_bytes.
  destruct (interleave_spec h b Hwf) as [Hlen Hval].
  fold channelCount frameCount in Hlen, Hval.
  split; [by apply take_app_length'|]. split.
  - by rewrite length_app, length_wavHeader_spec, length_pcm, Hlen.
  - intros frame channel x Hc Hx.
    destruct (pcm_lookup _ _ _ (Hval channel frame x Hc Hx)) as [Hlo Hhi].
    rewrite !lookup_app_r by (rewrite length_wavHeader_spec; lia).
    rewrite !length_wavHeader_spec.
    replace (44 + 2 * (frame * channelCount + channel) - 44)%nat
      with (2 * (frame * channelCount + channel))%nat by lia.
    replace (44 + 2 * (frame * channelCount + channel) + 1 - 44)%nat
      with (2 * (frame * channelCount + channel) + 1)%nat by lia.
    done.
Qed.

(** ** Slicing *)

Lemma trimAudio_throw h b startTime endTime :
  floor (endTime * Qc_of_Z (AudioBuffer.sampleRate b))
  ≤ floor (startTime * Qc_of_Z (AudioBuffer.sampleRate b)) →
  trimAudio h b startTime endTime = Throw NotSupportedError.
Proof.
  intros Hle. unfold trimAudio. cbv zeta.
  by rewrite createBuffer_throw by lia.
Qed.

(** The buffer [trimAudio] returns is valid, and the one it was given is
    still valid in the new store. *)
Lemma trimAudio_wf h b startTime endTime h' b' :
  wf_buffer h b →
  trimAudio h b startTime endTime = Ok (h', b') →
  floor (startTime * Qc_of_Z (AudioBuffer.sampleRate b))
  < floor (endTime * Qc_of_Z (AudioBuffer.sampleRate b))
  ∧ wf_buffer h' b' ∧ wf_buffer h' b.
Proof.
  intros Hwf Hok.
  destruct (Z.lt_ge_cases
    (floor (startTime * Qc_of_Z (AudioBuffer.sampleRate b)))
    (floor (endTime * Qc_of_Z (AudioBuffer.sampleRate b)))) as [Hlt|Hge].
  2:{ by rewrite trimAudio_throw in Hok. }
  split; [done|].
  destruct (trimAudio_ok h b startTime endTime Hwf Hlt)
    as (h2 & b2 & Hok2 & Hsr & Hlen & Hnch & Hnd & Hfresh & Hold & Hch).
  rewrite Hok in Hok2. injection Hok2 as <- <-. split.
  - split.
    + rewrite Hsr. apply Hwf.
    + rewrite Hnch. apply Hwf.
    + done.
    + intros l [c Hc]%list_elem_of_lookup_1.
      assert (Hlt' : (c < AudioBuffer.numberOfChannels b)%nat).
      { rewrite <- Hnch. by eapply lookup_lt_Some. }
      destruct (Hch c Hlt') as (Hl & Hlen' & _).
      unfold AudioBuffer.getChannelData in Hl.
      rewrite (list_lookup_total_correct _ _ _ Hc) in Hl. eauto.
  - destruct Hwf as [Hr Hc Hnd' Harr]. split; [done..|].
    intros l Hl. destruct (Harr l Hl) as (a & Ha & Hlen').
    exists a. split; [|done]. rewrite Hold; [done|].
    intros Hin. apply (Hfresh l Hin). by eapply elem_of_dom_2.
Qed.

(** C2 - on a range that satisfies the slice precondition
    ([0 <= startIndex < endIndex <= frameCount]) [trimAudio] returns a buffer
    of [endIndex - startIndex] frames whose channel [c] holds, at every [i]
    below the new frame count, the original sample of channel [c] at
    [startIndex + i]; its channel arrays are fresh locations (none was live in
    the store, none belongs to the original buffer), the arrays that were
    live are untouched, and a later in-place transform of either buffer
    leaves the samples of the other as they are. *)
Theorem trimAudio_slice h b startTime endTime :
  wf_buffer h b →
  let startIndex := floor (startTime * Qc_of_Z (AudioBuffer.sampleRate b)) in
  let endIndex := floor (endTime * Qc_of_Z (AudioBuffer.sampleRate b)) in
  0 ≤ startIndex → endIndex ≤ Z.of_nat (AudioBuffer.length b) →
  startIndex < endIndex →
  ∃ h' b',
    trimAudio h b startTime endTime = Ok (h', b')
    ∧ Z.of_nat (AudioBuffer.length b') = endIndex - startIndex
    ∧ AudioBuffer.numberOfChannels b' = AudioBuffer.numberOfChannels b
    ∧ (∀ c i, (c < AudioBuffer.numberOfChannels b)%nat →
         (i < AudioBuffer.length b')%nat →
         is_Some (channelSamples h' b' c !! i)
         ∧ channelSamples h' b' c !! i
           = channelSamples h b c !! (Z.to_nat startIndex + i)%nat)
    ∧ NoDup (AudioBuffer.channels b')
    ∧ (∀ l, l ∈ AudioBuffer.channels b' →
         (l ∉ dom h) ∧ (l ∉ AudioBuffer.channels b))
    ∧ (∀ l, l ∈ dom h → h' !! l = h !! l)
    ∧ (∀ gain c, (c < AudioBuffer.numberOfChannels b)%nat →
         channelSamples (applyGain h' b' gain).1 b c = channelSamples h b c
         ∧ channelSamples (applyGain h' b gain).1 b' c
           = channelSamples h' b' c).
Proof.
  intros Hwf startIndex endIndex H0 Hend Hlt.
  destruct (trimAudio_ok h b startTime endTime Hwf Hlt)
    as (h' & b' & Hok & Hsr & Hlen & Hnch & Hnd & Hfresh & Hold & Hch).
  fold startIndex endIndex in Hlen, Hch.
  destruct (trimAudio_wf h b startTime endTime h' b' Hwf Hok)
    as (_ & Hwf' & Hwfb).
  assert (Hdisj : ∀ l, l ∈ AudioBuffer.channels b' →
            (l ∉ dom h) ∧ (l ∉ AudioBuffer.channels b)).
  { intros l Hl. split; [by apply Hfresh|].
    intros Hin. destruct (wf_arrays _ _ Hwf l Hin) as (a & Ha & _).
    apply (Hfresh l Hl). by eapply elem_of_dom_2. }
  assert (Hkeep : ∀ l, l ∈ dom h → h' !! l = h !! l).
  { intros l Hl. apply Hold. intros Hin. by apply (Hfresh l Hin). }
  exists h', b'. split; [done|]. split; [done|]. split; [done|].
  split; [|split; [done|split; [done|split; [done|]]]].
  - intros c i Hc Hi. destruct (Hch c Hc) as (_ & _ & Hval).
    rewrite (Hval i Hi).
    destruct (wf_channel_length h b c Hwf Hc) as [_ Hlenc].
    replace (startIndex + Z.of_nat i)
      with (Z.of_nat (Z.to_nat startIndex + i)) by lia.
    rewrite read_nat.
    destruct (lookup_lt_is_Some_2 (channelSamples h b c)
                (Z.to_nat startIndex + i)) as [x Hx]; [lia|].
    rewrite Hx. eauto.
  - intros gain c Hc.
    pose proof (getChannelData_lookup b c Hc) as Hl.
    apply list_elem_of_lookup_2 in Hl.
    assert (Hc' : (c < AudioBuffer.numberOfChannels b')%nat) by lia.
    pose proof (getChannelData_lookup b' c Hc') as Hl'.
    apply list_elem_of_lookup_2 in Hl'.
    destruct (applyGain_spec h' b' gain Hwf') as (_ & _ & Hother1 & _).
    destruct (applyGain_spec h' b gain Hwfb) as (_ & _ & Hother2 & _).
    cbv zeta in Hother1, Hother2. unfold channelSamples. split.
    + apply lookup_total_agree. rewrite Hother1.
      * apply Hkeep. destruct (wf_arrays _ _ Hwf _ Hl) as (a & Ha & _).
        by eapply elem_of_dom_2.
      * intros Hin. by apply (Hdisj _ Hin).
    + apply lookup_total_agree, Hother2. by apply Hdisj.
Qed.

(** C10 - [trimAudio] checks no bound: whenever
    [0 <= floor(start * sampleRate) < floor(end * sampleRate)] it returns,
    without an error, a buffer of [floor(end * sampleRate) -
    floor(start * sampleRate)] frames, also when the end index is past the
    source; every frame that falls past the end of the source then reads
    [undefined] and is stored as NaN, while the frames inside the source are
    copied. *)
Theorem trimAudio_unchecked h b startTime endTime :
  wf_buffer h b →
  let startIndex := floor (startTime * Qc_of_Z (AudioBuffer.sampleRate b)) in
  let endIndex := floor (endTime * Qc_of_Z (AudioBuffer.sampleRate b)) in
  0 ≤ startIndex → startIndex < endIndex →
  ∃ h' b',
    trimAudio h b startTime endTime = Ok (h', b')
    ∧ Z.of_nat (AudioBuffer.length b') = endIndex - startIndex
    ∧ ∀ c i, (c < AudioBuffer.numberOfChannels b)%nat →
        (i < AudioBuffer.length b')%nat →
        (Z.of_nat (AudioBuffer.length b) ≤ startIndex + Z.of_nat i →
           channelSamples h' b' c !! i = Some NaN)
        ∧ (startIndex + Z.of_nat i < Z.of_nat (AudioBuffer.length b) →
           channelSamples h' b' c !! i
           = channelSamples h b c !! (Z.to_nat startIndex + i)%nat).
Proof.
  intros Hwf startIndex endIndex H0 Hlt.
  destruct (trimAudio_ok h b startTime endTime Hwf Hlt)
    as (h' & b' & Hok & _ & Hlen & _ & _ & _ & _ & Hch).
  fold startIndex endIndex in Hlen, Hch.
  exists h', b'. split; [done|]. split; [done|].
  intros c i Hc Hi. destruct (Hch c Hc) as (_ & _ & Hval).
  rewrite (Hval i Hi).
  destruct (wf_channel_length h b c Hwf Hc) as [_ Hlenc]. split.
  - intros Hpast. rewrite read_None; [done|]. rewrite Hlenc. lia.
  - intros Hin.
    replace (startIndex + Z.of_nat i)
      with (Z.of_nat (Z.to_nat startIndex + i)) by lia.
    rewrite read_nat.
    destruct (lookup_lt_is_Some_2 (channelSamples h b c)
                (Z.to_nat startIndex + i)) as [x Hx]; [lia|].
    by rewrite Hx.
Qed.

(** C1 (as the code has it) - [trimAudio] fails exactly when the end index
    is not above the start index, and then through the buffer allocation
    (NotSupportedError); a start index below 0 or an end index above the
    frame count of the source is not rejected: a buffer is returned. *)
Theorem trimAudio_fails_iff h b startTime endTime :
  wf_buffer h b →
  let startIndex := floor (startTime * Qc_of_Z (AudioBuffer.sampleRate b)) in
  let endIndex := floor (endTime * Qc_of_Z (AudioBuffer.sampleRate b)) in
  (endIndex ≤ startIndex →
     trimAudio h b startTime endTime = Throw NotSupportedError)
  ∧ (startIndex < endIndex →
     ∃ h' b', trimAudio h b startTime endTime = Ok (h', b')
       ∧ Z.of_nat (AudioBuffer.length b') = endIndex - startIndex).
Proof.
  intros Hwf startIndex endIndex. split.
  - apply trimAudio_throw.
  - intros Hlt.
    destruct (trimAudio_ok h b startTime endTime Hwf Hlt)
      as (h' & b' & Hok & _ & Hlen & _). eauto.
Qed.

(** C8 (as the code has it) - every transform keeps the buffer invariant:
    the buffer a successful [trimAudio] returns is valid (each channel array
    has exactly [length] samples) with the sample rate and the channel count
    of its source; its frame count is [endIndex - startIndex], which is at
    most the source's when the range lies inside the source and more than
    the source's when the range is longer than the source (the range is not
    checked); [applyFade], [applyGain] and [normalize] return the very
    buffer they were given (same sample rate, channel count and frame
    count), still valid in the new store. *)
Theorem transforms_preserve_invariant h b :
  wf_buffer h b →
  (∀ startTime endTime h' b',
     trimAudio h b startTime endTime = Ok (h', b') →
     let startIndex :=
       floor (startTime * Qc_of_Z (AudioBuffer.sampleRate b)) in
     let endIndex := floor (endTime * Qc_of_Z (AudioBuffer.sampleRate b)) in
     wf_buffer h' b'
     ∧ AudioBuffer.sampleRate b' = AudioBuffer.sampleRate b
     ∧ AudioBuffer.numberOfChannels b' = AudioBuffer.numberOfChannels b
     ∧ Z.of_nat (AudioBuffer.length b') = endIndex - startIndex
     ∧ (0 ≤ startIndex → endIndex ≤ Z.of_nat (AudioBuffer.length b) →
        (AudioBuffer.length b' ≤ AudioBuffer.length b)%nat)
     ∧ (Z.of_nat (AudioBuffer.length b) < endIndex - startIndex →
        (AudioBuffer.length b < AudioBuffer.length b')%nat))
  ∧ (∀ fadeIn fadeOut,
       (applyFade h b fadeIn fadeOut).2 = b
       ∧ wf_buffer (applyFade h b fadeIn fadeOut).1 b)
  ∧ (∀ gain,
       (applyGain h b gain).2 = b ∧ wf_buffer (applyGain h b gain).1 b)
  ∧ ((normalize h b).2 = b ∧ wf_buffer (normalize h b).1 b).
Proof.
  intros Hwf. split; [|split; [|split]].
  - intros startTime endTime h' b' Hok startIndex endIndex.
    destruct (trimAudio_wf h b startTime endTime h' b' Hwf Hok)
      as (Hlt & Hwf' & _).
    destruct (trimAudio_ok h b startTime endTime Hwf Hlt)
      as (h2 & b2 & Hok2 & Hsr & Hlen & Hnch & _).
    rewrite Hok in Hok2. injection Hok2 as <- <-.
    fold startIndex endIndex in Hlen.
    split; [done|]. split; [done|]. split; [done|]. split; [done|].
    split; lia.
  - intros fadeIn fadeOut.
    by destruct (applyFade_inplace h b fadeIn fadeOut Hwf) as (? & ? & _).
  - intros gain. by destruct (applyGain_spec h b gain Hwf) as (? & ? & _).
  - unfold normalize. case_match; [|done].
    by destruct (applyGain_spec h b
      (div (ofQ (95 # 100)) (maxAmplitude h b)) Hwf) as (? & ? & _).
Qed.

(** ** Double precision *)

Lemma floor_bounds (x : Qc) :
  (Qc_of_Z (floor x) <= x)%Qc /\ (x < Qc_of_Z (floor x + 1))%Qc.
Proof.
  unfold floor, Qcle, Qclt. simpl.
  split; [apply Qfloor_le|apply Qlt_floor].
Qed.

Lemma floor_unique (x : Qc) (j : Z) :
  (Qc_of_Z j <= x)%Qc -> (x < Qc_of_Z (j + 1))%Qc -> floor x = j.
Proof.
  intros Hlo Hhi. destruct (floor_bounds x) as [H1 H2].
  assert (Ha : (Qc_of_Z j < Qc_of_Z (floor x + 1))%Qc)
    by (eapply Qcle_lt_trans; eauto).
  assert (Hb : (Qc_of_Z (floor x) < Qc_of_Z (j + 1))%Qc)
    by (eapply Qcle_lt_trans; eauto).
  rewrite <- Z2Qc_inj_lt in Ha, Hb. lia.
Qed.

Lemma Qc_of_Z_pos (n : Z) : 0 < n → (0 < Qc_of_Z n)%Qc.
Proof. intros H. by rewrite <- Z2Qc_inj_0, <- Z2Qc_inj_lt. Qed.

Lemma pow2_pos (e : Z) : (0 < pow2 e)%Qc.
Proof.
  unfold pow2. destruct (Z.ltb_spec e 0).
  - apply Qcinv_pos. apply Qc_of_Z_pos. apply Z.pow_pos_nonneg; lia.
  - apply Qc_of_Z_pos. apply Z.pow_pos_nonneg; lia.
Qed.

Lemma pow2_succ (e : Z) : pow2 (e + 1) = (Qc_of_Z 2 * pow2 e)%Qc.
Proof.
  unfold pow2.
  destruct (Z.ltb_spec e 0) as [He|He], (Z.ltb_spec (e + 1) 0) as [He1|He1];
    try lia.
  - replace (- e) with (- (e + 1) + 1) by lia.
    rewrite Z.pow_add_r by lia. change (2 ^ 1) with 2.
    rewrite Z2Qc_inj_mul. field. split.
    + rewrite <- Z2Qc_inj_0. intros H%Z2Qc_inj. lia.
    + rewrite <- Z2Qc_inj_0. intros H%Z2Qc_inj.
      pose proof (Z.pow_pos_nonneg 2 (- (e + 1))). lia.
  - assert (e = -1) as -> by lia. by apply Qc_is_canon.
  - rewrite Z.pow_add_r by lia. change (2 ^ 1) with 2.
    rewrite Z2Qc_inj_mul. ring.
Qed.

Lemma pow2_add_nat (e : Z) (k : nat) :
  pow2 (e + Z.of_nat k) = (Qc_of_Z (2 ^ Z.of_nat k) * pow2 e)%Qc.
Proof.
  induction k as [|k IH].
  - rewrite Z.add_0_r. change (2 ^ Z.of_nat 0) with 1.
    rewrite Z2Qc_inj_1. ring.
  - rewrite Nat2Z.inj_succ, <- Z.add_1_r, Z.add_assoc, pow2_succ, IH.
    rewrite Z.pow_add_r by lia. change (2 ^ 1) with 2.
    rewrite Z2Qc_inj_mul. ring.
Qed.

Lemma pow2_nonneg (e : Z) : 0 ≤ e → pow2 e = Qc_of_Z (2 ^ e).
Proof. intros H. unfold pow2. by destruct (Z.ltb_spec e 0); [lia|]. Qed.

Lemma Qc_num_den (a : Qc) :
  (a * Qc_of_Z (Zpos (Qden a)))%Qc = Qc_of_Z (Qnum a).
Proof.
  apply Qc_is_canon. destruct a as [[p d] H]. simpl.
  rewrite !Qred_correct. unfold Qeq, inject_Z. simpl. lia.
Qed.

(** The exponent [ilog2] finds is not above the number. *)
Lemma ilog2_le (a : Qc) : (0 < a)%Qc → (pow2 (ilog2 a) ≤ a)%Qc.
Proof.
  intros Ha. unfold ilog2. case_bool_decide as Hcase; [done|].
  set (p := Qnum a). set (d := Zpos (Qden a)).
  assert (Hp : 0 < p).
  { unfold p. destruct a as [[p' d'] H]. unfold Qclt, Qlt in Ha. simpl in *.
    lia. }
  assert (Hd : 0 < d) by (unfold d; lia).
  pose proof (Z.log2_spec p Hp) as [Hlp _].
  pose proof (Z.log2_spec d Hd) as [_ Hld].
  pose proof (Z.log2_nonneg p) as H0p. pose proof (Z.log2_nonneg d) as H0d.
  set (lp := Z.log2 p) in *. set (ld := Z.log2 d) in *.
  assert (HD : (0 < Qc_of_Z d * Qc_of_Z (2 ^ (ld + 1)))%Qc).
  { rewrite <- Z2Qc_inj_mul. apply Qc_of_Z_pos.
    apply Z.mul_pos_pos; [done|]. apply Z.pow_pos_nonneg; lia. }
  apply (Qcmult_lt_0_le_reg_r _ _ _ HD).
  assert (E1 : (pow2 (lp - ld - 1) * Qc_of_Z (2 ^ (ld + 1)))%Qc
               = Qc_of_Z (2 ^ lp)).
  { rewrite <- (pow2_nonneg lp) by done.
    replace lp with (lp - ld - 1 + Z.of_nat (Z.to_nat (ld + 1))) at 2 by lia.
    rewrite pow2_add_nat, Z2Nat.id by lia. ring. }
  replace (pow2 (lp - ld - 1) * (Qc_of_Z d * Qc_of_Z (2 ^ (ld + 1))))%Qc
    with (pow2 (lp - ld - 1) * Qc_of_Z (2 ^ (ld + 1)) * Qc_of_Z d)%Qc by ring.
  replace (a * (Qc_of_Z d * Qc_of_Z (2 ^ (ld + 1))))%Qc
    with (a * Qc_of_Z d * Qc_of_Z (2 ^ (ld + 1)))%Qc by ring.
  assert (Ea : (a * Qc_of_Z d)%Qc = Qc_of_Z p) by apply Qc_num_den.
  rewrite E1, Ea.
  rewrite <- !Z2Qc_inj_mul, <- Z2Qc_inj_le.
  assert (0 < 2 ^ lp) by (apply Z.pow_pos_nonneg; lia). nia.
Qed.

Lemma roundEven_near (m : Qc) :
  (m - Q2Qc (1 # 2) ≤ Qc_of_Z (roundEven m))%Qc
  ∧ (Qc_of_Z (roundEven m) ≤ m + Q2Qc (1 # 2))%Qc.
Proof.
  unfold roundEven. destruct (floor_bounds m) as [Hlo Hhi].
  rewrite Z2Qc_inj_add, Z2Qc_inj_1 in Hhi.
  assert (Hcases : ∀ (P : Z → Prop),
            ((m - Qc_of_Z (floor m) < Q2Qc (1 # 2))%Qc → P (floor m)) →
            ((Q2Qc (1 # 2) ≤ m - Qc_of_Z (floor m))%Qc → P (floor m + 1)) →
            ((m - Qc_of_Z (floor m))%Qc = Q2Qc (1 # 2) → P (floor m)) →
            P (if bool_decide (m - Qc_of_Z (floor m) < Q2Qc (1 # 2))%Qc
               then floor m
               else if bool_decide (Q2Qc (1 # 2) < m - Qc_of_Z (floor m))%Qc
                    then floor m + 1
                    else if Z.even (floor m) then floor m else floor m + 1)).
  { intros P H1 H2 H3. case_bool_decide as Hlt; [by apply H1|].
    apply Qcnot_lt_le in Hlt. case_bool_decide as Hgt; [by apply H2|].
    apply Qcnot_lt_le in Hgt.
    destruct (Z.even (floor m)); [|by apply H2].
    apply H3. by apply Qcle_antisym. }
  apply Hcases; clear Hcases; rewrite ?Z2Qc_inj_add, ?Z2Qc_inj_1;
    revert Hlo Hhi; generalize (Qc_of_Z (floor m)); intros f Hlo Hhi H.
  - split; qc_to_q; lra.
  - split; qc_to_q; lra.
  - assert (m = f + Q2Qc (1 # 2))%Qc as -> by (rewrite <- H; ring).
    split; qc_to_q; lra.
Qed.

(** The rounding error is at most half the spacing of the doubles at the
    number. *)
Lemma round64_near (x : Qc) :
  (0 < x)%Qc →
  let half := pow2 (Z.max (ilog2 x) (-1022) - 53) in
  (x - half ≤ round64 x)%Qc ∧ (round64 x ≤ x + half)%Qc.
Proof.
  intros Hx half. unfold round64.
  rewrite (bool_decide_eq_false_2 (x = 0)%Qc)
    by (intros ->; by apply Qclt_irrefl in Hx).
  rewrite (bool_decide_eq_false_2 (x < 0)%Qc)
    by (by apply Qcle_not_lt, Qclt_le_weak).
  cbv zeta. set (e := Z.max (ilog2 x) (-1022)) in *.
  set (u := pow2 (e - 52)).
  assert (Hu : (0 < u)%Qc) by apply pow2_pos.
  assert (Eu : u = (Qc_of_Z 2 * half)%Qc).
  { unfold u, half. replace (e - 52) with (e - 53 + 1) by lia.
    apply pow2_succ. }
  destruct (roundEven_near (x / u)) as [Hlo Hhi].
  set (n := Qc_of_Z (roundEven (x / u))) in *.
  assert (Ex : (x / u * u)%Qc = x).
  { field. intros H. rewrite H in Hu. by apply Qclt_irrefl in Hu. }
  apply (Qcmult_le_compat_r _ _ u) in Hlo, Hhi;
    [|by apply Qclt_le_weak..].
  replace ((x / u - Q2Qc (1 # 2)) * u)%Qc
    with (x / u * u - Q2Qc (1 # 2) * u)%Qc in Hlo by ring.
  replace ((x / u + Q2Qc (1 # 2)) * u)%Qc
    with (x / u * u + Q2Qc (1 # 2) * u)%Qc in Hhi by ring.
  rewrite Ex in Hlo, Hhi. rewrite Eu in Hlo, Hhi |- *.
  revert Hlo Hhi. generalize (n * (Qc_of_Z 2 * half))%Qc.
  generalize half. clear. intros h r Hlo Hhi.
  split; qc_to_q; lra.
Qed.

(** The duration times the sample rate is within one of the frame count:
    the rounding error of the quotient, scaled back, stays below 1. *)
Lemma duration_times_rate b :
  0 < AudioBuffer.sampleRate b → AudioBuffer.sampleRate b < 2 ^ 53 →
  (1 ≤ AudioBuffer.length b)%nat → Z.of_nat (AudioBuffer.length b) < 2 ^ 53 →
  (Qc_of_Z (Z.of_nat (AudioBuffer.length b)) - 1
   < AudioBuffer.duration b * Qc_of_Z (AudioBuffer.sampleRate b))%Qc
  ∧ (AudioBuffer.duration b * Qc_of_Z (AudioBuffer.sampleRate b)
     < Qc_of_Z (Z.of_nat (AudioBuffer.length b)) + 1)%Qc.
Proof.
  intros Hsr Hsr53 Hlen Hlen53. unfold AudioBuffer.duration in *.
  set (L := Z.of_nat (AudioBuffer.length b)) in *.
  set (R := AudioBuffer.sampleRate b) in *.
  set (x := (Qc_of_Z L / Qc_of_Z R)%Qc) in *.
  assert (HR_ : (0 < Qc_of_Z R)%Qc) by (by apply Qc_of_Z_pos).
  assert (HL : (0 < Qc_of_Z L)%Qc) by (apply Qc_of_Z_pos; lia).
  assert (ExS : (x * Qc_of_Z R)%Qc = Qc_of_Z L).
  { unfold x. field. intros H. rewrite H in HR_. by apply Qclt_irrefl in HR_. }
  assert (Hx : (0 < x)%Qc).
  { destruct (Qclt_le_dec 0 x) as [|Hneg]; [done|]. exfalso.
    apply (Qcmult_le_compat_r _ _ (Qc_of_Z R)) in Hneg;
      [|by apply Qclt_le_weak].
    rewrite ExS, Qcmult_0_l in Hneg. by apply Qcle_not_lt in Hneg. }
  destruct (round64_near x Hx) as [Hlo Hhi]. cbv zeta in Hlo, Hhi.
  set (h := pow2 (Z.max (ilog2 x) (-1022) - 53)) in *.
  assert (Hh : (h * Qc_of_Z R < 1)%Qc).
  { destruct (Z.max_spec (ilog2 x) (-1022)) as [[_ Hm]|[_ Hm]].
    - assert (E : h = pow2 (-1075)) by (unfold h; by rewrite Hm).
      assert (Hc : (pow2 (-1075) * Qc_of_Z (2 ^ 53) < 1)%Qc).
      { apply (bool_decide_eq_true_1 (_ < _)%Qc). vm_compute. reflexivity. }
      rewrite E. eapply Qcle_lt_trans; [|exact Hc].
      rewrite !(Qcmult_comm (pow2 (-1075))).
      apply Qcmult_le_compat_r; [|apply Qclt_le_weak, pow2_pos].
      rewrite <- Z2Qc_inj_le. lia.
    - assert (E : (Qc_of_Z (2 ^ 53) * h)%Qc = pow2 (ilog2 x)).
      { unfold h. rewrite Hm.
        replace (ilog2 x) with (ilog2 x - 53 + Z.of_nat 53) at 2 by lia.
        by rewrite pow2_add_nat. }
      pose proof (ilog2_le x Hx) as Hle. rewrite <- E in Hle.
      apply (Qcmult_le_compat_r _ _ (Qc_of_Z R)) in Hle;
        [|by apply Qclt_le_weak].
      rewrite ExS in Hle.
      assert (Hb : (Qc_of_Z L < Qc_of_Z (2 ^ 53))%Qc)
        by (by rewrite <- Z2Qc_inj_lt).
      replace (Qc_of_Z (2 ^ 53) * h * Qc_of_Z R)%Qc
        with (Qc_of_Z (2 ^ 53) * (h * Qc_of_Z R))%Qc in Hle by ring.
      change (2 ^ 53) with 9007199254740992 in *.
      revert Hle Hb. generalize (h * Qc_of_Z R)%Qc, (Qc_of_Z L).
      clear. intros hs l Hle Hb. qc_to_q. lra. }
  apply (Qcmult_le_compat_r _ _ (Qc_of_Z R)) in Hlo, Hhi;
    [|by apply Qclt_le_weak..].
  replace ((x - h) * Qc_of_Z R)%Qc
    with (x * Qc_of_Z R - h * Qc_of_Z R)%Qc in Hlo by ring.
  replace ((x + h) * Qc_of_Z R)%Qc
    with (x * Qc_of_Z R + h * Qc_of_Z R)%Qc in Hhi by ring.
  rewrite ExS in Hlo, Hhi. revert Hlo Hhi Hh.
  generalize (round64 x * Qc_of_Z R)%Qc, (h * Qc_of_Z R)%Qc, (Qc_of_Z L).
  clear. intros r hs l Hlo Hhi Hh. split; qc_to_q; lra.
Qed.

(** Whether the duration, times the sample rate, gets back to the frame
    count depends on the rounding of the quotient: it is the frame count
    or one less. *)
Lemma duration_index b :
  0 < AudioBuffer.sampleRate b → AudioBuffer.sampleRate b < 2 ^ 53 →
  (1 ≤ AudioBuffer.length b)%nat → Z.of_nat (AudioBuffer.length b) < 2 ^ 53 →
  let endIndex :=
    floor (AudioBuffer.duration b * Qc_of_Z (AudioBuffer.sampleRate b)) in
  endIndex = Z.of_nat (AudioBuffer.length b)
  ∨ endIndex = Z.of_nat (AudioBuffer.length b) - 1.
Proof.
  intros Hsr Hsr53 Hlen Hlen53 endIndex.
  destruct (duration_times_rate b Hsr Hsr53 Hlen Hlen53) as [Hlo Hhi].
  destruct (floor_bounds (AudioBuffer.duration b
                          * Qc_of_Z (AudioBuffer.sampleRate b))) as [Hf1 Hf2].
  fold endIndex in Hf1, Hf2. rewrite Z2Qc_inj_add, Z2Qc_inj_1 in Hf2.
  set (L := Z.of_nat (AudioBuffer.length b)) in *.
  assert (H1 : (Qc_of_Z endIndex < Qc_of_Z (L + 1))%Qc).
  { rewrite Z2Qc_inj_add, Z2Qc_inj_1. revert Hf1 Hhi.
    generalize (Qc_of_Z endIndex),
      (AudioBuffer.duration b * Qc_of_Z (AudioBuffer.sampleRate b))%Qc,
      (Qc_of_Z L).
    clear. intros f r l Hf1 Hhi. qc_to_q. lra. }
  assert (H2 : (Qc_of_Z (L - 1) < Qc_of_Z (endIndex + 1))%Qc).
  { rewrite Z2Qc_inj_sub, Z2Qc_inj_add, Z2Qc_inj_1. revert Hf2 Hlo.
    generalize (Qc_of_Z endIndex),
      (AudioBuffer.duration b * Qc_of_Z (AudioBuffer.sampleRate b))%Qc,
      (Qc_of_Z L).
    clear. intros f r l Hf2 Hlo. qc_to_q. lra. }
  rewrite <- Z2Qc_inj_lt in H1, H2. lia.
Qed.


(** ** Slicing from the start, then encoding *)

Lemma interleave_take h b h' b' :
  wf_buffer h b → wf_buffer h' b' →
  AudioBuffer.numberOfChannels b' = AudioBuffer.numberOfChannels b →
  (AudioBuffer.length b' ≤ AudioBuffer.length b)%nat →
  (∀ c i, (c < AudioBuffer.numberOfChannels b)%nat →
     (i < AudioBuffer.length b')%nat →
     channelSamples h' b' c !! i = channelSamples h b c !! i) →
  interleave h' b'
  = take (AudioBuffer.length b' * AudioBuffer.numberOfChannels b)
      (interleave h b).
Proof.
  intros Hwf Hwf' Hnch Hle Hsame.
  destruct (interleave_spec h b Hwf) as [Hlen Hat].
  destruct (interleave_spec h' b' Hwf') as [Hlen' Hat'].
  pose proof (wf_channels _ _ Hwf) as Hpos.
  set (nch := AudioBuffer.numberOfChannels b) in *.
  set (n := AudioBuffer.length b') in *.
  apply list_eq. intros j.
  destruct (decide (j < n * nch)%nat) as [Hj|Hj].
  - rewrite lookup_take_lt by done.
    assert (Hdm : j = (j / nch * nch + j mod nch)%nat).
    { rewrite Nat.mul_comm. apply Nat.div_mod_eq. }
    assert (Hc : (j mod nch < nch)%nat) by (apply Nat.mod_upper_bound; lia).
    assert (Hi : (j / nch < n)%nat).
    { apply Nat.Div0.div_lt_upper_bound. lia. }
    revert Hdm Hc Hi. generalize (j / nch)%nat, (j mod nch)%nat.
    intros i c -> Hc Hi.
    destruct (wf_channel_length h' b' c Hwf') as [_ Hl']; [by rewrite Hnch|].
    destruct (lookup_lt_is_Some_2 (channelSamples h' b' c) i) as [x Hx];
      [by rewrite Hl'|].
    rewrite Hnch in Hat'.
    rewrite (Hat' c i x Hc Hx). symmetry. apply Hat; [done|].
    by rewrite <- Hsame.
  - rewrite lookup_take_ge by lia.
    apply lookup_ge_None. rewrite Hlen', Hnch. lia.
Qed.

Lemma pcm_take (xs : list num) (k : nat) :
  mjoin ((λ x, le16 (quantize x)) <$> take k xs)
  = take (2 * k) (mjoin ((λ x, le16 (quantize x)) <$> xs)).
Proof.
  revert k. induction xs as [|x xs IH]; intros k.
  - rewrite take_nil. simpl. by rewrite take_nil.
  - destruct k as [|k]; [done|].
    replace (2 * S k)%nat with (S (S (2 * k))) by lia.
    change (take (S (S (2 * k)))
              (mjoin ((λ x, le16 (quantize x)) <$> x :: xs)))
      with (quantize x mod 256 :: (quantize x / 256) mod 256
            :: take (2 * k) (mjoin ((λ x, le16 (quantize x)) <$> xs))).
    by rewrite <- IH.
Qed.

Lemma payload_bufferToWav h b :
  drop 44 (blob_bytes (bufferToWav h b))
  = mjoin ((λ x, le16 (quantize x)) <$> interleave h b).
Proof.
  rewrite bufferToWav_bytes.
  by rewrite drop_app_length'.
Qed.

(** C9 (as the code has it) - slicing from time 0 to a time whose end index
    is between 1 and the frame count succeeds, and encoding the slice gives,
    after the 44-byte header, the first [endIndex] frames of the payload of
    the encoded buffer: the same file when the end index is the frame count,
    a shorter payload when it is less.  For the end time
    [frameCount / sampleRate], a double, the end index is the frame count or
    one less (frame counts below 2^52, sample rates below 2^53). *)
Theorem slice_whole_then_encode h b :
  wf_buffer h b →
  (∀ endTime,
     let endIndex := floor (endTime * Qc_of_Z (AudioBuffer.sampleRate b)) in
     1 ≤ endIndex ≤ Z.of_nat (AudioBuffer.length b) →
     ∃ h' b',
       trimAudio h b 0%Qc endTime = Ok (h', b')
       ∧ Z.of_nat (AudioBuffer.length b') = endIndex
       ∧ drop 44 (blob_bytes (bufferToWav h' b'))
         = take (2 * (Z.to_nat endIndex * AudioBuffer.numberOfChannels b))
             (drop 44 (blob_bytes (bufferToWav h b)))
       ∧ (endIndex = Z.of_nat (AudioBuffer.length b) →
          bufferToWav h' b' = bufferToWav h b)
       ∧ (endIndex < Z.of_nat (AudioBuffer.length b) →
          (List.length (drop 44 (blob_bytes (bufferToWav h' b')))
           < List.length (drop 44 (blob_bytes (bufferToWav h b))))%nat))
  ∧ (AudioBuffer.sampleRate b < 2 ^ 53 →
     (1 ≤ AudioBuffer.length b)%nat →
     Z.of_nat (AudioBuffer.length b) < 2 ^ 52 →
     let endIndex :=
       floor (AudioBuffer.duration b * Qc_of_Z (AudioBuffer.sampleRate b)) in
     endIndex = Z.of_nat (AudioBuffer.length b)
     ∨ endIndex = Z.of_nat (AudioBuffer.length b) - 1).
Proof.
  intros Hwf. split;
    [|intros Hsr53 Hlen1 Hlen52;
      apply duration_index; [apply (wf_rate _ _ Hwf)|done|done|lia]].
  intros endTime endIndex [H1 Hle].
  pose proof (floor_0_l (Qc_of_Z (AudioBuffer.sampleRate b))) as Hstart.
  destruct (trimAudio_ok h b 0%Qc endTime Hwf)
    as (h' & b' & Hok & Hsr & Hlen & Hnch & _ & _ & _ & Hch).
  { rewrite Hstart. fold endIndex. lia. }
  fold endIndex in Hlen. rewrite Hstart, Z.sub_0_r in Hlen.
  rewrite Hstart in Hch.
  destruct (trimAudio_wf h b 0%Qc endTime h' b' Hwf Hok) as (_ & Hwf' & _).
  assert (Hn : AudioBuffer.length b' = Z.to_nat endIndex) by lia.
  assert (Hil : interleave h' b'
                = take (Z.to_nat endIndex * AudioBuffer.numberOfChannels b)
                    (interleave h b)).
  { rewrite <- Hn. apply interleave_take; [done|done|done|lia|].
    intros c i Hc Hi. destruct (Hch c Hc) as (_ & _ & Hval).
    destruct (wf_channel_length h b c Hwf Hc) as [_ Hlc].
    rewrite Hval by done. rewrite Z.add_0_l, read_nat.
    destruct (lookup_lt_is_Some_2 (channelSamples h b c) i) as [x Hx]; [lia|].
    by rewrite Hx. }
  assert (Hpay : drop 44 (blob_bytes (bufferToWav h' b'))
                 = take (2 * (Z.to_nat endIndex
                              * AudioBuffer.numberOfChannels b))
                     (drop 44 (blob_bytes (bufferToWav h b)))).
  { by rewrite !payload_bufferToWav, Hil, pcm_take. }
  destruct (interleave_spec h b Hwf) as [Hlenb _].
  pose proof (wf_channels _ _ Hwf) as Hpos.
  exists h', b'. split; [done|]. split; [done|]. split; [done|]. split.
  - intros Heq.
    assert (Hil' : interleave h' b' = interleave h b).
    { rewrite Hil. apply take_ge. rewrite Hlenb. nia. }
    pose proof (bufferToWav_bytes h' b') as Hb1.
    pose proof (bufferToWav_bytes h b) as Hb2.
    assert (Hlen' : AudioBuffer.length b' = AudioBuffer.length b) by lia.
    rewrite Hnch, Hsr, Hlen', Hil' in Hb1.
    rewrite <- Hb2 in Hb1. unfold bufferToWav in *. cbv zeta in *.
    cbn [blob_bytes] in Hb1. by rewrite Hb1.
  - intros Hlt. rewrite Hpay, length_take, payload_bufferToWav, length_pcm.
    rewrite Hlenb. nia.
Qed.

(** ** The timecode parser *)

(** Two numbers are equal as soon as deciding their equality computes to
    [true]. *)
Lemma num_eq_by_compute (x y : num) : bool_decide (x = y) = true → x = y.
Proof. apply bool_decide_eq_true_1. Qed.

Lemma add_zero_l x : add (Fin 0%Qc) x = x.
Proof. destruct x as [a| | |]; [|done..]. simpl. by rewrite Qcplus_0_l. Qed.

Lemma add_NaN_r x : add x NaN = NaN.
Proof. by destruct x. Qed.

Lemma mul_NaN_l y : mul NaN y = NaN.
Proof. done. Qed.

(** C7 - [timeToSeconds] splits on ':' and returns, as JavaScript computes
    it, hours * 3600 + minutes * 60 + seconds for three parts,
    minutes * 60 + seconds for two parts and the value itself for one part,
    with 0 in place of a sum that is NaN; so when every part parses to a
    finite number the result is that exact weighted sum, and whenever a part
    fails to parse (NaN) the result is 0.  The result is never NaN and no
    input makes the function fail (it is total).  The four examples of the
    specification evaluate to 3723.5, 123.5, 5.25 and 0. *)
Theorem timeToSeconds_weighted_sum :
  (∀ s p0 p1 p2,
     split_colon s = [p0; p1; p2] →
     let v := add (add (mul (parseFloat p0) (ofZ 3600))
                     (mul (parseFloat p1) (ofZ 60))) (parseFloat p2) in
     timeToSeconds s = (if isNaN v then Fin 0%Qc else v)
     ∧ ∀ x y z, parseFloat p0 = Fin x → parseFloat p1 = Fin y →
         parseFloat p2 = Fin z →
         timeToSeconds s = Fin (x * Qc_of_Z 3600 + y * Qc_of_Z 60 + z)%Qc)
  ∧ (∀ s p0 p1,
       split_colon s = [p0; p1] →
       let v := add (mul (parseFloat p0) (ofZ 60)) (parseFloat p1) in
       timeToSeconds s = (if isNaN v then Fin 0%Qc else v)
       ∧ ∀ y z, parseFloat p0 = Fin y → parseFloat p1 = Fin z →
           timeToSeconds s = Fin (y * Qc_of_Z 60 + z)%Qc)
  ∧ (∀ s p0,
       split_colon s = [p0] →
       timeToSeconds s
       = (if isNaN (parseFloat p0) then Fin 0%Qc else parseFloat p0)
       ∧ ∀ z, parseFloat p0 = Fin z → timeToSeconds s = Fin z)
  ∧ (∀ s p, p ∈ split_colon s → parseFloat p = NaN →
       timeToSeconds s = Fin 0%Qc)
  ∧ (∀ s, isNaN (timeToSeconds s) = false)
  ∧ timeToSeconds "01:02:03.500" = ofQ (7447 # 2)
  ∧ timeToSeconds "02:03.500" = ofQ (247 # 2)
  ∧ timeToSeconds "5.25" = ofQ (21 # 4)
  ∧ timeToSeconds "not-a-time" = Fin 0%Qc.
Proof.
  repeat apply conj.
  - intros s p0 p1 p2 Hs v. unfold timeToSeconds. subst v.
    rewrite Hs, add_zero_l. split; [done|].
    intros x y z H0 H1 H2. by rewrite H0, H1, H2.
  - intros s p0 p1 Hs v. unfold timeToSeconds. subst v.
    rewrite Hs, add_zero_l. split; [done|].
    intros y z H0 H1. by rewrite H0, H1.
  - intros s p0 Hs. unfold timeToSeconds.
    rewrite Hs, add_zero_l. split; [done|].
    intros z H0. by rewrite H0.
  - intros s p Hp Hnan. unfold timeToSeconds.
    destruct (split_colon s) as [|q0 [|q1 [|q2 [|q3 rest]]]]; try done.
    + apply list_elem_of_singleton in Hp as ->. by rewrite Hnan.
    + rewrite add_zero_l.
      apply elem_of_cons in Hp as [->|Hp];
        [|apply list_elem_of_singleton in Hp as ->]; rewrite Hnan;
        [done|by rewrite add_NaN_r].
    + rewrite add_zero_l.
      apply elem_of_cons in Hp as [->|Hp];
        [|apply elem_of_cons in Hp as [->|Hp];
          [|apply list_elem_of_singleton in Hp as ->]];
        rewrite Hnan; [done| |by rewrite add_NaN_r].
      by rewrite add_NaN_r.
  - intros s. unfold timeToSeconds. cbv zeta.
    match goal with |- context [if isNaN ?v then _ else _] =>
      by destruct (isNaN v) eqn:H
    end.
  - by apply num_eq_by_compute; vm_compute.
  - by apply num_eq_by_compute; vm_compute.
  - by apply num_eq_by_compute; vm_compute.
  - by apply num_eq_by_compute; vm_compute.
Qed.

(** ** Concrete buffers *)

Lemma wf_bufferb_correct h b : wf_bufferb h b = true → wf_buffer h b.
Proof.
  unfold wf_bufferb. rewrite !andb_true_iff.
  intros [[[Hr Hc] Hnd] Harr].
  apply Z.ltb_lt in Hr. apply bool_decide_eq_true in Hc, Hnd.
  split; [done..|]. intros l Hl.
  rewrite forallb_forall in Harr. specialize (Harr l).
  rewrite <- list_elem_of_In in Harr. specialize (Harr Hl).
  destruct (h !! l) as [a|]; [|done].
  apply bool_decide_eq_true in Harr. eauto.
Qed.

Lemma wf_buffer0 : wf_buffer store0 buffer0.
Proof. apply wf_bufferb_correct. vm_compute. reflexivity. Qed.

(** C1, counterexample - on the four-frame buffer at 8192 samples per
    second, the range from 1/8192 s to 6/8192 s has end index 6, past the 4
    frames of the buffer, and [trimAudio] does not fail on it. *)
Lemma trimAudio_past_end_counterexample :
  wf_buffer store0 buffer0
  ∧ Z.of_nat (AudioBuffer.length buffer0)
    < floor (atFrame 6 * Qc_of_Z (AudioBuffer.sampleRate buffer0))
  ∧ ¬ ∃ e, trimAudio store0 buffer0 (atFrame 1) (atFrame 6) = Throw e.
Proof.
  split; [exact wf_buffer0|]. split; [apply Z.ltb_lt; vm_compute; reflexivity|].
  destruct (trimAudio_ok store0 buffer0 (atFrame 1) (atFrame 6) wf_buffer0)
    as (h' & b' & Hok & _); [apply Z.ltb_lt; vm_compute; reflexivity|].
  rewrite Hok. intros [e He]. discriminate He.
Qed.

(** C9, counterexample - fifteen frames at 44100 samples per second: the
    duration is the double nearest to 15/44100, which is below it, so the
    end index is 14; the slice has 14 frames and its payload is two bytes
    shorter than the payload of the encoded buffer. *)
Lemma slice_whole_loses_frame_counterexample :
  wf_buffer fifteenStore fifteenBuffer
  ∧ (AudioBuffer.duration fifteenBuffer < Q2Qc (15 # 44100))%Qc
  ∧ floor (AudioBuffer.duration fifteenBuffer
           * Qc_of_Z (AudioBuffer.sampleRate fifteenBuffer)) = 14
  ∧ ∃ h' b',
      trimAudio fifteenStore fifteenBuffer 0%Qc
        (AudioBuffer.duration fifteenBuffer) = Ok (h', b')
      ∧ AudioBuffer.length b' = 14%nat
      ∧ List.length (drop 44 (blob_bytes (bufferToWav h' b'))) = 28%nat
      ∧ List.length (drop 44 (blob_bytes
                                (bufferToWav fifteenStore fifteenBuffer)))
        = 30%nat
      ∧ drop 44 (blob_bytes (bufferToWav h' b'))
        ≠ drop 44 (blob_bytes (bufferToWav fifteenStore fifteenBuffer)).
Proof.
  assert (Hwf : wf_buffer fifteenStore fifteenBuffer).
  { apply wf_bufferb_correct. vm_compute. reflexivity. }
  split; [exact Hwf|].
  split; [apply (bool_decide_eq_true_1 (_ < _)%Qc); vm_compute; reflexivity|].
  assert (Hidx : floor (AudioBuffer.duration fifteenBuffer
                        * Qc_of_Z (AudioBuffer.sampleRate fifteenBuffer)) = 14)
    by (vm_compute; reflexivity).
  split; [exact Hidx|].
  destruct (trimAudio_ok fifteenStore fifteenBuffer 0%Qc
              (AudioBuffer.duration fifteenBuffer) Hwf)
    as (h' & b' & Hok & _ & Hlen & Hnch & _).
  { rewrite Hidx, floor_0_l. lia. }
  rewrite Hidx, floor_0_l in Hlen.
  destruct (trimAudio_wf _ _ _ _ h' b' Hwf Hok) as (_ & Hwf' & _).
  destruct (interleave_spec h' b' Hwf') as [Hl' _].
  destruct (interleave_spec _ _ Hwf) as [Hl _].
  assert (H28 : List.length (drop 44 (blob_bytes (bufferToWav h' b')))
                = 28%nat).
  { rewrite payload_bufferToWav, length_pcm, Hl', Hnch.
    change (AudioBuffer.numberOfChannels fifteenBuffer) with 1%nat. lia. }
  assert (H30 : List.length (drop 44 (blob_bytes
                  (bufferToWav fifteenStore fifteenBuffer))) = 30%nat).
  { rewrite payload_bufferToWav, length_pcm, Hl. reflexivity. }
  exists h', b'. split; [exact Hok|]. split; [lia|].
  split; [exact H28|]. split; [exact H30|].
  intros Heq. rewrite Heq, H30 in H28. discriminate H28.
Qed.

(** C8, counterexample - on the four-frame buffer the range from 1/8192 s
    to 6/8192 s gives a valid slice of five frames: the slice is longer than
    its source, not smaller. *)
Lemma slice_longer_counterexample :
  wf_buffer store0 buffer0
  ∧ AudioBuffer.length buffer0 = 4%nat
  ∧ ∃ h' b',
      trimAudio store0 buffer0 (atFrame 1) (atFrame 6) = Ok (h', b')
      ∧ wf_buffer h' b'
      ∧ AudioBuffer.length b' = 5%nat
      ∧ ¬ (AudioBuffer.length b' < AudioBuffer.length buffer0)%nat.
Proof.
  split; [exact wf_buffer0|]. split; [reflexivity|].
  destruct (trimAudio_ok store0 buffer0 (atFrame 1) (atFrame 6) wf_buffer0)
    as (h' & b' & Hok & _ & Hlen & _);
    [apply Z.ltb_lt; vm_compute; reflexivity|].
  destruct (trimAudio_wf _ _ _ _ h' b' wf_buffer0 Hok) as (_ & Hwf' & _).
  assert (H5 : AudioBuffer.length b' = 5%nat).
  { apply Nat2Z.inj. rewrite Hlen. vm_compute. reflexivity. }
  exists h', b'. split; [exact Hok|]. split; [exact Hwf'|].
  split; [exact H5|]. rewrite H5. simpl. lia.
Qed.

(** ** The theorems at concrete inputs *)

Lemma Qcle_by_compute (x y : Qc) : bool_decide (x ≤ y)%Qc = true → (x ≤ y)%Qc.
Proof. apply bool_decide_eq_true_1. Qed.

Lemma trimAudio_fails_iff_witness :
  wf_buffer store0 buffer0
  ∧ floor (atFrame 1 * Qc_of_Z (AudioBuffer.sampleRate buffer0))
    ≤ floor (atFrame 3 * Qc_of_Z (AudioBuffer.sampleRate buffer0))
  ∧ trimAudio store0 buffer0 (atFrame 3) (atFrame 1) = Throw NotSupportedError.
Proof.
  split; [exact wf_buffer0|].
  split; [apply Z.leb_le; vm_compute; reflexivity|].
  apply (proj1 (trimAudio_fails_iff store0 buffer0 (atFrame 3) (atFrame 1)
                  wf_buffer0)).
  apply Z.leb_le. vm_compute. reflexivity.
Defined.

Lemma trimAudio_slice_witness :
  wf_buffer store0 buffer0
  ∧ ∃ h' b', trimAudio store0 buffer0 (atFrame 1) (atFrame 3) = Ok (h', b')
      ∧ Z.of_nat (AudioBuffer.length b') = 2.
Proof.
  split; [exact wf_buffer0|].
  destruct (trimAudio_slice store0 buffer0 (atFrame 1) (atFrame 3)
              wf_buffer0)
    as (h' & b' & Hok & Hlen & _).
  - apply Z.leb_le. vm_compute. reflexivity.
  - apply Z.leb_le. vm_compute. reflexivity.
  - apply Z.ltb_lt. vm_compute. reflexivity.
  - exists h', b'. split; [exact Hok|exact Hlen].
Defined.

Lemma quantize_truncates_witness :
  (0 ≤ scaled (Q2Qc (1 # 2)))%Qc
  ∧ (Qc_of_Z (quantize (Fin (Q2Qc (1 # 2)))) ≤ scaled (Q2Qc (1 # 2)))%Qc.
Proof.
  assert (H : (0 ≤ scaled (Q2Qc (1 # 2)))%Qc).
  { apply Qcle_by_compute. vm_compute. reflexivity. }
  split; [exact H|].
  destruct (quantize_truncates (Q2Qc (1 # 2))) as (_ & _ & Hpos & _).
  exact (proj1 (Hpos H)).
Defined.

Lemma bufferToWav_layout_witness :
  wf_buffer store0 buffer0
  ∧ take 44 (blob_bytes (bufferToWav store0 buffer0)) = wavHeader_spec 2 8192 4.
Proof.
  split; [exact wf_buffer0|].
  exact (proj1 (bufferToWav_layout store0 buffer0 wf_buffer0)).
Defined.

Lemma applyFade_ramps_witness :
  wf_buffer store0 buffer0
  ∧ (applyFade store0 buffer0 (atFrame 2) (atFrame 3)).2 = buffer0
  ∧ channelSamples (applyFade store0 buffer0 (atFrame 2) (atFrame 3)).1
      buffer0 0 !! 3%nat
    = Some (fadeOutScale 4 3 3 (fadeInScale 2 3 (eighths 4))).
Proof.
  split; [exact wf_buffer0|].
  destruct (applyFade_ramps store0 buffer0 (atFrame 2) (atFrame 3)
              wf_buffer0)
    as (Hb & _ & _ & Hval & _).
  split; [exact Hb|].
  apply (Hval 0%nat 3%nat (eighths 4)).
  - vm_compute. lia.
  - vm_compute. reflexivity.
Defined.

Lemma normalize_idempotent_witness :
  wf_buffer store0 buffer0
  ∧ normalize (normalize store0 buffer0).1 (normalize store0 buffer0).2
    = normalize store0 buffer0.
Proof.
  split; [exact wf_buffer0|].
  exact (proj1 (normalize_idempotent store0 buffer0 wf_buffer0)).
Defined.

Lemma timeToSeconds_weighted_sum_witness :
  split_colon "01:02:03.500" = ["01"; "02"; "03.500"]%string
  ∧ ∃ x y z,
      parseFloat "01" = Fin x ∧ parseFloat "02" = Fin y
      ∧ parseFloat "03.500" = Fin z
      ∧ timeToSeconds "01:02:03.500"
        = Fin (x * Qc_of_Z 3600 + y * Qc_of_Z 60 + z)%Qc.
Proof.
  assert (Hs : split_colon "01:02:03.500" = ["01"; "02"; "03.500"]%string).
  { vm_compute. reflexivity. }
  split; [exact Hs|].
  destruct (parseFloat "01") as [x| | |] eqn:H0;
    try (vm_compute in H0; discriminate H0).
  destruct (parseFloat "02") as [y| | |] eqn:H1;
    try (vm_compute in H1; discriminate H1).
  destruct (parseFloat "03.500") as [z| | |] eqn:H2;
    try (vm_compute in H2; discriminate H2).
  exists x, y, z. split; [reflexivity|]. split; [reflexivity|].
  split; [reflexivity|].
  destruct timeToSeconds_weighted_sum as (H3 & _).
  exact (proj2 (H3 _ _ _ _ Hs) x y z H0 H1 H2).
Defined.

Lemma transforms_preserve_invariant_witness :
  wf_buffer store0 buffer0
  ∧ wf_buffer (applyGain store0 buffer0 (eighths 5)).1 buffer0.
Proof.
  split; [exact wf_buffer0|].
  destruct (transforms_preserve_invariant store0 buffer0 wf_buffer0)
    as (_ & _ & Hgain & _).
  exact (proj2 (Hgain (eighths 5))).
Defined.

Lemma slice_whole_then_encode_witness :
  wf_buffer store0 buffer0
  ∧ 1 ≤ floor (AudioBuffer.duration buffer0
               * Qc_of_Z (AudioBuffer.sampleRate buffer0))
      ≤ Z.of_nat (AudioBuffer.length buffer0)
  ∧ ∃ h' b',
      trimAudio store0 buffer0 0%Qc (AudioBuffer.duration buffer0) = Ok (h', b')
      ∧ bufferToWav h' b' = bufferToWav store0 buffer0.
Proof.
  split; [exact wf_buffer0|].
  assert (Hidx : floor (AudioBuffer.duration buffer0
                        * Qc_of_Z (AudioBuffer.sampleRate buffer0)) = 4)
    by (vm_compute; reflexivity).
  assert (Hin : 1 ≤ floor (AudioBuffer.duration buffer0
                           * Qc_of_Z (AudioBuffer.sampleRate buffer0))
                  ≤ Z.of_nat (AudioBuffer.length buffer0))
    by (rewrite Hidx; simpl; lia).
  split; [exact Hin|].
  destruct (proj1 (slice_whole_then_encode store0 buffer0 wf_buffer0)
              (AudioBuffer.duration buffer0) Hin)
    as (h' & b' & Hok & _ & _ & Hblob & _).
  exists h', b'. split; [exact Hok|]. apply Hblob. exact Hidx.
Defined.

Lemma trimAudio_unchecked_witness :
  wf_buffer store0 buffer0
  ∧ ∃ h' b',
      trimAudio store0 buffer0 (atFrame 1) (atFrame 6) = Ok (h', b')
      ∧ Z.of_nat (AudioBuffer.length b') = 5
      ∧ channelSamples h' b' 0 !! 4%nat = Some NaN.
Proof.
  split; [exact wf_buffer0|].
  destruct (trimAudio_unchecked store0 buffer0 (atFrame 1) (atFrame 6)
              wf_buffer0)
    as (h' & b' & Hok & Hlen & Hval).
  - apply Z.leb_le. vm_compute. reflexivity.
  - apply Z.ltb_lt. vm_compute. reflexivity.
  - exists h', b'. split; [exact Hok|]. split; [exact Hlen|].
    apply (Hval 0%nat 4%nat).
    + vm_compute. lia.
    + apply Nat2Z.inj_lt. rewrite Hlen. vm_compute. reflexivity.
    + apply Z.leb_le. vm_compute. reflexivity.
Defined.

(** ** Evaluations *)

Example quantize_values :
  quantize <$> [eighths 1; eighths (-1); eighths 12; eighths (-12);
                ofQ (99999 # 100000); ofQ (-1 # 100000); NaN; PInf; NInf]
  = [4095; -4096; 32767; -32768; 32766; 0; 0; 32767; -32768].
Proof. vm_compute. reflexivity. Qed.

Example bufferToWav_buffer0 :
  blob_bytes (bufferToWav store0 buffer0)
  = [82; 73; 70; 70; 52; 0; 0; 0; 87; 65; 86; 69; 102; 109; 116; 32;
     16; 0; 0; 0; 1; 0; 2; 0; 0; 32; 0; 0; 0; 128; 0; 0; 4; 0; 16; 0;
     100; 97; 116; 97; 16; 0; 0; 0;
     255; 15; 0; 240; 255; 31; 0; 224; 255; 47; 0; 208; 255; 63; 0; 192].
Proof. vm_compute. reflexivity. Qed.

Example trimAudio_buffer0 :
  match trimAudio store0 buffer0 (atFrame 1) (atFrame 3) with
  | Ok (h', b') =>
      channelSamples h' b' 0 = [eighths 2; eighths 3]
      ∧ channelSamples h' b' 1 = [eighths (-2); eighths (-3)]
      ∧ AudioBuffer.channels b' = [3%positive; 4%positive]
  | Throw _ => False
  end.
Proof. vm_compute. repeat split. Qed.

Example trimAudio_past_end_buffer0 :
  match trimAudio store0 buffer0 (atFrame 3) (atFrame 6) with
  | Ok (h', b') => channelSamples h' b' 0 = [eighths 4; NaN; NaN]
  | Throw _ => False
  end.
Proof. vm_compute. reflexivity. Qed.

Example applyFade_buffer0 :
  bool_decide
    (channelSamples (applyFade store0 buffer0 (atFrame 2) (atFrame 3)).1
       buffer0 0
     = [ofQ 0; ofQ (1 # 8); ofQ (1 # 4); ofQ (1 # 6)]) = true.
Proof. vm_compute. reflexivity. Qed.

Example normalize_buffer0 :
  bool_decide
    (channelSamples (normalize store0 buffer0).1 buffer0 1
     = [ofQ (-19 # 80); ofQ (-19 # 40); ofQ (-57 # 80); ofQ (-19 # 20)]) = true.
Proof. vm_compute. reflexivity. Qed.

Example timeToSeconds_values :
  bool_decide
    (timeToSeconds <$> ["1:2:3:4"; "Infinity:-Infinity"; ""; " -1.5e2x"; "1:x"]%string
     = [ofQ 0; ofQ 0; ofQ 0; ofQ (-150); ofQ 0]) = true.
Proof. vm_compute. reflexivity. Qed.

(** * Further properties of the code *)

(** ** applyGain *)

Lemma sign_mul (a b : Qc) : sign (Fin (a * b)%Qc) = sign (Fin a) * sign (Fin b).
Proof.
  unfold sign.
  destruct (Qclt_le_dec 0 a) as [Ha|Ha], (Qclt_le_dec 0 b) as [Hb|Hb];
    repeat case_bool_decide; try lia; exfalso;
    repeat match goal with
    | H : ¬ (_ < _)%Qc |- _ => apply Qcnot_lt_le in H
    end.
  all: try (apply Qcle_lt_or_eq in Ha as [Ha| ->]; [|rewrite ?Qcmult_0_l in *]).
  all: try (apply Qcle_lt_or_eq in Hb as [Hb| ->]; [|rewrite ?Qcmult_0_r in *]).
  all: try (by eapply Qclt_irrefl).
  all: try (by eapply Qclt_irrefl, Qclt_le_trans).
  all: try (by eapply Qclt_irrefl, Qclt_trans).
  all: qc_to_q; nra.
Qed.

Lemma sign_cases x : sign x = -1 ∨ sign x = 0 ∨ sign x = 1.
Proof. destruct x; simpl; repeat case_bool_decide; lia. Qed.

Lemma mul_inf_of_sign (k : Z) (b : Qc) :
  k = -1 ∨ k = 0 ∨ k = 1 →
  mul (inf_of_sign k) (Fin b) = inf_of_sign (k * sign (Fin b)).
Proof. by intros [->|[->| ->]]. Qed.

Lemma mul_mul_fin x (a b : Qc) :
  mul (mul x (Fin a)) (Fin b) = mul x (Fin (a * b)%Qc).
Proof.
  destruct x as [q| | |]; [simpl; by rewrite Qcmult_assoc| | |done].
  - change (mul PInf (Fin a)) with (inf_of_sign (1 * sign (Fin a))).
    change (mul PInf (Fin (a * b)%Qc))
      with (inf_of_sign (1 * sign (Fin (a * b)%Qc))).
    rewrite sign_mul, mul_inf_of_sign; [f_equal; lia|].
    destruct (sign_cases (Fin a)) as [->|[->| ->]]; lia.
  - change (mul NInf (Fin a)) with (inf_of_sign (-1 * sign (Fin a))).
    change (mul NInf (Fin (a * b)%Qc))
      with (inf_of_sign (-1 * sign (Fin (a * b)%Qc))).
    rewrite sign_mul, mul_inf_of_sign; [f_equal; lia|].
    destruct (sign_cases (Fin a)) as [->|[->| ->]]; lia.
Qed.

(** X1 - [applyGain] multiplies every sample of every channel by the gain,
    in place: it returns the buffer it was given, every other array of the
    store is left as it was, and no channel changes length. *)
Theorem applyGain_scales h b gain :
  wf_buffer h b →
  (applyGain h b gain).2 = b
  ∧ (∀ l, l ∉ AudioBuffer.channels b → (applyGain h b gain).1 !! l = h !! l)
  ∧ (∀ c, (c < AudioBuffer.numberOfChannels b)%nat →
       List.length (channelSamples (applyGain h b gain).1 b c)
       = AudioBuffer.length b)
  ∧ (∀ c j x, (c < AudioBuffer.numberOfChannels b)%nat →
       channelSamples h b c !! j = Some x →
       channelSamples (applyGain h b gain).1 b c !! j = Some (mul x gain)).
Proof.
  intros Hwf.
  destruct (applyGain_spec h b gain Hwf) as (Hb & Hwf' & Hother & _ & Hch).
  cbv zeta in Hwf', Hother, Hch.
  split; [done|]. split; [done|]. split.
  - intros c Hc. by destruct (wf_channel_length _ b c Hwf' Hc) as [_ ?].
  - intros c j x Hc Hx. by rewrite (Hch c Hc), list_lookup_fmap, Hx.
Qed.

(** X2 - gains compose: applying a finite gain [g1] and then a finite gain
    [g2] leaves the store exactly as one application of [g1 * g2] does
    (exact arithmetic); in particular gain 1 changes nothing. *)
Theorem applyGain_compose h b (g1 g2 : Qc) :
  wf_buffer h b →
  applyGain (applyGain h b (Fin g1)).1 b (Fin g2)
  = applyGain h b (Fin (g1 * g2)%Qc)
  ∧ applyGain h b (Fin 1%Qc) = (h, b).
Proof.
  intros Hwf. split; [|by apply applyGain_one].
  destruct (applyGain_spec h b (Fin g1) Hwf) as (_ & Hwf1 & Hother1 & Hin1 & _).
  destruct (applyGain_spec _ b (Fin g2) Hwf1) as (_ & _ & Hother2 & Hin2 & _).
  destruct (applyGain_spec h b (Fin (g1 * g2)%Qc) Hwf)
    as (_ & _ & Hother & Hin & _).
  cbv zeta in *.
  rewrite (surjective_pairing (applyGain _ b (Fin g2))).
  rewrite (surjective_pairing (applyGain h b (Fin (g1 * g2)%Qc))).
  f_equal. apply map_eq. intros l.
  destruct (decide (l ∈ AudioBuffer.channels b)) as [Hl|Hl].
  - destruct (wf_arrays _ _ Hwf l Hl) as (a & Ha & _).
    rewrite (Hin2 l _ Hl (Hin1 l a Hl Ha)), (Hin l a Hl Ha).
    f_equal. rewrite <- list_fmap_compose. apply list_fmap_ext.
    intros _ x _. apply mul_mul_fin.
  - by rewrite Hother2, Hother1, Hother.
Qed.

(** ** The peak scan and normalize *)

Lemma peak_NaN_l xs : peak NaN xs = NaN.
Proof. induction xs as [|x xs IH]; [done|]. exact IH. Qed.

Lemma peak_NaN_in m xs : NaN ∈ xs → peak m xs = NaN.
Proof.
  revert m. induction xs as [|x xs IH]; intros m Hin; [by apply elem_of_nil in Hin|].
  apply elem_of_cons in Hin as [<-|Hin].
  - unfold peak. simpl. replace (max m NaN) with NaN by (by destruct m).
    apply peak_NaN_l.
  - apply (IH _ Hin).
Qed.

Lemma peak_finite (m : Qc) xs :
  (0 ≤ m)%Qc →
  Forall (λ x, ∃ q, x = Fin q) xs →
  ∃ p, peak (Fin m) xs = Fin p ∧ (m ≤ p)%Qc
    ∧ (∀ q, Fin q ∈ xs → (- p ≤ q)%Qc ∧ (q ≤ p)%Qc)
    ∧ (p = m ∨ ∃ q, Fin q ∈ xs ∧ (p = q ∨ p = (- q)%Qc)).
Proof.
  intros Hm Hfin. revert m Hm.
  induction Hfin as [|x xs [q ->] Hfin IH]; intros m Hm.
  - exists m. split; [done|]. split; [apply Qcle_refl|]. split; [|by left].
    intros q Hq. by apply elem_of_nil in Hq.
  - set (aq := (if bool_decide (q < 0)%Qc then - q else q)%Qc).
    set (m' := (if bool_decide (m < aq)%Qc then aq else m)).
    assert (Hstep : max (Fin m) (abs (Fin q)) = Fin m').
    { unfold max, abs, lt. fold aq. subst m'. by case_bool_decide. }
    assert (Haq : (- aq ≤ q)%Qc ∧ (q ≤ aq)%Qc ∧ (0 ≤ aq)%Qc
                  ∧ (aq = q ∨ aq = (- q)%Qc)).
    { subst aq. case_bool_decide as Hq.
      - repeat split; [qc_to_q; lra..|by right].
      - repeat split; [qc_to_q; lra..|by left]. }
    destruct Haq as (Hq1 & Hq2 & Hq0 & Hqeq).
    assert (Hm' : (m ≤ m')%Qc ∧ (aq ≤ m')%Qc ∧ (m' = m ∨ m' = aq)).
    { subst m'. case_bool_decide as Hlt.
      - repeat split; [qc_to_q; lra..|by right].
      - repeat split; [qc_to_q; lra..|by left]. }
    destruct Hm' as (Hmm & Hqm & Hmeq).
    destruct (IH m') as (p & Hp & Hle & Hbound & Hatt).
    { eapply Qcle_trans; [exact Hm|exact Hmm]. }
    exists p.
    change (peak (Fin m) (Fin q :: xs))
      with (peak (max (Fin m) (abs (Fin q))) xs).
    rewrite Hstep. split; [done|]. split; [by eapply Qcle_trans|]. split.
    + intros q' [Heq|Hin]%elem_of_cons; [|by apply Hbound].
      injection Heq as ->.
      assert (aq ≤ p)%Qc by (by eapply Qcle_trans).
      split; qc_to_q; lra.
    + destruct Hatt as [->|(q' & Hin & Hq')].
      * destruct Hmeq as [->| ->]; [by left|].
        right. exists q. split; [by left|done].
      * right. exists q'. split; [by right|done].
Qed.

Lemma maxAmplitude_finite_bounds h b :
  wf_buffer h b →
  (∀ c j x, (c < AudioBuffer.numberOfChannels b)%nat →
     channelSamples h b c !! j = Some x → ∃ q, x = Fin q) →
  ∃ p, maxAmplitude h b = Fin p ∧ (0 ≤ p)%Qc
    ∧ (∀ c j q, (c < AudioBuffer.numberOfChannels b)%nat →
         channelSamples h b c !! j = Some (Fin q) →
         (- p ≤ q)%Qc ∧ (q ≤ p)%Qc)
    ∧ (p = 0%Qc
       ∨ ∃ c j q, (c < AudioBuffer.numberOfChannels b)%nat
           ∧ channelSamples h b c !! j = Some (Fin q)
           ∧ (p = q ∨ p = (- q)%Qc)).
Proof.
  intros Hwf Hfin. rewrite maxAmplitude_peak by done.
  cut (∀ n, (n ≤ AudioBuffer.numberOfChannels b)%nat →
    ∃ p, for_loop n (λ c m, peak m (channelSamples h b c)) (Fin 0%Qc) = Fin p
      ∧ (0 ≤ p)%Qc
      ∧ (∀ c j q, (c < n)%nat →
           channelSamples h b c !! j = Some (Fin q) →
           (- p ≤ q)%Qc ∧ (q ≤ p)%Qc)
      ∧ (p = 0%Qc
         ∨ ∃ c j q, (c < n)%nat
             ∧ channelSamples h b c !! j = Some (Fin q)
             ∧ (p = q ∨ p = (- q)%Qc))).
  { intros H. destruct (H _ (le_n _)) as (p & Hp & H0 & Hb & Ha).
    exists p. split; [done|]. split; [done|]. split; [done|].
    destruct Ha as [Ha|(c & j & q & Hc & Hq & Hpq)]; [by left|].
    right. by exists c, j, q. }
  induction n as [|n IH]; intros Hn.
  - exists 0%Qc. split; [done|]. split; [apply Qcle_refl|].
    split; [intros; lia|by left].
  - destruct IH as (p0 & Hp0 & H0 & Hb0 & Ha0); [lia|].
    rewrite for_loop_S, Hp0.
    destruct (peak_finite p0 (channelSamples h b n) H0)
      as (p & Hp & Hle & Hbound & Hatt).
    { apply Forall_lookup. intros j x Hx. apply (Hfin n j x); [lia|done]. }
    exists p. split; [done|]. split; [by eapply Qcle_trans|]. split.
    + intros c j q Hc Hq. destruct (decide (c = n)) as [->|Hne].
      * apply Hbound. by eapply list_elem_of_lookup_2.
      * destruct (Hb0 c j q) as [H1 H2]; [lia|done|].
        split; qc_to_q; lra.
    + destruct Hatt as [->|(q & [j Hj]%list_elem_of_lookup_1 & Hq)].
      * destruct Ha0 as [Ha0|(c & j & q & Hc & Hq & Hpq)]; [by left|].
        right. exists c, j, q. split; [lia|done].
      * right. exists n, j, q. split; [lia|done].
Qed.

Lemma maxAmplitude_NaN h b c j :
  wf_buffer h b →
  (c < AudioBuffer.numberOfChannels b)%nat →
  channelSamples h b c !! j = Some NaN →
  maxAmplitude h b = NaN.
Proof.
  intros Hwf Hc Hj. rewrite maxAmplitude_peak by done.
  cut (∀ n, (c < n)%nat →
    for_loop n (λ c m, peak m (channelSamples h b c)) (Fin 0%Qc) = NaN).
  { intros H. by apply H. }
  induction n as [|n IH]; intros Hn; [lia|].
  rewrite for_loop_S. destruct (decide (c = n)) as [->|Hne].
  - apply peak_NaN_in. by eapply list_elem_of_lookup_2.
  - rewrite IH by lia. apply peak_NaN_l.
Qed.

(** X3 - the peak scan of [normalize] on a buffer whose samples are all
    finite: the result is finite and non-negative, no sample exceeds it in
    absolute value, and it is 0 or the absolute value of one of the
    samples. *)
Theorem maxAmplitude_finite h b :
  wf_buffer h b →
  (∀ c j x, (c < AudioBuffer.numberOfChannels b)%nat →
     channelSamples h b c !! j = Some x → ∃ q, x = Fin q) →
  ∃ p, maxAmplitude h b = Fin p ∧ (0 ≤ p)%Qc
    ∧ (∀ c j q, (c < AudioBuffer.numberOfChannels b)%nat →
         channelSamples h b c !! j = Some (Fin q) →
         (- p ≤ q)%Qc ∧ (q ≤ p)%Qc)
    ∧ (p = 0%Qc
       ∨ ∃ c j q, (c < AudioBuffer.numberOfChannels b)%nat
           ∧ channelSamples h b c !! j = Some (Fin q)
           ∧ (p = q ∨ p = (- q)%Qc)).
Proof. apply maxAmplitude_finite_bounds. Qed.

(** X4 - one NaN sample anywhere in the buffer makes the peak NaN, and
    [normalize] then returns the buffer unchanged: a buffer that holds NaN
    (for instance the frames a slice read past the end of its source) is
    never normalized. *)
Theorem normalize_NaN_unchanged h b c j :
  wf_buffer h b →
  (c < AudioBuffer.numberOfChannels b)%nat →
  channelSamples h b c !! j = Some NaN →
  maxAmplitude h b = NaN ∧ normalize h b = (h, b).
Proof.
  intros Hwf Hc Hj. pose proof (maxAmplitude_NaN h b c j Hwf Hc Hj) as Hm.
  split; [done|]. unfold normalize, gt. by rewrite Hm.
Qed.

(** X5 - when all samples are finite and the peak [p] lies strictly between
    0 and 1, [normalize] replaces every sample [q] by [q * (0.95 / p)] and
    the result never exceeds 0.95 in absolute value (exact arithmetic). *)
Theorem normalize_headroom h b p :
  wf_buffer h b →
  (∀ c j x, (c < AudioBuffer.numberOfChannels b)%nat →
     channelSamples h b c !! j = Some x → ∃ q, x = Fin q) →
  maxAmplitude h b = Fin p → (0 < p)%Qc → (p < 1)%Qc →
  ∀ c j q, (c < AudioBuffer.numberOfChannels b)%nat →
    channelSamples h b c !! j = Some (Fin q) →
    channelSamples (normalize h b).1 b c !! j
    = Some (Fin (q * (headroom / p))%Qc)
    ∧ (- headroom ≤ q * (headroom / p))%Qc
    ∧ (q * (headroom / p) ≤ headroom)%Qc.
Proof.
  intros Hwf Hfin Hm H0 H1 c j q Hc Hq.
  rewrite (normalize_scaled h b p Hm H0 H1).
  destruct (applyGain_spec h b (Fin (headroom / p)%Qc) Hwf)
    as (_ & _ & _ & _ & Hch).
  cbv zeta in Hch. rewrite (Hch c Hc), list_lookup_fmap, Hq.
  split; [done|].
  destruct (maxAmplitude_finite_bounds h b Hwf Hfin)
    as (p' & Hp' & _ & Hbound & _).
  rewrite Hm in Hp'. injection Hp' as <-.
  destruct (Hbound c j q Hc Hq) as [Hlo Hhi].
  assert (Hp : p ≠ 0%Qc) by (intros ->; by apply Qclt_irrefl in H0).
  assert (Hg : (0 ≤ headroom / p)%Qc).
  { apply Qclt_le_weak, Qcmult_pos_pos; [done|]. by apply Qcinv_pos. }
  pose proof (Qcmult_div_r headroom p Hp) as Hpg.
  pose proof (Qcmult_le_mono_nonneg_r _ _ _ Hg Hhi) as Hup.
  pose proof (Qcmult_le_mono_nonneg_r _ _ _ Hg Hlo) as Hdown.
  rewrite Hpg in Hup.
  replace (- p * (headroom / p))%Qc with (- (p * (headroom / p)))%Qc in Hdown
    by ring.
  rewrite Hpg in Hdown. done.
Qed.

(** ** applyFade at its ends *)

Lemma applyFade_sample h b fadeIn fadeOut c j x :
  wf_buffer h b →
  (c < AudioBuffer.numberOfChannels b)%nat →
  channelSamples h b c !! j = Some x →
  channelSamples (applyFade h b fadeIn fadeOut).1 b c !! j
  = Some (fadeOutScale (Z.of_nat (AudioBuffer.length b))
            (floor (fadeOut * Qc_of_Z (AudioBuffer.sampleRate b))) (Z.of_nat j)
            (fadeInScale (floor (fadeIn * Qc_of_Z (AudioBuffer.sampleRate b)))
               (Z.of_nat j) x)).
Proof.
  intros Hwf Hc Hj.
  destruct (applyFade_inplace h b fadeIn fadeOut Hwf) as (_ & _ & _ & _ & Hch).
  cbv zeta in Hch. rewrite (Hch c Hc).
  destruct (wf_channel_length h b c Hwf Hc) as [_ Hlen].
  set (fis := floor (fadeIn * Qc_of_Z (AudioBuffer.sampleRate b))).
  set (fos := floor (fadeOut * Qc_of_Z (AudioBuffer.sampleRate b))).
  destruct (fadeInLoop_spec fis (channelSamples h b c)) as [Hlen1 Hval1].
  destruct (fadeOutLoop_spec fos (fadeInLoop fis (channelSamples h b c)))
    as [_ Hval2].
  rewrite Hlen1, Hlen in Hval2. apply Hval2, Hval1, Hj.
Qed.

(** X6 - the two ramps are not symmetric.  A fade-in of at least one sample
    multiplies the first sample of every channel by 0; a fade-out of
    [fadeOutSamples >= 1] samples multiplies the last sample by
    [1 / fadeOutSamples], so the last sample is never brought to silence
    (each stated where the other ramp does not reach). *)
Theorem applyFade_endpoints h b fadeIn fadeOut :
  wf_buffer h b →
  let fadeInSamples := floor (fadeIn * Qc_of_Z (AudioBuffer.sampleRate b)) in
  let fadeOutSamples := floor (fadeOut * Qc_of_Z (AudioBuffer.sampleRate b)) in
  let frameCount := AudioBuffer.length b in
  let h' := (applyFade h b fadeIn fadeOut).1 in
  (1 ≤ fadeInSamples → fadeOutSamples < Z.of_nat frameCount →
   ∀ c x, (c < AudioBuffer.numberOfChannels b)%nat →
     channelSamples h b c !! 0%nat = Some x →
     channelSamples h' b c !! 0%nat = Some (mul x (Fin 0%Qc)))
  ∧ (1 ≤ fadeOutSamples → fadeInSamples < Z.of_nat frameCount →
     ∀ c x, (c < AudioBuffer.numberOfChannels b)%nat →
       channelSamples h b c !! (frameCount - 1)%nat = Some x →
       channelSamples h' b c !! (frameCount - 1)%nat
       = Some (mul x (Fin (1 / Qc_of_Z fadeOutSamples)%Qc))).
Proof.
  intros Hwf fadeInSamples fadeOutSamples frameCount h'. split.
  - intros Hin Hout c x Hc Hx. subst h'.
    rewrite (applyFade_sample h b fadeIn fadeOut c 0 x Hwf Hc Hx).
    fold fadeInSamples fadeOutSamples. f_equal.
    unfold fadeOutScale, fadeInScale.
    destruct (Z.leb_spec (Z.of_nat (AudioBuffer.length b) - fadeOutSamples)
                (Z.of_nat 0)); [unfold frameCount in *; lia|].
    destruct (Z.ltb_spec (Z.of_nat 0) fadeInSamples); [|lia].
    replace (Qc_of_Z (Z.of_nat 0) / Qc_of_Z fadeInSamples)%Qc with 0%Qc;
      [done|].
    change (Z.of_nat 0) with 0. rewrite Z2Qc_inj_0. symmetry.
    apply Qcmult_0_l.
  - intros Hout Hin c x Hc Hx. subst h'.
    destruct (wf_channel_length h b c Hwf Hc) as [_ Hlen].
    pose proof (lookup_lt_Some _ _ _ Hx) as Hlt. rewrite Hlen in Hlt.
    rewrite (applyFade_sample h b fadeIn fadeOut c _ x Hwf Hc Hx).
    fold fadeInSamples fadeOutSamples frameCount. f_equal.
    unfold fadeOutScale, fadeInScale.
    destruct (Z.ltb_spec (Z.of_nat (frameCount - 1)) fadeInSamples);
      [unfold frameCount in *; lia|].
    destruct (Z.leb_spec (Z.of_nat frameCount - fadeOutSamples)
                (Z.of_nat (frameCount - 1))); [|unfold frameCount in *; lia].
    do 2 f_equal.
    replace (Z.of_nat (frameCount - 1) - (Z.of_nat frameCount - fadeOutSamples))
      with (fadeOutSamples - 1) by (unfold frameCount in *; lia).
    rewrite Z2Qc_inj_sub, Z2Qc_inj_1.
    assert (Qc_of_Z fadeOutSamples ≠ 0%Qc).
    { rewrite <- Z2Qc_inj_0. intros H'%Z2Qc_inj. lia. }
    by field.
Qed.

(** X7 - durations that do not reach one whole sample (zero, negative, or
    shorter than a sample period) make both loops of [applyFade] run zero
    times: the store and the buffer come back unchanged. *)
Theorem applyFade_subsample h b fadeIn fadeOut :
  wf_buffer h b →
  floor (fadeIn * Qc_of_Z (AudioBuffer.sampleRate b)) ≤ 0 →
  floor (fadeOut * Qc_of_Z (AudioBuffer.sampleRate b)) ≤ 0 →
  applyFade h b fadeIn fadeOut = (h, b).
Proof.
  intros Hwf Hi Ho.
  destruct (applyFade_inplace h b fadeIn fadeOut Hwf)
    as (Hb & _ & Hother & Hin & _).
  cbv zeta in Hother, Hin.
  rewrite (surjective_pairing (applyFade h b fadeIn fadeOut)), Hb. f_equal.
  apply map_eq. intros l.
  destruct (decide (l ∈ AudioBuffer.channels b)) as [Hl|Hl]; [|by apply Hother].
  destruct (wf_arrays _ _ Hwf l Hl) as (a & Ha & _).
  rewrite (Hin l Hl), Ha, (lookup_total_correct _ _ _ Ha).
  unfold fadeOutLoop, fadeInLoop. by rewrite !Z2Nat.nonpos by done.
Qed.

(** ** Slices that start before the buffer *)

(** X8 - a negative start index is not rejected either: the slice is
    returned with [endIndex - startIndex] frames, its first [- startIndex]
    frames (those before the source) are NaN, and the frames that fall
    inside the source are copies. *)
Theorem trimAudio_negative_start h b startTime endTime :
  wf_buffer h b →
  let startIndex := floor (startTime * Qc_of_Z (AudioBuffer.sampleRate b)) in
  let endIndex := floor (endTime * Qc_of_Z (AudioBuffer.sampleRate b)) in
  startIndex < 0 → startIndex < endIndex →
  ∃ h' b',
    trimAudio h b startTime endTime = Ok (h', b')
    ∧ Z.of_nat (AudioBuffer.length b') = endIndex - startIndex
    ∧ ∀ c i, (c < AudioBuffer.numberOfChannels b)%nat →
        (i < AudioBuffer.length b')%nat →
        (startIndex + Z.of_nat i < 0 →
           channelSamples h' b' c !! i = Some NaN)
        ∧ (0 ≤ startIndex + Z.of_nat i < Z.of_nat (AudioBuffer.length b) →
           channelSamples h' b' c !! i
           = channelSamples h b c !! Z.to_nat (startIndex + Z.of_nat i)).
Proof.
  intros Hwf startIndex endIndex Hneg Hlt.
  destruct (trimAudio_ok h b startTime endTime Hwf Hlt)
    as (h' & b' & Hok & _ & Hlen & _ & _ & _ & _ & Hch).
  fold startIndex endIndex in Hlen, Hch.
  exists h', b'. split; [done|]. split; [done|].
  intros c i Hc Hi. destruct (Hch c Hc) as (_ & _ & Hval).
  rewrite (Hval i Hi).
  destruct (wf_channel_length h b c Hwf Hc) as [_ Hlenc]. split.
  - intros Hbefore. rewrite read_None; [done|]. by left.
  - intros Hin.
    replace (startIndex + Z.of_nat i)
      with (Z.of_nat (Z.to_nat (startIndex + Z.of_nat i))) at 1 by lia.
    rewrite read_nat.
    destruct (lookup_lt_is_Some_2 (channelSamples h b c)
                (Z.to_nat (startIndex + Z.of_nat i))) as [x Hx]; [lia|].
    by rewrite Hx.
Qed.

(** ** Bytes: writeString, the header fields, the PCM pairs *)

Lemma charCodeAt_range s i : 0 ≤ charCodeAt s i < 256.
Proof.
  unfold charCodeAt. destruct (String.get i s) as [c|]; [|lia].
  pose proof (nat_ascii_bounded c). lia.
Qed.

(** X9 - [writeString] inside the view: byte [offset + i] becomes the
    character code of character [i] of the string, for every [i] below its
    length; all other bytes and the length of the view are unchanged. *)
Theorem writeString_bytes (view : list Z) offset s :
  (offset + String.length s ≤ List.length view)%nat →
  List.length (writeString view offset s) = List.length view
  ∧ (∀ i, (i < String.length s)%nat →
       writeString view offset s !! (offset + i)%nat = Some (charCodeAt s i))
  ∧ (∀ k, (k < offset ∨ offset + String.length s ≤ k)%nat →
       writeString view offset s !! k = view !! k).
Proof.
  intros Hfit. unfold writeString.
  apply (for_loop_inv (λ n v,
    (n ≤ String.length s)%nat →
    List.length v = List.length view
    ∧ (∀ i, (i < n)%nat → v !! (offset + i)%nat = Some (charCodeAt s i))
    ∧ (∀ k, (k < offset ∨ offset + n ≤ k)%nat → v !! k = view !! k)));
    [| |lia].
  - intros _. split; [done|]. split; [intros; lia|done].
  - intros n v Hn IH Hle. destruct IH as (Hlen & Hin & Hout); [lia|].
    unfold setUint8, ToUint8.
    rewrite Z.mod_small by apply charCodeAt_range.
    split; [by rewrite length_insert|]. split.
    + intros i Hi. destruct (decide (i = n)) as [->|Hne].
      * apply list_lookup_insert_eq. lia.
      * rewrite list_lookup_insert_ne by lia. apply Hin. lia.
    + intros k Hk. rewrite list_lookup_insert_ne by lia. apply Hout. lia.
Qed.

Lemma wavHeader_spec_bytes channelCount sampleRate frameCount :
  Forall (λ byte, 0 ≤ byte < 256)
    (wavHeader_spec channelCount sampleRate frameCount).
Proof.
  unfold wavHeader_spec, le32, le16. cbv zeta.
  repeat (apply Forall_app; split);
    repeat (apply Forall_cons; split); try apply Forall_nil;
    try (apply Z.mod_pos_bound; lia); vm_compute; done.
Qed.

(** X10 - the header can be read back: with at least one channel, when the
    channel count, the byte rate and the sizes fit their fields, the fields of
    [createWavHeader] hold the channel count, the sample rate, byte rate =
    sample rate * block align, block align = 2 bytes per channel, the data
    size and the data size plus 36; and every byte of the header is a
    byte. *)
Theorem createWavHeader_fields numChannels sampleRate length :
  1 ≤ numChannels < 32768 → 0 ≤ sampleRate → 0 ≤ length →
  sampleRate * numChannels * 2 < 4294967296 →
  36 + length * numChannels * 2 < 4294967296 →
  let header := createWavHeader numChannels sampleRate length in
  field16 header 20 = 1
  ∧ field16 header 22 = numChannels
  ∧ field32 header 24 = sampleRate
  ∧ field16 header 32 = numChannels * 2
  ∧ field32 header 28 = sampleRate * field16 header 32
  ∧ field16 header 34 = 16
  ∧ field32 header 40 = length * numChannels * 2
  ∧ field32 header 4 = 36 + field32 header 40
  ∧ Forall (λ byte, 0 ≤ byte < 256) header.
Proof.
  intros Hn Hsr Hlen Hrate Hsize header. subst header.
  rewrite createWavHeader_spec.
  assert (H20 : field16 (wavHeader_spec numChannels sampleRate length) 20 = 1)
    by reflexivity.
  assert (H34 : field16 (wavHeader_spec numChannels sampleRate length) 34 = 16)
    by reflexivity.
  assert (H22 : field16 (wavHeader_spec numChannels sampleRate length) 22
                = numChannels) by (apply le16_value; lia).
  assert (H24 : field32 (wavHeader_spec numChannels sampleRate length) 24
                = sampleRate) by (apply le32_value; nia).
  assert (H32 : field16 (wavHeader_spec numChannels sampleRate length) 32
                = numChannels * 2) by (apply le16_value; lia).
  assert (H28 : field32 (wavHeader_spec numChannels sampleRate length) 28
                = sampleRate * numChannels * 2) by (apply le32_value; nia).
  assert (H40 : field32 (wavHeader_spec numChannels sampleRate length) 40
                = length * numChannels * 2) by (apply le32_value; nia).
  assert (H4 : field32 (wavHeader_spec numChannels sampleRate length) 4
               = 36 + length * numChannels * 2) by (apply le32_value; nia).
  rewrite H20, H22, H24, H32, H28, H34, H40, H4.
  repeat (split; [done || lia|]).
  apply wavHeader_spec_bytes.
Qed.

Lemma pcm_bytes (xs : list num) :
  Forall (λ byte, 0 ≤ byte < 256) (mjoin ((λ x, le16 (quantize x)) <$> xs)).
Proof.
  induction xs as [|y xs IH]; [by apply Forall_nil|].
  change (mjoin ((λ x, le16 (quantize x)) <$> y :: xs))
    with (le16 (quantize y) ++ mjoin ((λ x, le16 (quantize x)) <$> xs)).
  apply Forall_app. split; [|done]. unfold le16.
  repeat (apply Forall_cons; split); try (by apply Forall_nil);
    apply Z.mod_pos_bound; lia.
Qed.

(** X11 - the sizes the encoded file declares are its real sizes: as long
    as the file is below 4 GiB, the RIFF size field is the length of the
    file minus 8 and the data size field is the length minus the 44 bytes of
    the header; every element of the output is a byte, and the blob is
    typed [audio/wav]. *)
Theorem bufferToWav_sizes h b :
  wf_buffer h b →
  36 + 2 * (Z.of_nat (AudioBuffer.length b)
            * Z.of_nat (AudioBuffer.numberOfChannels b)) < 4294967296 →
  let bytes := blob_bytes (bufferToWav h b) in
  field32 bytes 4 = Z.of_nat (List.length bytes) - 8
  ∧ field32 bytes 40 = Z.of_nat (List.length bytes) - 44
  ∧ Forall (λ byte, 0 ≤ byte < 256) bytes
  ∧ blob_type (bufferToWav h b) = "audio/wav"%string.
Proof.
  intros Hwf Hsize bytes. subst bytes. rewrite bufferToWav_bytes.
  destruct (interleave_spec h b Hwf) as [Hlen _].
  set (nch := Z.of_nat (AudioBuffer.numberOfChannels b)) in *.
  set (len := Z.of_nat (AudioBuffer.length b)) in *.
  set (pcm := mjoin ((λ x, le16 (quantize x)) <$> interleave h b)).
  assert (Hpcm : Z.of_nat (List.length pcm) = 2 * (len * nch)).
  { subst pcm. rewrite length_pcm, Hlen. subst len nch. lia. }
  rewrite length_app, length_wavHeader_spec.
  assert (H4 : field32 (wavHeader_spec nch (AudioBuffer.sampleRate b) len
                        ++ pcm) 4 = le_value (le32 (36 + len * nch * 2)))
    by reflexivity.
  assert (H40 : field32 (wavHeader_spec nch (AudioBuffer.sampleRate b) len
                         ++ pcm) 40 = le_value (le32 (len * nch * 2)))
    by reflexivity.
  rewrite H4, H40, !le32_value by lia.
  split; [lia|]. split; [lia|]. split; [|done].
  apply Forall_app. split; [apply wavHeader_spec_bytes|apply pcm_bytes].
Qed.

Lemma ToInt16_range v : -32768 ≤ ToInt16 v ≤ 32767.
Proof.
  destruct v as [q| | |]; simpl; try lia.
  destruct (Z.leb_spec 32768 (trunc q mod 65536));
    pose proof (Z.mod_pos_bound (trunc q) 65536); lia.
Qed.

(** X12 - a sample can be read back from the payload: the two bytes stored
    for channel [channel] at frame [frame], taken as a little-endian signed
    16-bit number, give the quantized sample, which always lies in
    [-32768, 32767] (for NaN and infinite samples too). *)
Theorem bufferToWav_sample_round_trip h b frame channel x :
  wf_buffer h b →
  (channel < AudioBuffer.numberOfChannels b)%nat →
  channelSamples h b channel !! frame = Some x →
  let bytes := blob_bytes (bufferToWav h b) in
  let k := (frame * AudioBuffer.numberOfChannels b + channel)%nat in
  ∃ lo hi,
    bytes !! (44 + 2 * k)%nat = Some lo
    ∧ bytes !! (44 + 2 * k + 1)%nat = Some hi
    ∧ int16_of_bytes lo hi = quantize x
    ∧ -32768 ≤ quantize x ≤ 32767.
Proof.
  intros Hwf Hc Hx bytes k. subst bytes. rewrite bufferToWav_bytes.
  destruct (interleave_spec h b Hwf) as [_ Hval].
  destruct (pcm_lookup _ _ _ (Hval channel frame x Hc Hx)) as [Hlo Hhi].
  fold k in Hlo, Hhi.
  assert (Hr : -32768 ≤ quantize x ≤ 32767) by apply ToInt16_range.
  exists (quantize x mod 256), ((quantize x / 256) mod 256).
  rewrite !lookup_app_r by (rewrite length_wavHeader_spec; lia).
  rewrite !length_wavHeader_spec.
  replace (44 + 2 * k - 44)%nat with (2 * k)%nat by lia.
  replace (44 + 2 * k + 1 - 44)%nat with (2 * k + 1)%nat by lia.
  split; [done|]. split; [done|]. split; [|done].
  unfold int16_of_bytes. cbv zeta.
  destruct (Z.leb_spec 32768
              (quantize x mod 256 + 256 * ((quantize x / 256) mod 256)));
    Z.div_mod_to_equations; lia.
Qed.

Lemma quantize_fin (x : Qc) : quantize (Fin x) = trunc (scaled x).
Proof.
  destruct (scaled_range x) as [Hlo Hhi].
  pose proof (trunc_range (scaled x) (-32768) 32767 ltac:(lia) Hlo Hhi) as Hr.
  unfold quantize. rewrite clamp_minmax, <- ToInt16_in_range by done.
  f_equal. unfold scaled, lt, mul, ofZ. by case_bool_decide.
Qed.

Lemma trunc_mono (v w : Qc) : (v ≤ w)%Qc → trunc v ≤ trunc w.
Proof.
  intros Hle. unfold trunc.
  case_bool_decide as Hv; case_bool_decide as Hw.
  - by apply Qceiling_resp_le.
  - assert (Qceiling v ≤ Qceiling (inject_Z 0))
      by (apply Qceiling_resp_le; qc_to_q; lra).
    assert (Qfloor (inject_Z 0) ≤ Qfloor w)
      by (apply Qfloor_resp_le; qc_to_q; lra).
    rewrite Qceiling_Z in *. rewrite Qfloor_Z in *. lia.
  - exfalso. qc_to_q. lra.
  - by apply Qfloor_resp_le.
Qed.

Lemma scaled_mono (x y : Qc) : (x ≤ y)%Qc → (scaled x ≤ scaled y)%Qc.
Proof.
  intros Hle. unfold scaled, clamp. cbv zeta.
  repeat case_bool_decide; qc_to_q; lra.
Qed.

(** X13 - the quantization is monotone on finite samples: a larger sample
    never gets a smaller 16-bit code; below -1 every sample gets -32768 and
    above 1 every sample gets 32767 (clipping). *)
Theorem quantize_monotone (x y : Qc) :
  ((x ≤ y)%Qc → quantize (Fin x) ≤ quantize (Fin y))
  ∧ ((x ≤ -1)%Qc → quantize (Fin x) = -32768)
  ∧ ((1 ≤ x)%Qc → quantize (Fin x) = 32767).
Proof.
  rewrite !quantize_fin. split; [|split].
  - intros Hle. by apply trunc_mono, scaled_mono.
  - intros Hx. replace (scaled x) with (Qc_of_Z (-32768)); [done|].
    unfold scaled, clamp. cbv zeta. apply Qc_is_canon.
    repeat case_bool_decide; qc_to_q; try lra.
  - intros Hx. replace (scaled x) with (Qc_of_Z 32767); [done|].
    unfold scaled, clamp. cbv zeta. apply Qc_is_canon.
    repeat case_bool_decide; qc_to_q; try lra.
Qed.

(** ** App.trimAudio: from the time fields to the exported file *)

Lemma normalize_inplace h b :
  wf_buffer h b →
  (normalize h b).2 = b
  ∧ wf_buffer (normalize h b).1 b
  ∧ (∀ l, l ∉ AudioBuffer.channels b → (normalize h b).1 !! l = h !! l).
Proof.
  intros Hwf. unfold normalize. case_match; [|done].
  by destruct (applyGain_spec h b
    (div (ofQ (95 # 100)) (maxAmplitude h b)) Hwf) as (? & ? & ? & _).
Qed.

Lemma applyEffects_inplace h tb o :
  wf_buffer h tb →
  (App.applyEffects h tb o).2 = tb
  ∧ wf_buffer (App.applyEffects h tb o).1 tb
  ∧ (∀ l, l ∉ AudioBuffer.channels tb →
       (App.applyEffects h tb o).1 !! l = h !! l).
Proof.
  intros Hwf. unfold App.applyEffects.
  destruct (applyFade_inplace h tb (App.fadeIn o) (App.fadeOut o) Hwf)
    as (Hb1 & Hwf1 & Ho1 & _).
  cbv zeta in Hwf1, Ho1.
  assert (H1 : ∃ h1, (if App.enableFade o
                      then applyFade h tb (App.fadeIn o) (App.fadeOut o)
                      else (h, tb)) = (h1, tb)
               ∧ wf_buffer h1 tb
               ∧ ∀ l, l ∉ AudioBuffer.channels tb → h1 !! l = h !! l).
  { destruct (App.enableFade o); [|by exists h].
    exists (applyFade h tb (App.fadeIn o) (App.fadeOut o)).1.
    split; [|done]. by rewrite <- Hb1 at 3; destruct (applyFade _ _ _ _). }
  destruct H1 as (h1 & -> & Hwfa & Hoa).
  set (g := div (ofZ (App.volumePercent o)) (ofZ 100)).
  destruct (applyGain_spec h1 tb g Hwfa) as (Hb2 & Hwf2 & Ho2 & _).
  cbv zeta in Hwf2, Ho2.
  assert (H2 : ∃ h2, (if bool_decide (App.volumePercent o ≠ 100)
                      then applyGain h1 tb g else (h1, tb)) = (h2, tb)
               ∧ wf_buffer h2 tb
               ∧ ∀ l, l ∉ AudioBuffer.channels tb → h2 !! l = h !! l).
  { case_bool_decide; [|by exists h1].
    exists (applyGain h1 tb g).1. split; [done|]. split; [done|].
    intros l Hl. by rewrite Ho2, Hoa. }
  destruct H2 as (h2 & -> & Hwfb & Hob).
  destruct (normalize_inplace h2 tb Hwfb) as (Hb3 & Hwf3 & Ho3).
  destruct (App.normalizeAudio o); [|done].
  split; [done|]. split; [done|]. intros l Hl. by rewrite Ho3, Hob.
Qed.

(** What [App.trimAudio] does once the range has passed its test. *)
Lemma timeToSeconds_not_NaN timeStr : timeToSeconds timeStr ≠ NaN.
Proof.
  unfold timeToSeconds. cbv zeta.
  match goal with |- context [if isNaN ?v then _ else _] =>
    by destruct v
  end.
Qed.

Lemma App_trimAudio_accepted h b startField endField o :
  wf_buffer h b →
  App.rangeAccepted (timeToSeconds startField) (timeToSeconds endField)
    (Fin (AudioBuffer.duration b)) = true →
  ∃ s e,
    timeToSeconds startField = Fin s ∧ timeToSeconds endField = Fin e
    ∧ App.trimAudio h b startField endField o
      = match trimAudio h b s e with
        | Throw err => App.Failed err
        | Ok (h1, tb) =>
            App.Exported (App.applyEffects h1 tb o).1 tb
              (bufferToWav (App.applyEffects h1 tb o).1 tb)
        end.
Proof.
  intros Hwf Hacc.
  assert (Hfin : ∃ s e, timeToSeconds startField = Fin s
                        ∧ timeToSeconds endField = Fin e).
  { unfold App.rangeAccepted, gt in Hacc. apply negb_true_iff in Hacc.
    apply orb_false_iff in Hacc as [Hacc Hge].
    apply orb_false_iff in Hacc as [Hneg Hgt].
    pose proof (timeToSeconds_not_NaN startField) as Hs.
    pose proof (timeToSeconds_not_NaN endField) as He.
    destruct (timeToSeconds startField) as [s| | |],
      (timeToSeconds endField) as [e| | |]; try done. by eauto. }
  destruct Hfin as (s & e & Hs & He).
  exists s, e. split; [done|]. split; [done|].
  unfold App.trimAudio. cbv zeta.
  unfold App.rangeAccepted in Hacc. apply negb_true_iff in Hacc.
  rewrite Hacc, Hs, He.
  destruct (trimAudio h b s e) as [[h1 tb]|err] eqn:Hok; [|done].
  destruct (trimAudio_wf h b s e h1 tb Hwf Hok) as (_ & Hwf1 & _).
  destruct (applyEffects_inplace h1 tb o Hwf1) as (Hb & _).
  destruct (App.applyEffects h1 tb o) as [h2 tb2]. simpl in *. by subst.
Qed.





(** X15 - an export never touches what was loaded: after a successful
    [App.trimAudio], whatever effects were selected, every array that was
    live before is as it was, so the loaded buffer is still valid with the
    same samples, and the channels of the exported buffer are new arrays. *)
Theorem App_trimAudio_preserves_source h b startField endField o h' tb blob :
  wf_buffer h b →
  App.trimAudio h b startField endField o = App.Exported h' tb blob →
  (∀ l, l ∈ dom h → h' !! l = h !! l)
  ∧ wf_buffer h' b
  ∧ (∀ c, (c < AudioBuffer.numberOfChannels b)%nat →
       channelSamples h' b c = channelSamples h b c)
  ∧ (∀ l, l ∈ AudioBuffer.channels tb → l ∉ dom h).
Proof.
  intros Hwf Hrun.
  destruct (App.rangeAccepted (timeToSeconds startField)
              (timeToSeconds endField) (Fin (AudioBuffer.duration b)))
    eqn:Hacc.
  2:{ unfold App.trimAudio in Hrun. cbv zeta in Hrun.
      unfold App.rangeAccepted in Hacc. apply negb_false_iff in Hacc.
      by rewrite Hacc in Hrun. }
  destruct (App_trimAudio_accepted h b startField endField o Hwf Hacc)
    as (s & e & _ & _ & Hrun').
  rewrite Hrun in Hrun'.
  destruct (trimAudio h b s e) as [[h1 tb1]|err] eqn:Hok; [|done].
  injection Hrun' as -> -> _.
  destruct (trimAudio_wf h b s e h1 tb1 Hwf Hok) as (Hlt & Hwf1 & Hwfb).
  destruct (trimAudio_ok h b s e Hwf Hlt)
    as (h2 & tb2 & Hok2 & _ & _ & _ & _ & Hfresh & Hold & _).
  rewrite Hok in Hok2. injection Hok2 as <- <-.
  destruct (applyEffects_inplace h1 tb1 o Hwf1) as (_ & _ & Hother).
  assert (Hkeep : ∀ l, l ∈ dom h →
            (App.applyEffects h1 tb1 o).1 !! l = h !! l).
  { intros l Hl.
    assert (l ∉ AudioBuffer.channels tb1)
      by (intros Hin; by apply (Hfresh l Hin)).
    by rewrite Hother, Hold. }
  assert (Hin : ∀ l, l ∈ AudioBuffer.channels b → l ∈ dom h).
  { intros l Hl. destruct (wf_arrays _ _ Hwf l Hl) as (a & Ha & _).
    by eapply elem_of_dom_2. }
  split; [done|]. split; [|split; [|done]].
  - destruct Hwf as [Hr Hc Hnd Harr]. split; [done..|].
    intros l Hl. destruct (Harr l Hl) as (a & Ha & Hlen).
    exists a. split; [|done]. rewrite Hkeep; [done|]. by eapply elem_of_dom_2.
  - intros c Hc. unfold channelSamples. apply lookup_total_agree, Hkeep, Hin.
    by eapply list_elem_of_lookup_2, getChannelData_lookup.
Qed.


(** ** The range tests of the callers *)

(** X17 - the range tests agree where it matters.  The two tests of
    [batchTrim] together are the test of [App.trimAudio]; the test of
    [updateSelectionFromInput] is the same test on all values that are not
    NaN, which is all [timeToSeconds] can return; on a NaN end time the two
    differ: the test of [App.trimAudio] lets it through. *)
Theorem range_tests_agree :
  (∀ start end_ duration,
     App.rangeAccepted start end_ duration
     = negb (App.batchRangeRefused start end_)
       && negb (App.fileSkipped end_ duration))
  ∧ (∀ start end_ duration,
       isNaN start = false → isNaN end_ = false → isNaN duration = false →
       App.selectionAccepted start end_ duration
       = App.rangeAccepted start end_ duration)
  ∧ (∀ startField endField duration,
       isNaN duration = false →
       App.selectionAccepted (timeToSeconds startField)
         (timeToSeconds endField) duration
       = App.rangeAccepted (timeToSeconds startField)
           (timeToSeconds endField) duration)
  ∧ (∀ s d, (0 ≤ s)%Qc →
       App.rangeAccepted (Fin s) NaN (Fin d) = true
       ∧ App.selectionAccepted (Fin s) NaN (Fin d) = false).
Proof.
  assert (Hag : ∀ start end_ duration,
    isNaN start = false → isNaN end_ = false → isNaN duration = false →
    App.selectionAccepted start end_ duration
    = App.rangeAccepted start end_ duration).
  { intros start end_ duration Hs He Hd.
    unfold App.selectionAccepted, App.rangeAccepted, ge, gt, le.
    destruct start, end_, duration; try done; simpl;
      repeat (destruct (bool_decide _)); done. }
  split; [|split; [exact Hag|split]].
  - intros start end_ duration.
    unfold App.rangeAccepted, App.batchRangeRefused, App.fileSkipped.
    by destruct (lt start _), (gt end_ duration), (ge start end_).
  - intros startField endField duration Hd. apply Hag; [| |done].
    + unfold timeToSeconds. cbv zeta.
      match goal with |- context [if isNaN ?v then _ else _] =>
        by destruct (isNaN v) eqn:H
      end.
    + unfold timeToSeconds. cbv zeta.
      match goal with |- context [if isNaN ?v then _ else _] =>
        by destruct (isNaN v) eqn:H
      end.
  - intros s d Hs. split.
    + unfold App.rangeAccepted. simpl.
      rewrite bool_decide_eq_false_2; [done|]. by apply Qcle_not_lt.
    + unfold App.selectionAccepted, gt. simpl.
      by rewrite andb_false_r.
Qed.

(** ** Printing and reading decimal digits *)














(** ** The shape of formatted numbers *)




Lemma rem_nonneg (s : Qc) :
  (0 <= s)%Qc ->
  0 <= floor (s / Qc_of_Z 60)
  /\ rem s (Qc_of_Z 60) = (s - Qc_of_Z 60 * Qc_of_Z (floor (s / Qc_of_Z 60)))%Qc
  /\ (0 <= rem s (Qc_of_Z 60))%Qc /\ (rem s (Qc_of_Z 60) < Qc_of_Z 60)%Qc.
Proof.
  intros Hs. set (y := (s / Qc_of_Z 60)%Qc).
  assert (Hy : s = (y * Qc_of_Z 60)%Qc) by (unfold y; field; discriminate).
  assert (Hy0 : (0 <= y)%Qc) by (rewrite Hy in Hs; qc_to_q; lra).
  assert (Hr : rem s (Qc_of_Z 60) = (s - Qc_of_Z 60 * Qc_of_Z (floor y))%Qc).
  { unfold rem. fold y. unfold trunc.
    by rewrite bool_decide_eq_false_2 by (by apply Qcle_not_lt). }
  destruct (floor_bounds y) as [Hlo Hhi].
  split; [|split; [exact Hr|]].
  - change 0 with (Qfloor 0). apply Qfloor_resp_le. exact Hy0.
  - rewrite Hr, Hy. clearbody y. clear Hr Hy Hs.
    rewrite Z2Qc_inj_add in Hhi. revert Hlo Hhi.
    generalize (Qc_of_Z (floor y)). intros m Hlo Hhi.
    split; qc_to_q; lra.
Qed.






(** ** Times as they are printed *)



(** X20 - the seconds are rounded after the minutes were split off and
    nothing is carried: a non-negative time whose seconds part is 59.9995 or
    more is printed with the seconds field 60.000 after the unchanged
    minutes. *)
Theorem secondsToTime_no_carry (s : Qc) :
  (0 <= s)%Qc ->
  (Q2Qc (599995 # 10000) <= rem s (Qc_of_Z 60))%Qc ->
  secondsToTime s
  = padStart 2 "0" (intToString (floor (s / Qc_of_Z 60))) +:+ ":60.000".
Proof.
  intros Hs Hr. destruct (rem_nonneg s Hs) as (_ & _ & _ & Hr60).
  unfold secondsToTime. do 2 f_equal. unfold toFixed.
  rewrite bool_decide_eq_false_2.
  2:{ apply Qcle_not_lt. revert Hr. generalize (rem s (Qc_of_Z 60)).
      intros r Hr. qc_to_q. lra. }
  assert (floor (rem s (Qc_of_Z 60) * Qc_of_Z (10 ^ Z.of_nat 3) + Q2Qc (1 # 2))
          = 60000) as ->; [|reflexivity].
  apply floor_unique; change (10 ^ Z.of_nat 3) with 1000;
    change (60000 + 1) with 60001;
    revert Hr Hr60; generalize (rem s (Qc_of_Z 60)); intros r Hr Hr60;
    qc_to_q; lra.
Qed.

(** ** The further properties at concrete inputs *)

Lemma wf_nanBuffer : wf_buffer nanStore nanBuffer.
Proof. apply wf_bufferb_correct. vm_compute. reflexivity. Qed.

Lemma finite_buffer0 c j x :
  (c < AudioBuffer.numberOfChannels buffer0)%nat →
  channelSamples store0 buffer0 c !! j = Some x → ∃ q, x = Fin q.
Proof.
  intros Hc Hx. change (AudioBuffer.numberOfChannels buffer0) with 2%nat in Hc.
  destruct c as [|[|c]]; [| |lia].
  - change (channelSamples store0 buffer0 0)
      with [eighths 1; eighths 2; eighths 3; eighths 4] in Hx.
    destruct j as [|[|[|[|j]]]]; simplify_eq/=; eauto.
  - change (channelSamples store0 buffer0 1)
      with [eighths (-1); eighths (-2); eighths (-3); eighths (-4)] in Hx.
    destruct j as [|[|[|[|j]]]]; simplify_eq/=; eauto.
Qed.

Lemma applyGain_scales_witness :
  wf_buffer store0 buffer0
  ∧ channelSamples (applyGain store0 buffer0 (eighths 5)).1 buffer0 0 !! 1%nat
    = Some (mul (eighths 2) (eighths 5)).
Proof.
  split; [exact wf_buffer0|].
  destruct (applyGain_scales store0 buffer0 (eighths 5) wf_buffer0)
    as (_ & _ & _ & Hval).
  apply (Hval 0%nat 1%nat (eighths 2)).
  - vm_compute. lia.
  - vm_compute. reflexivity.
Defined.

Lemma applyGain_compose_witness :
  wf_buffer store0 buffer0
  ∧ applyGain (applyGain store0 buffer0 (Fin (Q2Qc (1 # 2)))).1 buffer0
      (Fin (Q2Qc (1 # 4)))
    = applyGain store0 buffer0 (Fin (Q2Qc (1 # 2) * Q2Qc (1 # 4))%Qc).
Proof.
  split; [exact wf_buffer0|].
  exact (proj1 (applyGain_compose store0 buffer0 (Q2Qc (1 # 2)) (Q2Qc (1 # 4))
                  wf_buffer0)).
Defined.

Lemma maxAmplitude_finite_witness :
  wf_buffer store0 buffer0
  ∧ ∃ p, maxAmplitude store0 buffer0 = Fin p ∧ (0 ≤ p)%Qc.
Proof.
  split; [exact wf_buffer0|].
  destruct (maxAmplitude_finite store0 buffer0 wf_buffer0 finite_buffer0)
    as (p & Hp & Hp0 & _).
  exists p. split; [exact Hp|exact Hp0].
Defined.

Lemma normalize_NaN_unchanged_witness :
  wf_buffer nanStore nanBuffer
  ∧ channelSamples nanStore nanBuffer 0 !! 0%nat = Some NaN
  ∧ normalize nanStore nanBuffer = (nanStore, nanBuffer).
Proof.
  split; [exact wf_nanBuffer|].
  assert (H : channelSamples nanStore nanBuffer 0 !! 0%nat = Some NaN)
    by (vm_compute; reflexivity).
  split; [exact H|].
  refine (proj2 (normalize_NaN_unchanged nanStore nanBuffer 0%nat 0%nat
                   wf_nanBuffer _ H)).
  vm_compute. lia.
Defined.

Lemma normalize_headroom_witness :
  wf_buffer store0 buffer0
  ∧ maxAmplitude store0 buffer0 = Fin (Q2Qc (1 # 2))
  ∧ channelSamples (normalize store0 buffer0).1 buffer0 0 !! 0%nat
    = Some (Fin (Q2Qc (1 # 8) * (headroom / Q2Qc (1 # 2)))%Qc).
Proof.
  split; [exact wf_buffer0|].
  assert (Hp : maxAmplitude store0 buffer0 = Fin (Q2Qc (1 # 2)))
    by (apply num_eq_by_compute; vm_compute; reflexivity).
  split; [exact Hp|].
  refine (proj1 (normalize_headroom store0 buffer0 (Q2Qc (1 # 2)) wf_buffer0
                   finite_buffer0 Hp _ _ 0%nat 0%nat (Q2Qc (1 # 8)) _ _)).
  - vm_compute. reflexivity.
  - vm_compute. reflexivity.
  - vm_compute. lia.
  - vm_compute. reflexivity.
Defined.

Lemma applyFade_endpoints_witness :
  wf_buffer store0 buffer0
  ∧ channelSamples (applyFade store0 buffer0 (atFrame 2) (atFrame 1)).1
      buffer0 0 !! 0%nat
    = Some (mul (eighths 1) (Fin 0%Qc)).
Proof.
  split; [exact wf_buffer0|].
  refine (proj1 (applyFade_endpoints store0 buffer0 (atFrame 2) (atFrame 1)
                   wf_buffer0) _ _ 0%nat (eighths 1) _ _).
  - apply Z.leb_le. vm_compute. reflexivity.
  - apply Z.ltb_lt. vm_compute. reflexivity.
  - vm_compute. lia.
  - vm_compute. reflexivity.
Defined.

Lemma applyFade_subsample_witness :
  wf_buffer store0 buffer0
  ∧ applyFade store0 buffer0 0%Qc (Q2Qc (1 # 10000)) = (store0, buffer0).
Proof.
  split; [exact wf_buffer0|].
  apply (applyFade_subsample store0 buffer0 0%Qc (Q2Qc (1 # 10000)) wf_buffer0).
  - apply Z.leb_le. vm_compute. reflexivity.
  - apply Z.leb_le. vm_compute. reflexivity.
Defined.

Lemma trimAudio_negative_start_witness :
  wf_buffer store0 buffer0
  ∧ ∃ h' b',
      trimAudio store0 buffer0 (atFrame (-1)) (atFrame 2) = Ok (h', b')
      ∧ Z.of_nat (AudioBuffer.length b') = 3
      ∧ channelSamples h' b' 0 !! 0%nat = Some NaN.
Proof.
  split; [exact wf_buffer0|].
  destruct (trimAudio_negative_start store0 buffer0 (atFrame (-1)) (atFrame 2)
              wf_buffer0)
    as (h' & b' & Hok & Hlen & Hval).
  - apply Z.ltb_lt. vm_compute. reflexivity.
  - apply Z.ltb_lt. vm_compute. reflexivity.
  - exists h', b'. split; [exact Hok|]. split; [exact Hlen|].
    refine (proj1 (Hval 0%nat 0%nat _ _) _).
    + vm_compute. lia.
    + apply Nat2Z.inj_lt. rewrite Hlen. vm_compute. reflexivity.
    + apply Z.ltb_lt. vm_compute. reflexivity.
Defined.

Lemma writeString_bytes_witness :
  (1 + String.length "RIFF" ≤ List.length [0; 0; 0; 0; 0; 0])%nat
  ∧ writeString [0; 0; 0; 0; 0; 0] 1 "RIFF" !! (1 + 2)%nat
    = Some (charCodeAt "RIFF" 2).
Proof.
  assert (H : (1 + String.length "RIFF" ≤ List.length [0; 0; 0; 0; 0; 0])%nat)
    by (simpl; lia).
  split; [exact H|].
  destruct (writeString_bytes [0; 0; 0; 0; 0; 0] 1 "RIFF" H) as (_ & Hin & _).
  apply (Hin 2%nat). simpl. lia.
Defined.

Lemma createWavHeader_fields_witness :
  field16 (createWavHeader 2 8192 4) 22 = 2
  ∧ field32 (createWavHeader 2 8192 4) 24 = 8192
  ∧ field32 (createWavHeader 2 8192 4) 40 = 4 * 2 * 2.
Proof.
  destruct (createWavHeader_fields 2 8192 4)
    as (_ & Hch & Hsr & _ & _ & _ & Hds & _); [lia..|].
  split; [exact Hch|]. split; [exact Hsr|exact Hds].
Defined.

Lemma bufferToWav_sizes_witness :
  wf_buffer store0 buffer0
  ∧ field32 (blob_bytes (bufferToWav store0 buffer0)) 40
    = Z.of_nat (List.length (blob_bytes (bufferToWav store0 buffer0))) - 44.
Proof.
  split; [exact wf_buffer0|].
  destruct (bufferToWav_sizes store0 buffer0 wf_buffer0) as (_ & H & _).
  - apply Z.ltb_lt. vm_compute. reflexivity.
  - exact H.
Defined.

Lemma bufferToWav_sample_round_trip_witness :
  wf_buffer store0 buffer0
  ∧ ∃ lo hi,
      blob_bytes (bufferToWav store0 buffer0) !! 48%nat = Some lo
      ∧ blob_bytes (bufferToWav store0 buffer0) !! 49%nat = Some hi
      ∧ int16_of_bytes lo hi = quantize (eighths 2).
Proof.
  split; [exact wf_buffer0|].
  destruct (bufferToWav_sample_round_trip store0 buffer0 1 0 (eighths 2)
              wf_buffer0)
    as (lo & hi & Hlo & Hhi & Hq & _).
  - vm_compute. lia.
  - vm_compute. reflexivity.
  - exists lo, hi. split; [exact Hlo|]. split; [exact Hhi|exact Hq].
Defined.

Lemma quantize_monotone_witness :
  (Q2Qc (1 # 4) ≤ Q2Qc (1 # 2))%Qc
  ∧ quantize (Fin (Q2Qc (1 # 4))) ≤ quantize (Fin (Q2Qc (1 # 2))).
Proof.
  assert (H : (Q2Qc (1 # 4) ≤ Q2Qc (1 # 2))%Qc).
  { apply Qcle_by_compute. vm_compute. reflexivity. }
  split; [exact H|].
  exact (proj1 (quantize_monotone (Q2Qc (1 # 4)) (Q2Qc (1 # 2))) H).
Defined.



Lemma App_trimAudio_preserves_source_witness :
  wf_buffer store0 buffer0
  ∧ ∃ h' tb blob,
      App.trimAudio store0 buffer0 "00:00.000" "00:00.0004" plainOptions
      = App.Exported h' tb blob
      ∧ wf_buffer h' buffer0.
Proof.
  split; [exact wf_buffer0|].
  destruct (App.trimAudio store0 buffer0 "00:00.000" "00:00.0004" plainOptions)
    as [|err|h' tb blob] eqn:H;
    [vm_compute in H; discriminate H..|].
  exists h', tb, blob. split; [reflexivity|].
  destruct (App_trimAudio_preserves_source store0 buffer0 "00:00.000"
              "00:00.0004" plainOptions h' tb blob wf_buffer0 H)
    as (_ & Hwf & _).
  exact Hwf.
Defined.

Lemma range_tests_agree_witness :
  (0 ≤ 1)%Qc
  ∧ App.rangeAccepted (Fin 1%Qc) NaN (Fin 2%Qc) = true
  ∧ App.selectionAccepted (Fin 1%Qc) NaN (Fin 2%Qc) = false.
Proof.
  assert (H : (0 ≤ 1)%Qc) by (apply Qcle_by_compute; vm_compute; reflexivity).
  split; [exact H|].
  destruct range_tests_agree as (_ & _ & _ & Hnan).
  exact (Hnan 1%Qc 2%Qc H).
Defined.



Lemma secondsToTime_no_carry_witness :
  (0 ≤ Q2Qc (599996 # 10000))%Qc
  ∧ (Q2Qc (599995 # 10000) ≤ rem (Q2Qc (599996 # 10000)) (Qc_of_Z 60))%Qc
  ∧ secondsToTime (Q2Qc (599996 # 10000))
    = padStart 2 "0" (intToString (floor (Q2Qc (599996 # 10000) / Qc_of_Z 60)))
      +:+ ":60.000".
Proof.
  assert (H : (0 ≤ Q2Qc (599996 # 10000))%Qc)
    by (apply Qcle_by_compute; vm_compute; reflexivity).
  assert (Hr : (Q2Qc (599995 # 10000)
                ≤ rem (Q2Qc (599996 # 10000)) (Qc_of_Z 60))%Qc)
    by (apply Qcle_by_compute; vm_compute; reflexivity).
  split; [exact H|]. split; [exact Hr|].
  exact (secondsToTime_no_carry (Q2Qc (599996 # 10000)) H Hr).
Defined.

(** ** Evaluations of the time formats *)

Example secondsToTime_values :
  secondsToTime <$> [Q2Qc (1254 # 10); 0%Qc; Q2Qc 3600; Q2Qc (5 # 8192);
                     Q2Qc (599996 # 10000); Q2Qc (-5)]
  = ["02:05.400"; "00:00.000"; "60:00.000"; "00:00.001"; "00:60.000";
     "-1:-5.000"]%string.
Proof. vm_compute. reflexivity. Qed.

Example formatTime_values :
  App.formatTime <$> [Q2Qc (1254 # 10); 0%Qc; Q2Qc (59996 # 1000)]
  = ["2:05.40"; "0:00.00"; "0:60.00"]%string.
Proof. vm_compute. reflexivity. Qed.

